(** * semantic-code-mcp: filter builder, keyword fallback, paths, hybrid search, LRU cache

    A shallow embedding of the TypeScript sources
      src/search/filter-builder.ts, src/search/keyword-search.ts,
      src/search/index.ts, src/utils/paths.ts, src/utils/cache.ts, src/errors.ts
    followed by the properties the specification states about them. *)

From Stdlib Require Import List ZArith NArith Bool Lia.
From Stdlib Require Import Strings.String Strings.Ascii Numbers.DecimalString.
Import ListNotations.

Set Implicit Arguments.

(* ------------------------------------------------------------------ *)
(** ** JavaScript strings *)
(* ------------------------------------------------------------------ *)

(** A JavaScript string is a sequence of UTF-16 code units; [length], the
    regular expressions of the sources (none carries the [u] flag) and
    [===] all work on code units. *)
Module JS.

Local Open Scope N_scope.

Definition char := N.
Definition jsstring := list char.

(** A source literal, written as a Rocq string of ASCII characters. *)
Definition js (s : string) : jsstring :=
  List.map N_of_ascii (list_ascii_of_string s).

Definition char_eqb (a b : char) : bool := N.eqb a b.

(** [a === b] on strings. *)
Fixpoint str_eqb (a b : jsstring) : bool :=
  match a, b with
  | [], [] => true
  | x :: a', y :: b' => char_eqb x y && str_eqb a' b'
  | _, _ => false
  end.

(** [s.startsWith(p)]. *)
Fixpoint startsWith (s p : jsstring) : bool :=
  match p, s with
  | [], _ => true
  | y :: p', x :: s' => char_eqb x y && startsWith s' p'
  | _ :: _, [] => false
  end.

(** [s.length], as a JavaScript number. *)
Definition strlen (s : jsstring) : Z := Z.of_nat (List.length s).

(** A string is truthy when it is not empty. *)
Definition truthy (s : jsstring) : bool :=
  match s with [] => false | _ :: _ => true end.

(** [s.replace(/[cs]/g, r)] for a one-character class: every code unit
    of the class is replaced by [r]. *)
Definition replaceClass (cls : char -> bool) (r : char) (s : jsstring) : jsstring :=
  List.map (fun c => if cls c then r else c) s.

(** [parts.join(sep)]. *)
Fixpoint join (sep : jsstring) (parts : list jsstring) : jsstring :=
  match parts with
  | [] => []
  | [x] => x
  | x :: rest => x ++ sep ++ join sep rest
  end.

(** [arr.slice(0, end)] for an integral [end]: a negative [end] counts
    from the end of the array. *)
Definition slice0 {A} (l : list A) (e : Z) : list A :=
  let len := Z.of_nat (List.length l) in
  let k := if (e <? 0)%Z then Z.max (len + e) 0 else Z.min e len in
  firstn (Z.to_nat k) l.

(** Number::toString on a non-negative integer below 10^21: its decimal
    numeral. *)
Definition numberToString (n : N) : jsstring :=
  js (NilEmpty.string_of_uint (N.to_uint n)).

(** Code units named in the sources. *)
Definition c_slash : char := 47.      (* / *)
Definition c_backslash : char := 92.  (* \ *)
Definition c_dot : char := 46.        (* . *)
Definition c_underscore : char := 95. (* _ *)
Definition c_hyphen : char := 45.     (* - *)
Definition c_percent : char := 37.    (* % *)
Definition c_star : char := 42.       (* * *)
Definition c_question : char := 63.   (* ? *)
Definition c_quote : char := 39.      (* ' *)
Definition c_space : char := 32.
Definition c_semicolon : char := 59.  (* ; *)
Definition c_equals : char := 61.     (* = *)

Definition between (lo hi c : char) : bool := (N.leb lo c) && (N.leb c hi).
Definition isLower (c : char) : bool := between 97 122 c.   (* [a-z] *)
Definition isUpper (c : char) : bool := between 65 90 c.    (* [A-Z] *)
Definition isDigit (c : char) : bool := between 48 57 c.    (* [0-9] *)

(** [[a-z]] under the [i] flag without [u]: canonicalisation never maps a
    code unit of 128 or more below 128, so exactly the ASCII letters
    match. *)
Definition isLetterIgnoreCase (c : char) : bool := isLower c || isUpper c.

(** [s.toLowerCase()] on a string of ASCII code units. *)
Definition asciiToLower (c : char) : char :=
  if isUpper c then c + 32 else c.
Definition toLowerCaseAscii (s : jsstring) : jsstring := List.map asciiToLower s.

(** [\s]: WhiteSpace and LineTerminator of ECMAScript. *)
Definition isWhiteSpace (c : char) : bool :=
  between 9 13 c || N.eqb c 32 || N.eqb c 160 || N.eqb c 5760
  || between 8192 8202 c || N.eqb c 8232 || N.eqb c 8233
  || N.eqb c 8239 || N.eqb c 8287 || N.eqb c 12288 || N.eqb c 65279.

(** The code units the regular-expression dot refuses. *)
Definition isLineTerminator (c : char) : bool :=
  N.eqb c 10 || N.eqb c 13 || N.eqb c 8232 || N.eqb c 8233.

End JS.
Import JS.

(* ------------------------------------------------------------------ *)
(** ** src/errors.ts *)
(* ------------------------------------------------------------------ *)

Module Errors.

(** The [name] an error object carries; [OtherError] stands for every
    thrown value that is none of the classes of errors.ts. *)
Inductive ErrorName :=
| EmbedderError
| ModelLoadError
| EmbeddingGenerationError
| SecurityError
| PathTraversalError
| InvalidFilterError
| InvalidIdError
| OtherError.

Record Thrown := mkThrown { name : ErrorName; message : jsstring }.

(** A computation that returns or throws. *)
Inductive Result (A : Type) :=
| Ok (a : A)
| Throw (e : Thrown).
Arguments Ok {A} a.
Arguments Throw {A} e.

Definition bind {A B} (m : Result A) (k : A -> Result B) : Result B :=
  match m with
  | Ok a => k a
  | Throw e => Throw e
  end.

Definition raises {A} (m : Result A) (n : ErrorName) : Prop :=
  exists msg, m = Throw (mkThrown n msg).

Definition returns {A} (m : Result A) : Prop := exists a, m = Ok a.

End Errors.
Import Errors.

Notation "x <- m ;; k" := (bind m (fun x => k))
  (at level 61, m at next level, right associativity).

(* ------------------------------------------------------------------ *)
(** ** src/search/filter-builder.ts *)
(* ------------------------------------------------------------------ *)

Module FilterBuilder.

(** One character of [SAFE_PATTERN = /^[a-zA-Z0-9_\-%]+$/]. *)
Definition isSafeChar (c : char) : bool :=
  isLower c || isUpper c || isDigit c
  || char_eqb c c_underscore || char_eqb c c_hyphen || char_eqb c c_percent.

Definition SAFE_PATTERN (s : jsstring) : bool :=
  truthy s && forallb isSafeChar s.

Definition MAX_FILTER_VALUE_LENGTH : Z := 500.

Definition validateFilterPattern (pattern : jsstring) : bool :=
  if (strlen pattern >? MAX_FILTER_VALUE_LENGTH)%Z then false
  else SAFE_PATTERN pattern.

Definition isSeparator (c : char) : bool :=
  char_eqb c c_backslash || char_eqb c c_slash.
Definition isDot (c : char) : bool := char_eqb c c_dot.

(** Separators, then dots, become underscores. *)
Definition pathTranslate (path : jsstring) : jsstring :=
  replaceClass isDot c_underscore (replaceClass isSeparator c_underscore path).

Definition sanitizePathPattern (path : jsstring) : Result jsstring :=
  let sanitized := pathTranslate path in
  if negb (validateFilterPattern sanitized) then
    Throw (mkThrown InvalidFilterError
             (js "Invalid path pattern: contains disallowed characters"))
  else Ok sanitized.

(** [.replace(/\*\*/g, '%')]: non-overlapping pairs of stars, leftmost
    first. *)
Fixpoint replaceStarStar (s : jsstring) : jsstring :=
  match s with
  | [] => []
  | c :: t =>
      if char_eqb c c_star then
        match t with
        | c2 :: t2 =>
            if char_eqb c2 c_star then c_percent :: replaceStarStar t2
            else c :: replaceStarStar t
        | [] => [c]
        end
      else c :: replaceStarStar t
  end.

Definition globTranslate (pattern : jsstring) : jsstring :=
  replaceClass isDot c_underscore
    (replaceClass isSeparator c_underscore
       (replaceClass (fun c => char_eqb c c_question) c_underscore
          (replaceClass (fun c => char_eqb c c_star) c_percent
             (replaceStarStar pattern)))).

Definition sanitizeGlobPattern (pattern : jsstring) : Result jsstring :=
  let sanitized := globTranslate pattern in
  if negb (validateFilterPattern sanitized) then
    Throw (mkThrown InvalidFilterError
             (js "Invalid file pattern: contains disallowed characters"))
  else Ok sanitized.

Definition buildPathLikeCondition (pathPattern : jsstring) : Result jsstring :=
  sanitized <- sanitizePathPattern pathPattern ;;
  Ok (js "id LIKE '" ++ sanitized ++ js "%'").

(** [/^[a-z]+$/]. *)
Definition isLanguageName (l : jsstring) : bool := truthy l && forallb isLower l.

Definition buildLanguageCondition (language : jsstring) : Result jsstring :=
  if negb (isLanguageName language) then
    Throw (mkThrown InvalidFilterError (js "Invalid language name: " ++ language))
  else Ok (js "language = '" ++ language ++ js "'").

Definition buildFilePatternCondition (pattern : jsstring) : Result jsstring :=
  sanitized <- sanitizeGlobPattern pattern ;;
  Ok (js "id LIKE '%" ++ sanitized ++ js "'").

Definition EXTENSION_TO_LANGUAGE : list (jsstring * jsstring) :=
  [ (js ".ts", js "typescript");
    (js ".tsx", js "typescript");
    (js ".js", js "javascript");
    (js ".jsx", js "javascript");
    (js ".mjs", js "javascript");
    (js ".cjs", js "javascript");
    (js ".py", js "python");
    (js ".pyw", js "python");
    (js ".go", js "go");
    (js ".rs", js "rust") ].

(** [table[key]]: the value of an own property, or undefined.  Every key
    looked up here starts with a dot, so no inherited property of the
    object is ever hit. *)
Fixpoint lookup (table : list (jsstring * jsstring)) (key : jsstring) : option jsstring :=
  match table with
  | [] => None
  | (k, v) :: rest => if str_eqb k key then Some v else lookup rest key
  end.

Record FilterOptions := mkFilterOptions {
  path : option jsstring;
  filePattern : option jsstring
}.

(** [if (x)] on an optional string: defined and not empty. *)
Definition present (x : option jsstring) : option jsstring :=
  match x with
  | Some s => if truthy s then Some s else None
  | None => None
  end.

(** [pattern.match(/^\*(\.[a-z]+)$/i)]: the first capture group. *)
Definition matchExtension (pattern : jsstring) : option jsstring :=
  match pattern with
  | s :: d :: ((_ :: _) as letters) =>
      if char_eqb s c_star && char_eqb d c_dot && forallb isLetterIgnoreCase letters
      then Some (d :: letters) else None
  | _ => None
  end.

(** The statements of [buildSafeFilter], threading the [conditions]
    array. *)
Definition pathStep (options : FilterOptions) (conditions : list jsstring)
  : Result (list jsstring) :=
  match present (path options) with
  | Some p => c <- buildPathLikeCondition p ;; Ok (conditions ++ [c])
  | None => Ok conditions
  end.

Definition filePatternStep (options : FilterOptions) (conditions : list jsstring)
  : Result (list jsstring) :=
  match present (filePattern options) with
  | Some fp =>
      match matchExtension fp with
      | Some ext1 =>
          let ext := toLowerCaseAscii ext1 in
          match present (lookup EXTENSION_TO_LANGUAGE ext) with
          | Some lang => c <- buildLanguageCondition lang ;; Ok (conditions ++ [c])
          | None => Ok conditions
          end
      | None => c <- buildFilePatternCondition fp ;; Ok (conditions ++ [c])
      end
  | None => Ok conditions
  end.

Definition buildSafeFilter (options : FilterOptions) : Result (option jsstring) :=
  c1 <- pathStep options [] ;;
  c2 <- filePatternStep options c1 ;;
  Ok (match c2 with
      | [] => None
      | _ :: _ => Some (join (js " AND ") c2)
      end).

End FilterBuilder.
Import FilterBuilder.

(* ------------------------------------------------------------------ *)
(** ** The store's types (src/store/index.ts) *)
(* ------------------------------------------------------------------ *)

Module Store.

(** Modelled from the spec: the declaration of [VectorRecord] in
    src/store/index.ts is missing; section 3 of the specification lists
    its fields.  The embedding keeps the chunk fields; the vector, the
    content hash and the indexing time are never read by the code below. *)
Record VectorRecord := mkRecord {
  id : jsstring;
  filePath : jsstring;
  language : jsstring;
  nodeType : jsstring;
  content : jsstring;
  startLine : N;
  endLine : N
}.

(** Modelled from the spec: [SearchResult] of src/store/index.ts is
    missing; a record with its score.  Scores are floating-point numbers;
    the code below copies and subtracts them, so their type is left open. *)
Record SearchResult (Score : Type) := mkSearchResult {
  record : VectorRecord;
  score : Score
}.

(** Modelled from the spec: the query surface of [VectorStore] (section
    4.4) that the retrieval pipeline calls.  Every call may fail. *)
Record VectorStore (Score Vector : Type) := mkStore {
  isEmpty : Result bool;
  fullTextSearch : jsstring -> Z -> Result (list (SearchResult Score));
  vectorSearch : Vector -> Z -> option jsstring -> Result (list (SearchResult Score))
}.

End Store.
Import Store.

(* ------------------------------------------------------------------ *)
(** ** src/search/keyword-search.ts and src/search/index.ts *)
(* ------------------------------------------------------------------ *)

(** Logging, metrics and the [onProgress] callback only write; no value
    the functions return depends on them, and they are left out. *)

Module RegExp.

(** The regular expressions [applyFilter] builds at run time:
    ['^' + pattern] where [pattern] consists of [.*], [.] and literal
    characters. *)
Inductive Token :=
| TStar              (* .* *)
| TAny               (* .  *)
| TLit (c : char).

(** SyntaxCharacter of ECMAScript: these are not literal pattern
    characters. *)
Definition isSyntaxCharacter (c : char) : bool :=
  existsb (char_eqb c) (js "^$\.*+?()[]{}|").

(** [regex.test(s)] for [^tokens]: some prefix of [s] matches; [.*] is
    tried against every run of characters that are not line
    terminators. *)
Fixpoint test (tokens : list Token) (s : jsstring) : bool :=
  match tokens with
  | [] => true
  | TLit c :: rest =>
      match s with
      | x :: s' => char_eqb x c && test rest s'
      | [] => false
      end
  | TAny :: rest =>
      match s with
      | x :: s' => negb (isLineTerminator x) && test rest s'
      | [] => false
      end
  | TStar :: rest =>
      (fix star (s : jsstring) : bool :=
         test rest s ||
         match s with
         | x :: s' => negb (isLineTerminator x) && star s'
         | [] => false
         end) s
  end.

(** [s.match(re)?.[1]] for an unanchored [re] given as a matcher of one
    start position: the leftmost position that matches wins. *)
Fixpoint firstMatch (matchAt : jsstring -> option jsstring) (s : jsstring)
  : option jsstring :=
  match matchAt s with
  | Some cap => Some cap
  | None =>
      match s with
      | [] => None
      | _ :: t => firstMatch matchAt t
      end
  end.

Fixpoint dropWhile (p : char -> bool) (s : jsstring) : jsstring :=
  match s with
  | c :: t => if p c then dropWhile p t else s
  | [] => []
  end.

Fixpoint takeWhile (p : char -> bool) (s : jsstring) : jsstring :=
  match s with
  | c :: t => if p c then c :: takeWhile p t else []
  | [] => []
  end.

(** A literal at the head of [s]; what follows it. *)
Fixpoint literal (lit s : jsstring) : option jsstring :=
  match lit, s with
  | [], _ => Some s
  | y :: lit', x :: s' => if char_eqb x y then literal lit' s' else None
  | _ :: _, [] => None
  end.

(** ['([^']+)'] at the head of [s]: the capture. *)
Definition quoted (s : jsstring) : option jsstring :=
  match s with
  | q :: rest =>
      if char_eqb q c_quote then
        let notQuote := fun c => negb (char_eqb c c_quote) in
        match takeWhile notQuote rest, dropWhile notQuote rest with
        | (_ :: _) as cap, _ :: _ => Some cap
        | _, _ => None
        end
      else None
  | [] => None
  end.

Definition option_bind {A B} (m : option A) (k : A -> option B) : option B :=
  match m with Some a => k a | None => None end.

(** [/language\s*=\s*'([^']+)'/] at one start position. *)
Definition languageAt (s : jsstring) : option jsstring :=
  option_bind (literal (js "language") s) (fun r1 =>
  option_bind (literal (js "=") (dropWhile isWhiteSpace r1)) (fun r2 =>
  quoted (dropWhile isWhiteSpace r2))).

(** [\s+]: at least one white space. *)
Definition spaces1 (s : jsstring) : option jsstring :=
  match s with
  | c :: t => if isWhiteSpace c then Some (dropWhile isWhiteSpace t) else None
  | [] => None
  end.

(** [/id\s+LIKE\s+'([^']+)'/] at one start position. *)
Definition idLikeAt (s : jsstring) : option jsstring :=
  option_bind (literal (js "id") s) (fun r1 =>
  option_bind (spaces1 r1) (fun r2 =>
  option_bind (literal (js "LIKE") r2) (fun r3 =>
  option_bind (spaces1 r3) quoted))).

End RegExp.

Module KeywordSearch.
Section WithScore.

Variable Score : Type.
Variable Vector : Type.

Record SearchOptions := mkSearchOptions {
  limit : option Z;
  filePattern : option jsstring;
  path : option jsstring;
  useReranking : option bool;
  candidateMultiplier : option Z;
  fallbackToKeywordSearch : option bool
}.

(** The part of the options [buildSafeFilter] reads. *)
Definition filterOptions (o : SearchOptions) : FilterOptions :=
  mkFilterOptions (path o) (filePattern o).

(** [SearchResult] extended with [fromFallback: true]. *)
Record KeywordSearchResult := mkKeywordResult {
  kw_result : SearchResult Score;
  kw_fromFallback : bool
}.

(** [idLikeMatch[1].replace(/%/g, '.*').replace(/_/g, '.')] handed to
    [new RegExp('^' + pattern)].  A capture holding a syntax character
    of regular expressions falls outside the fragment modelled by
    [RegExp.Token]: [None]. *)
Fixpoint compileLike (cap : jsstring) : option (list RegExp.Token) :=
  match cap with
  | [] => Some []
  | c :: t =>
      match compileLike t with
      | Some rest =>
          if char_eqb c c_percent then Some (RegExp.TStar :: rest)
          else if char_eqb c c_underscore then Some (RegExp.TAny :: rest)
          else if RegExp.isSyntaxCharacter c then None
          else Some (RegExp.TLit c :: rest)
      | None => None
      end
  end.

(** The callback of [results.filter] in [applyFilter]. *)
Definition keeps (languageMatch idLikeMatch : option jsstring)
           (result : SearchResult Score) : option bool :=
  let languageFails :=
    match languageMatch with
    | Some l => negb (str_eqb (language (record result)) l)
    | None => false
    end in
  if languageFails then Some false
  else match idLikeMatch with
       | Some cap =>
           match compileLike cap with
           | Some regex => Some (RegExp.test regex (id (record result)))
           | None => None
           end
       | None => Some true
       end.

Fixpoint filterResults (keep : SearchResult Score -> option bool)
         (results : list (SearchResult Score)) : option (list (SearchResult Score)) :=
  match results with
  | [] => Some []
  | r :: rest =>
      match keep r, filterResults keep rest with
      | Some b, Some rest' => Some (if b then r :: rest' else rest')
      | _, _ => None
      end
  end.

(** [applyFilter]; [None] when a pattern leaves the modelled fragment of
    regular expressions (never for a filter of [buildSafeFilter]). *)
Definition applyFilter (results : list (SearchResult Score)) (filter : jsstring)
  : option (list (SearchResult Score)) :=
  let languageMatch := RegExp.firstMatch RegExp.languageAt filter in
  let idLikeMatch := RegExp.firstMatch RegExp.idLikeAt filter in
  filterResults (keeps languageMatch idLikeMatch) results.

Definition DEFAULT_LIMIT : Z := 10.
Definition DEFAULT_CANDIDATE_MULTIPLIER : Z := 5.

Definition orDefault {A} (x : option A) (d : A) : A :=
  match x with Some a => a | None => d end.

(** An exception of the host for a pattern outside the modelled
    fragment. *)
Definition regexOutsideModel : Thrown := mkThrown OtherError (js "SyntaxError").

Definition keywordOnlySearch (query : jsstring) (store : VectorStore Score Vector)
           (options : SearchOptions) : Result (list KeywordSearchResult) :=
  let limit := orDefault (limit options) DEFAULT_LIMIT in
  isEmpty <- isEmpty store ;;
  if (isEmpty : bool) then Ok []
  else
    filter <- buildSafeFilter (filterOptions options) ;;
    results <- fullTextSearch store query (limit * 2)%Z ;;
    results <- match present filter with
               | Some f =>
                   match applyFilter results f with
                   | Some rs => Ok rs
                   | None => Throw regexOutsideModel
                   end
               | None => Ok results
               end ;;
    let results := slice0 results limit in
    Ok (List.map (fun result => mkKeywordResult result true) results).

Definition isEmbeddingError (error : Thrown) : bool :=
  match name error with
  | EmbeddingGenerationError | ModelLoadError | EmbedderError => true
  | _ => false
  end.

End WithScore.
End KeywordSearch.
Import KeywordSearch.

Module Search.
Section WithCollaborators.

Variable Score : Type.
Variable Vector : Type.

(** Arithmetic and order of scores (JavaScript numbers). *)
Variable score_zero : Score.
Variable score_sub : Score -> Score -> Score.
Variable score_leb : Score -> Score -> bool.

(** [embedQuery] of src/embedder/index.ts: the embedding of the query,
    or the error the embedder throws. *)
Variable embedQuery : jsstring -> Result Vector.

(** [boostKeywordMatches] of src/search/reranker.ts (missing). *)
Variable boostKeywordMatches :
  jsstring -> list (SearchResult Score) -> list (SearchResult Score).

(** The cross-encoder model: one score per candidate, or a failure. *)
Variable crossEncoder :
  jsstring -> list (SearchResult Score) -> Result (list Score).

Fixpoint insertByScore (r : SearchResult Score) (sorted : list (SearchResult Score))
  : list (SearchResult Score) :=
  match sorted with
  | [] => [r]
  | x :: rest =>
      if score_leb (score x) (score r) then r :: sorted
      else x :: insertByScore r rest
  end.

Definition sortDescending (rs : list (SearchResult Score)) : list (SearchResult Score) :=
  fold_right insertByScore [] rs.

(** Modelled from the spec: [rerank] of src/search/reranker.ts is
    missing.  Section 4.7: given (query, candidates, k), score each
    query/candidate pair through the cross-encoder, replace the prior
    score by the new one, sort descending by the new score, keep the top
    k; a failure of the model is a failure of [rerank]. *)
Definition rerank (query : jsstring) (candidates : list (SearchResult Score)) (k : Z)
  : Result (list (SearchResult Score)) :=
  scores <- crossEncoder query candidates ;;
  let rescored :=
    List.map (fun cs => mkSearchResult (record (fst cs)) (snd cs))
             (List.combine candidates scores) in
  Ok (firstn (Z.to_nat k) (sortDescending rescored)).

Record HybridSearchResult := mkHybridResult {
  h_result : SearchResult Score;
  combinedScore : Score;
  vectorScore : Score;
  keywordScore : Score;
  fromFallback : option bool
}.

(** [results.find((r) => r.record.id === wanted)]. *)
Definition findById (results : list (SearchResult Score)) (wanted : jsstring)
  : option (SearchResult Score) :=
  List.find (fun r => str_eqb (id (record r)) wanted) results.

Definition scoreOrZero (r : option (SearchResult Score)) : Score :=
  match r with Some x => score x | None => score_zero end.

Definition hybridSearch (query : jsstring) (store : VectorStore Score Vector)
           (options : SearchOptions) : Result (list HybridSearchResult) :=
  let limit := orDefault (limit options) DEFAULT_LIMIT in
  let useReranking := orDefault (useReranking options) true in
  let candidateMultiplier :=
    orDefault (candidateMultiplier options) DEFAULT_CANDIDATE_MULTIPLIER in
  let fallbackToKeywordSearch := orDefault (fallbackToKeywordSearch options) true in
  isEmpty <- isEmpty store ;;
  if (isEmpty : bool) then Ok []
  else
    match embedQuery query with
    | Throw error =>
        if fallbackToKeywordSearch && isEmbeddingError error then
          keywordResults <- keywordOnlySearch query store options ;;
          Ok (List.map
                (fun result =>
                   mkHybridResult (kw_result result)
                     (score (kw_result result)) score_zero (score (kw_result result))
                     (Some true))
                keywordResults)
        else
          Throw (mkThrown EmbeddingGenerationError
                   (js "Failed to generate query embedding: " ++ message error))
    | Ok queryVector =>
        let candidateCount :=
          if useReranking then (limit * candidateMultiplier)%Z else limit in
        filter <- buildSafeFilter (filterOptions options) ;;
        vectorResults <- vectorSearch store queryVector candidateCount filter ;;
        match vectorResults with
        | [] => Ok []
        | _ :: _ =>
            let boostedResults := boostKeywordMatches query vectorResults in
            let finalResults :=
              if useReranking && (Z.of_nat (List.length boostedResults) >? limit)%Z then
                match rerank query boostedResults limit with
                | Ok reranked => reranked
                | Throw _ => slice0 boostedResults limit
                end
              else slice0 boostedResults limit in
            Ok (List.map
                  (fun result =>
                     let originalVector := findById vectorResults (id (record result)) in
                     let boosted := findById boostedResults (id (record result)) in
                     mkHybridResult result (score result)
                       (scoreOrZero originalVector)
                       (match boosted with
                        | Some b => score_sub (score b) (scoreOrZero originalVector)
                        | None => score_zero
                        end)
                       None)
                  finalResults)
        end
    end.

End WithCollaborators.
End Search.
Import Search.

(* ------------------------------------------------------------------ *)
(** ** src/utils/paths.ts *)
(* ------------------------------------------------------------------ *)

Module Paths.

Definition normalizePath (inputPath : jsstring) : jsstring :=
  replaceClass (fun c => char_eqb c c_backslash) c_slash inputPath.

(** [startLine] is a line number: a non-negative integer. *)
Definition pathToChunkId (filePath : jsstring) (startLine : N) (suffix : jsstring)
  : jsstring :=
  let normalized :=
    replaceClass isDot c_underscore (replaceClass isSeparator c_underscore filePath) in
  normalized ++ js "_L" ++ numberToString startLine ++ suffix.

(** What [isWithinRoot] takes from the host: [process.platform ===
    'win32'], [path.sep], [path.resolve] and [String.prototype.toLowerCase]. *)
Record Host := mkHost {
  win32 : bool;
  sep : jsstring;
  resolve : list jsstring -> jsstring;
  toLowerCase : jsstring -> jsstring
}.

Definition isWithinRoot (h : Host) (testPath rootDir : jsstring) : bool :=
  let resolvedPath := resolve h [rootDir; testPath] in
  let resolvedRoot := resolve h [rootDir] in
  if win32 h then
    let normalizedPath := toLowerCase h resolvedPath in
    let normalizedRoot := toLowerCase h resolvedRoot in
    startsWith normalizedPath (normalizedRoot ++ toLowerCase h (sep h))
    || str_eqb normalizedPath normalizedRoot
  else
    startsWith resolvedPath (resolvedRoot ++ sep h)
    || str_eqb resolvedPath resolvedRoot.

(** *** The POSIX host

    [path.posix.resolve] belongs to Node, not to the repository; it is
    written out after Node's algorithm so that the examples of the
    specification can be evaluated. *)

(** The segments of [s] between slashes; [cur] is the segment being
    read, reversed. *)
Fixpoint segments (s : jsstring) (cur : jsstring) : list jsstring :=
  match s with
  | [] => [rev cur]
  | c :: t =>
      if char_eqb c c_slash then rev cur :: segments t []
      else segments t (c :: cur)
  end.

Definition isDotDot (seg : jsstring) : bool := str_eqb seg (js "..").

(** One segment of [normalizeString]; [stack] holds the kept segments,
    last first. *)
Definition pushSegment (allowAboveRoot : bool) (stack : list jsstring) (seg : jsstring)
  : list jsstring :=
  if str_eqb seg [] || str_eqb seg (js ".") then stack
  else if isDotDot seg then
    match stack with
    | top :: below =>
        if isDotDot top then seg :: stack else below
    | [] => if allowAboveRoot then [seg] else []
    end
  else seg :: stack.

Definition normalizeString (p : jsstring) (allowAboveRoot : bool) : jsstring :=
  join [c_slash] (rev (fold_left (pushSegment allowAboveRoot) (segments p []) [])).

(** The loop of [resolve], from the last argument to the first and then
    the working directory, until an absolute path is reached. *)
Fixpoint resolveLoop (cwd : jsstring) (reversedArgs : list jsstring)
         (resolvedPath : jsstring) : jsstring * bool :=
  let step (p : jsstring) (continue : jsstring -> jsstring * bool) :=
    match p with
    | [] => continue resolvedPath
    | c :: _ =>
        let resolvedPath' := p ++ [c_slash] ++ resolvedPath in
        if char_eqb c c_slash then (resolvedPath', true)
        else continue resolvedPath'
    end in
  match reversedArgs with
  | [] => step cwd (fun r => (r, false))
  | p :: rest => step p (resolveLoop cwd rest)
  end.

Definition posixResolve (cwd : jsstring) (args : list jsstring) : jsstring :=
  let '(resolvedPath, resolvedAbsolute) := resolveLoop cwd (rev args) [] in
  let normalized := normalizeString resolvedPath (negb resolvedAbsolute) in
  if resolvedAbsolute then c_slash :: normalized
  else if truthy normalized then normalized else js ".".

(** A POSIX process with working directory [cwd].  [toLowerCase] is not
    called on this platform. *)
Definition posixHost (cwd : jsstring) : Host :=
  mkHost false [c_slash] (posixResolve cwd) toLowerCaseAscii.

End Paths.
Import Paths.

(* ------------------------------------------------------------------ *)
(** ** src/utils/cache.ts *)
(* ------------------------------------------------------------------ *)

Module Cache.
Section WithValue.

Variable T : Type.

Record CacheEntry := mkEntry { value : T; timestamp : Z }.

(** A JavaScript [Map] with string keys: its entries in insertion
    order, oldest first, one entry per key. *)
Definition JsMap := list (jsstring * CacheEntry).

Fixpoint map_get (m : JsMap) (key : jsstring) : option CacheEntry :=
  match m with
  | [] => None
  | (k, e) :: rest => if str_eqb k key then Some e else map_get rest key
  end.

Definition map_has (m : JsMap) (key : jsstring) : bool :=
  match map_get m key with Some _ => true | None => false end.

Fixpoint map_delete (m : JsMap) (key : jsstring) : JsMap :=
  match m with
  | [] => []
  | (k, e) :: rest =>
      if str_eqb k key then map_delete rest key else (k, e) :: map_delete rest key
  end.

(** [Map.prototype.set]: a present key keeps its position, a new key
    goes to the end. *)
Fixpoint map_set (m : JsMap) (key : jsstring) (e : CacheEntry) : JsMap :=
  match m with
  | [] => [(key, e)]
  | (k, e0) :: rest =>
      if str_eqb k key then (k, e) :: rest else (k, e0) :: map_set rest key e
  end.

Definition map_size (m : JsMap) : Z := Z.of_nat (List.length m).

(** [m.keys().next().value]. *)
Definition map_first_key (m : JsMap) : option jsstring :=
  match m with
  | [] => None
  | (k, _) :: _ => Some k
  end.

Record LRUCache := mkCache {
  cache : JsMap;
  maxSize : Z;
  ttlMs : option Z
}.

Record LRUCacheOptions := mkCacheOptions {
  opt_maxSize : option Z;
  opt_ttlMs : option Z
}.

Definition new (options : LRUCacheOptions) : LRUCache :=
  mkCache []
    (match opt_maxSize options with Some n => n | None => 100%Z end)
    (opt_ttlMs options).

Definition withCache (c : LRUCache) (m : JsMap) : LRUCache :=
  mkCache m (maxSize c) (ttlMs c).

(** [age > this.ttlMs] when a TTL is configured; [now] is [Date.now()]. *)
Definition expired (c : LRUCache) (e : CacheEntry) (now : Z) : bool :=
  match ttlMs c with
  | Some ttl => (now - timestamp e >? ttl)%Z
  | None => false
  end.

Definition get (c : LRUCache) (key : jsstring) (now : Z) : option T * LRUCache :=
  match map_get (cache c) key with
  | None => (None, c)
  | Some entry =>
      if expired c entry now then (None, withCache c (map_delete (cache c) key))
      else (Some (value entry),
            withCache c (map_set (map_delete (cache c) key) key entry))
  end.

Definition set (c : LRUCache) (key : jsstring) (v : T) (now : Z) : LRUCache :=
  let m1 := if map_has (cache c) key then map_delete (cache c) key else cache c in
  let m2 :=
    if (map_size m1 >=? maxSize c)%Z then
      match map_first_key m1 with
      | Some oldestKey => map_delete m1 oldestKey
      | None => m1
      end
    else m1 in
  withCache c (map_set m2 key (mkEntry v now)).

Definition has (c : LRUCache) (key : jsstring) (now : Z) : bool * LRUCache :=
  match map_get (cache c) key with
  | None => (false, c)
  | Some entry =>
      if expired c entry now then (false, withCache c (map_delete (cache c) key))
      else (true, c)
  end.

Definition delete (c : LRUCache) (key : jsstring) : bool * LRUCache :=
  (map_has (cache c) key, withCache c (map_delete (cache c) key)).

Definition clear (c : LRUCache) : LRUCache := withCache c [].

Definition size (c : LRUCache) : Z := map_size (cache c).

(** The calls a client can make, with the clock reading at the call. *)
Inductive Op :=
| OpGet (key : jsstring) (now : Z)
| OpSet (key : jsstring) (v : T) (now : Z)
| OpHas (key : jsstring) (now : Z)
| OpDelete (key : jsstring)
| OpClear.

Definition step (c : LRUCache) (op : Op) : LRUCache :=
  match op with
  | OpGet key now => snd (get c key now)
  | OpSet key v now => set c key v now
  | OpHas key now => snd (has c key now)
  | OpDelete key => snd (delete c key)
  | OpClear => clear c
  end.

Definition run (c : LRUCache) (ops : list Op) : LRUCache := fold_left step ops c.

(** [set] called once per pair, in order. *)
Definition setAll (c : LRUCache) (kvs : list (jsstring * T * Z)) : LRUCache :=
  fold_left (fun c kv => set c (fst (fst kv)) (snd (fst kv)) (snd kv)) kvs c.

End WithValue.
End Cache.

(* ------------------------------------------------------------------ *)
(** ** SQL reading of the predicates (the store's side) *)
(* ------------------------------------------------------------------ *)

Module Sql.

(** The three shapes of condition the filter builder writes. *)
Inductive Condition :=
| PathLike (s : jsstring)       (* id LIKE '<s>%' *)
| FileLike (s : jsstring)       (* id LIKE '%<s>' *)
| LanguageEq (l : jsstring).    (* language = '<l>' *)

Definition render (c : Condition) : jsstring :=
  match c with
  | PathLike s => js "id LIKE '" ++ s ++ js "%'"
  | FileLike s => js "id LIKE '%" ++ s ++ js "'"
  | LanguageEq l => js "language = '" ++ l ++ js "'"
  end.

Definition renderAll (cs : list Condition) : jsstring :=
  join (js " AND ") (List.map render cs).

(** [s LIKE pattern] in SQL: the whole of [s] is matched, [%] stands for
    any sequence of characters and [_] for any single character. *)
Fixpoint like (pattern s : jsstring) : bool :=
  match pattern with
  | [] => match s with [] => true | _ :: _ => false end
  | p :: pattern' =>
      if char_eqb p c_percent then
        (fix anySequence (s : jsstring) : bool :=
           like pattern' s ||
           match s with
           | _ :: s' => anySequence s'
           | [] => false
           end) s
      else if char_eqb p c_underscore then
        match s with
        | _ :: s' => like pattern' s'
        | [] => false
        end
      else
        match s with
        | x :: s' => char_eqb x p && like pattern' s'
        | [] => false
        end
  end.

Definition satisfies (r : VectorRecord) (c : Condition) : bool :=
  match c with
  | PathLike s => like (s ++ [c_percent]) (id r)
  | FileLike s => like (c_percent :: s) (id r)
  | LanguageEq l => str_eqb (language r) l
  end.

Definition satisfiesAll (r : VectorRecord) (cs : list Condition) : bool :=
  forallb (satisfies r) cs.

End Sql.

(* ------------------------------------------------------------------ *)
(** ** Vocabulary of the filter properties *)
(* ------------------------------------------------------------------ *)

Module FilterSpec.

(** A string the whitelist refuses although it is not empty: it holds a
    character outside [[A-Za-z0-9_\-%]] or is longer than 500. *)
Definition offWhitelist (s : jsstring) : Prop :=
  (exists c, In c s /\ isSafeChar c = false)
  \/ (strlen s > MAX_FILTER_VALUE_LENGTH)%Z.

(** A string the whitelist accepts. *)
Definition onWhitelist (s : jsstring) : Prop :=
  s <> [] /\ Forall (fun c => isSafeChar c = true) s
  /\ (strlen s <= MAX_FILTER_VALUE_LENGTH)%Z.

(** The characters a glob or a path may hold beyond the whitelist: both
    translations rewrite them. *)
Definition isGlobMeta (c : char) : bool :=
  isSeparator c || isDot c || char_eqb c c_star || char_eqb c c_question.

Definition wellFormed (c : Sql.Condition) : Prop :=
  match c with
  | Sql.PathLike s => onWhitelist s
  | Sql.FileLike s => onWhitelist s
  | Sql.LanguageEq l => l <> [] /\ Forall (fun ch => isLower ch = true) l
  end.

(** What the builder itself writes for a condition: the condition
    with its value left out. *)
Definition skeleton (c : Sql.Condition) : Sql.Condition :=
  match c with
  | Sql.PathLike _ => Sql.PathLike []
  | Sql.FileLike _ => Sql.FileLike []
  | Sql.LanguageEq _ => Sql.LanguageEq []
  end.

Definition occurrences (ch : char) (s : jsstring) : nat := count_occ N.eq_dec s ch.

End FilterSpec.
Import FilterSpec.

(* ------------------------------------------------------------------ *)
(** ** Vocabulary of the cache properties *)
(* ------------------------------------------------------------------ *)

Module CacheSpec.
Section WithValue.

Variable T : Type.

(** A [set] call: key, value and the clock reading. *)
Definition Insertion : Type := jsstring * T * Z.
Definition keyOf (i : Insertion) : jsstring := fst (fst i).
Definition valueOf (i : Insertion) : T := snd (fst i).
Definition timeOf (i : Insertion) : Z := snd i.

(** The entry a [set] call leaves in the map. *)
Definition entryOf (i : Insertion) : jsstring * Cache.CacheEntry T :=
  (keyOf i, Cache.mkEntry (valueOf i) (timeOf i)).

Definition keys (m : Cache.JsMap T) : list jsstring := List.map fst m.

(** An entry stamped at [stamped] has not outlived the TTL at [now]. *)
Definition fresh (ttl : option Z) (stamped now : Z) : bool :=
  match ttl with
  | Some t => (now - stamped <=? t)%Z
  | None => true
  end.

(** The map after the first two statements of [set]: the key is gone and
    there is room for it. *)
Definition room (c : Cache.LRUCache T) (key : jsstring) : Cache.JsMap T :=
  let m1 := if Cache.map_has (Cache.cache c) key
            then Cache.map_delete (Cache.cache c) key else Cache.cache c in
  if (Cache.map_size m1 >=? Cache.maxSize c)%Z then
    match Cache.map_first_key m1 with
    | Some oldestKey => Cache.map_delete m1 oldestKey
    | None => m1
    end
  else m1.

(** At most one entry, and no room configured. *)
Definition cramped (c : Cache.LRUCache T) : Prop :=
  (List.length (Cache.cache c) <= 1)%nat /\ (Cache.maxSize c <= 0)%Z.

(** What every reachable cache satisfies. *)
Definition wellKept (c : Cache.LRUCache T) : Prop :=
  NoDup (keys (Cache.cache c)) /\ (Cache.size c <= Cache.maxSize c)%Z.

End WithValue.
End CacheSpec.
Import CacheSpec.

(* ------------------------------------------------------------------ *)
(** ** Collaborators used in the examples *)
(* ------------------------------------------------------------------ *)

Module Fixtures.

(** A record of the chunk that starts at line 1 of [file]. *)
Definition chunkOf (file lang : jsstring) : VectorRecord :=
  mkRecord (pathToChunkId file 1 []) file lang
           (js "function_declaration") (js "function f() {}") 1 3.

(** Scores are integers here. *)
Definition hit (file lang : jsstring) : SearchResult Z :=
  mkSearchResult (chunkOf file lang) 1%Z.

(** A store over a fixed list of hits; both searches hand back the first
    [k] of them. *)
Definition storeOf (hits : list (SearchResult Z)) : VectorStore Z unit :=
  mkStore (Ok (match hits with [] => true | _ :: _ => false end))
          (fun _ k => Ok (slice0 hits k))
          (fun _ k _ => Ok (slice0 hits k)).

Definition workingEmbedder (query : jsstring) : Result unit := Ok tt.

Definition failingEmbedder (query : jsstring) : Result unit :=
  Throw (mkThrown ModelLoadError (js "model unavailable")).

(** No lexical boost: the candidates as they are. *)
Definition noBoost (query : jsstring) (candidates : list (SearchResult Z))
  : list (SearchResult Z) := candidates.

Definition failingCrossEncoder (query : jsstring) (candidates : list (SearchResult Z))
  : Result (list Z) :=
  Throw (mkThrown OtherError (js "reranker unavailable")).

Definition searchWith (embedQuery : jsstring -> Result unit) :=
  hybridSearch 0%Z Z.sub Z.leb embedQuery noBoost failingCrossEncoder.

Definition defaults : SearchOptions := mkSearchOptions None None None None None None.

Definition threeHits : list (SearchResult Z) :=
  [hit (js "src/auth/login.ts") (js "typescript");
   hit (js "src/api/user.py") (js "python");
   hit (js "src/a.test.ts") (js "typescript")].

End Fixtures.

(* ------------------------------------------------------------------ *)
(** ** src/utils/paths.ts, continued *)
(* ------------------------------------------------------------------ *)

Module PathUtils.

(** [s.endsWith('/')]. *)
Definition endsWithSlash (s : jsstring) : bool :=
  match rev s with
  | c :: _ => char_eqb c c_slash
  | [] => false
  end.

Definition ensureTrailingSeparator (inputPath : jsstring) : jsstring :=
  let normalized := normalizePath inputPath in
  if endsWithSlash normalized then normalized else normalized ++ [c_slash].

End PathUtils.
Import PathUtils.

(* ------------------------------------------------------------------ *)
(** ** src/search/index.ts, continued *)
(* ------------------------------------------------------------------ *)

Module VectorOnly.
Section WithEmbedder.

Variable Score : Type.
Variable Vector : Type.
Variable embedQuery : jsstring -> Result Vector.

(** The objects [vectorOnlySearch] returns: plain search results from the
    store, or keyword results, which carry [fromFallback: true]. *)
Record Returned := mkReturned {
  v_result : SearchResult Score;
  v_fromFallback : option bool
}.

Definition vectorOnlySearch (query : jsstring) (store : VectorStore Score Vector)
           (options : SearchOptions) : Result (list Returned) :=
  let limit := orDefault (limit options) DEFAULT_LIMIT in
  let fallbackToKeywordSearch := orDefault (fallbackToKeywordSearch options) true in
  match embedQuery query with
  | Throw error =>
      if fallbackToKeywordSearch && isEmbeddingError error then
        keywordResults <- keywordOnlySearch query store options ;;
        Ok (List.map (fun r => mkReturned (kw_result r) (Some (kw_fromFallback r)))
                     keywordResults)
      else
        Throw (mkThrown EmbeddingGenerationError
                 (js "Failed to generate query embedding: " ++ message error))
  | Ok queryVector =>
      filter <- buildSafeFilter (filterOptions options) ;;
      results <- vectorSearch store queryVector limit filter ;;
      Ok (List.map (fun r => mkReturned r None) results)
  end.

End WithEmbedder.
End VectorOnly.
Import VectorOnly.

(* ------------------------------------------------------------------ *)
(** ** src/utils/metrics.ts *)
(* ------------------------------------------------------------------ *)

(** The collector [hybridSearch] reports to.  Counts and latencies are
    integers. *)
Module Metrics.

Record IndexingMetrics := mkIndexing {
  filesIndexed : Z;
  chunksCreated : Z;
  embeddingsGenerated : Z;
  indexDurationMs : Z;
  indexingErrorsCount : Z
}.

Record SearchMetrics := mkSearch {
  queriesTotal : Z;
  queryLatencyMs : list Z;
  resultsReturned : list Z;
  fallbacksTriggered : Z;
  errorsCount : Z
}.

Record MetricsCollector := mkCollector {
  indexing : IndexingMetrics;
  search : SearchMetrics
}.

Definition maxSamples : Z := 1000.

Definition initial : MetricsCollector :=
  mkCollector (mkIndexing 0 0 0 0 0) (mkSearch 0 [] [] 0 0).

Definition recordIndexing (m : MetricsCollector) (files chunks durationMs : Z)
           (embeddings : option Z) : MetricsCollector :=
  let ix := indexing m in
  mkCollector
    (mkIndexing (filesIndexed ix + files) (chunksCreated ix + chunks)
       (embeddingsGenerated ix + match embeddings with Some e => e | None => chunks end)
       (indexDurationMs ix + durationMs) (indexingErrorsCount ix))
    (search m).

Definition recordIndexingError (m : MetricsCollector) (count : option Z)
  : MetricsCollector :=
  let ix := indexing m in
  mkCollector
    (mkIndexing (filesIndexed ix) (chunksCreated ix) (embeddingsGenerated ix)
       (indexDurationMs ix)
       (indexingErrorsCount ix + match count with Some c => c | None => 1 end))
    (search m).

(** [buf.push(x)], then [buf.shift()] when the buffer has grown past
    [maxSamples]. *)
Definition pushSample (buf : list Z) (x : Z) : list Z :=
  let pushed := buf ++ [x] in
  if (Z.of_nat (List.length pushed) >? maxSamples)%Z then tl pushed else pushed.

Definition recordSearch (m : MetricsCollector) (latencyMs resultsCount : Z)
           (usedFallback : bool) : MetricsCollector :=
  let s := search m in
  mkCollector (indexing m)
    (mkSearch (queriesTotal s + 1)
       (pushSample (queryLatencyMs s) latencyMs)
       (pushSample (resultsReturned s) resultsCount)
       (if usedFallback then fallbacksTriggered s + 1 else fallbacksTriggered s)
       (errorsCount s)).

Definition recordSearchError (m : MetricsCollector) (count : option Z)
  : MetricsCollector :=
  let s := search m in
  mkCollector (indexing m)
    (mkSearch (queriesTotal s) (queryLatencyMs s) (resultsReturned s)
       (fallbacksTriggered s)
       (errorsCount s + match count with Some c => c | None => 1 end)).

Definition reset (m : MetricsCollector) : MetricsCollector := initial.

(** One [recordSearch] call: latency, result count, fallback flag. *)
Definition Sample : Type := Z * Z * bool.

Definition recordAll (m : MetricsCollector) (samples : list Sample) : MetricsCollector :=
  fold_left (fun m s => recordSearch m (fst (fst s)) (snd (fst s)) (snd s)) samples m.

(** The last [k] elements of a list. *)
Definition lastN {A} (k : nat) (l : list A) : list A :=
  skipn (List.length l - k) l.

End Metrics.

(* ================================================================== *)
(** * Properties *)
(* ================================================================== *)

Unset Implicit Arguments.

(** ** Strings *)

Lemma str_eqb_eq (a b : jsstring) : str_eqb a b = true <-> a = b.
Proof.
  revert b; induction a as [|x a IH]; intros [|y b]; simpl; split; intro H;
    try reflexivity; try discriminate.
  - apply andb_true_iff in H as [Hc Hs].
    apply N.eqb_eq in Hc. apply IH in Hs. congruence.
  - injection H as -> ->. apply andb_true_iff; split.
    + apply N.eqb_refl.
    + apply IH; reflexivity.
Qed.

Lemma str_eqb_refl (a : jsstring) : str_eqb a a = true.
Proof. apply str_eqb_eq; reflexivity. Qed.

Lemma str_eqb_neq (a b : jsstring) : str_eqb a b = false <-> a <> b.
Proof.
  split.
  - intros H E. apply str_eqb_eq in E. congruence.
  - intro H. destruct (str_eqb a b) eqn:E; [|reflexivity].
    apply str_eqb_eq in E. contradiction.
Qed.

Lemma startsWith_prefix (s p : jsstring) :
  startsWith s p = true <-> exists rest, s = p ++ rest.
Proof.
  revert s; induction p as [|y p IH]; intros s; simpl.
  - split; [intros _; exists s; reflexivity | intros _; destruct s; reflexivity].
  - destruct s as [|x s]; split.
    + discriminate.
    + intros [rest H]; discriminate.
    + intro H. apply andb_true_iff in H as [Hc Hs].
      apply N.eqb_eq in Hc. apply IH in Hs as [rest ->].
      exists rest. congruence.
    + intros [rest H]. injection H as -> ->.
      apply andb_true_iff; split; [apply N.eqb_refl|].
      apply IH. exists rest; reflexivity.
Qed.

Lemma replaceClass_length cls r s :
  List.length (replaceClass cls r s) = List.length s.
Proof. apply length_map. Qed.

Lemma replaceClass_in cls r s c :
  In c (replaceClass cls r s) -> c = r \/ In c s.
Proof.
  unfold replaceClass. intro H. apply in_map_iff in H as [x [Hx Hin]].
  destruct (cls x); subst; auto.
Qed.

Lemma replaceClass_keeps cls r s c :
  In c s -> cls c = false -> In c (replaceClass cls r s).
Proof.
  intros Hin Hc. unfold replaceClass. apply in_map_iff.
  exists c. rewrite Hc. auto.
Qed.

Lemma slice0_length {A} (l : list A) (e : Z) :
  (0 <= e)%Z -> (Z.of_nat (List.length (slice0 l e)) <= e)%Z.
Proof.
  intro He. unfold slice0.
  destruct (e <? 0)%Z eqn:E; [apply Z.ltb_lt in E; lia|].
  rewrite length_firstn. lia.
Qed.

Lemma slice0_incl {A} (l : list A) (e : Z) x : In x (slice0 l e) -> In x l.
Proof. unfold slice0. intro H. eapply (In_nth_error _) in H as [n H].
  apply nth_error_In with n. rewrite nth_error_firstn in H.
  destruct (Nat.ltb _ _); [exact H | discriminate].
Qed.

(** ** The filter builder *)

Section FilterBuilderFacts.

Lemma validate_offWhitelist s : offWhitelist s -> validateFilterPattern s = false.
Proof.
  intros H. unfold validateFilterPattern.
  destruct (strlen s >? MAX_FILTER_VALUE_LENGTH)%Z eqn:E; [reflexivity|].
  destruct H as [[c [Hin Hc]] | Hlen].
  - unfold SAFE_PATTERN. apply andb_false_iff. right.
    destruct (forallb isSafeChar s) eqn:F; [|reflexivity].
    rewrite forallb_forall in F. rewrite (F c Hin) in Hc. discriminate.
  - apply Z.gtb_gt in Hlen. congruence.
Qed.

Lemma validate_onWhitelist s : validateFilterPattern s = true -> onWhitelist s.
Proof.
  unfold validateFilterPattern, onWhitelist.
  destruct (strlen s >? MAX_FILTER_VALUE_LENGTH)%Z eqn:E; [discriminate|].
  unfold SAFE_PATTERN. intro H. apply andb_true_iff in H as [Ht Hf].
  repeat split.
  - destruct s; [discriminate | discriminate].
  - apply Forall_forall. apply forallb_forall. exact Hf.
  - destruct (Z.gtb_spec (strlen s) MAX_FILTER_VALUE_LENGTH); [discriminate | lia].
Qed.

Lemma offWhitelist_nonempty s : offWhitelist s -> truthy s = true.
Proof.
  intros [[c [Hin _]] | Hlen]; destruct s; try reflexivity.
  - destruct Hin.
  - unfold strlen, MAX_FILTER_VALUE_LENGTH in Hlen. simpl in Hlen. lia.
Qed.

Lemma pathTranslate_length p : List.length (pathTranslate p) = List.length p.
Proof. unfold pathTranslate. now rewrite !replaceClass_length. Qed.

Lemma pathTranslate_raw p : offWhitelist (pathTranslate p) -> offWhitelist p.
Proof.
  intros [[c [Hin Hc]] | Hlen].
  - left. exists c. split; [|exact Hc].
    unfold pathTranslate in Hin.
    apply replaceClass_in in Hin as [-> | Hin]; [discriminate Hc|].
    apply replaceClass_in in Hin as [-> | Hin]; [discriminate Hc|].
    exact Hin.
  - right. unfold strlen in *. now rewrite pathTranslate_length in Hlen.
Qed.

Lemma pathTranslate_truthy p : truthy (pathTranslate p) = truthy p.
Proof. destruct p; reflexivity. Qed.

Lemma sanitizePathPattern_raises p :
  offWhitelist (pathTranslate p) -> raises (sanitizePathPattern p) InvalidFilterError.
Proof.
  intro H. unfold sanitizePathPattern.
  rewrite (validate_offWhitelist _ H). simpl. eexists; reflexivity.
Qed.

Lemma sanitizeGlobPattern_raises p :
  offWhitelist (globTranslate p) -> raises (sanitizeGlobPattern p) InvalidFilterError.
Proof.
  intro H. unfold sanitizeGlobPattern.
  rewrite (validate_offWhitelist _ H). simpl. eexists; reflexivity.
Qed.

Lemma raises_bind {A B} (m : Result A) (k : A -> Result B) n :
  raises m n -> raises (bind m k) n.
Proof. intros [msg ->]. exists msg. reflexivity. Qed.

Lemma buildSafeFilter_path_raises p fp :
  offWhitelist (pathTranslate p) ->
  raises (buildSafeFilter (mkFilterOptions (Some p) fp)) InvalidFilterError.
Proof.
  intro H. unfold buildSafeFilter. apply raises_bind.
  unfold pathStep, present. simpl.
  rewrite <- pathTranslate_truthy, (offWhitelist_nonempty _ H).
  apply raises_bind. unfold buildPathLikeCondition. apply raises_bind.
  now apply sanitizePathPattern_raises.
Qed.

(** Whatever [pathStep] throws is an invalid-filter error. *)
Lemma pathStep_throws o cs e : pathStep o cs = Throw e -> name e = InvalidFilterError.
Proof.
  unfold pathStep. destruct (present (FilterBuilder.path o)) as [p|]; [|discriminate].
  unfold buildPathLikeCondition, sanitizePathPattern.
  destruct (negb (validateFilterPattern (pathTranslate p))); simpl.
  - intros [= <-]. reflexivity.
  - discriminate.
Qed.

Lemma globTranslate_truthy p : truthy (globTranslate p) = true -> truthy p = true.
Proof. destruct p; [discriminate | reflexivity]. Qed.

Lemma buildSafeFilter_filePattern_raises p path :
  offWhitelist (globTranslate p) -> matchExtension p = None ->
  raises (buildSafeFilter (mkFilterOptions path (Some p))) InvalidFilterError.
Proof.
  intros H Hext. unfold buildSafeFilter.
  destruct (pathStep (mkFilterOptions path (Some p)) []) as [c1|e] eqn:E1.
  - simpl. apply raises_bind.
    unfold filePatternStep, present. simpl.
    rewrite (globTranslate_truthy _ (offWhitelist_nonempty _ H)), Hext.
    apply raises_bind. unfold buildFilePatternCondition. apply raises_bind.
    now apply sanitizeGlobPattern_raises.
  - apply pathStep_throws in E1. destruct e as [n msg]. simpl in E1. subst n.
    exists msg. reflexivity.
Qed.

Lemma replaceStarStar_keeps c :
  char_eqb c c_star = false ->
  forall n s, (List.length s <= n)%nat -> In c s -> In c (replaceStarStar s).
Proof.
  intros Hc. induction n as [|n IH]; intros s Hlen Hin.
  - destruct s; [destruct Hin | simpl in Hlen; lia].
  - destruct s as [|x t]; [destruct Hin|]. simpl in Hlen.
    simpl. destruct (char_eqb x c_star) eqn:Ex.
    + destruct Hin as [-> | Hin]; [congruence|].
      destruct t as [|y t2]; [destruct Hin|].
      destruct (char_eqb y c_star) eqn:Ey.
      * destruct Hin as [-> | Hin]; [congruence|].
        right. apply IH; [simpl in Hlen; lia | exact Hin].
      * right. apply IH; [lia | exact Hin].
    + destruct Hin as [-> | Hin]; [left; reflexivity|].
      right. apply IH; [lia | exact Hin].
Qed.

Lemma isGlobMeta_false c :
  isGlobMeta c = false ->
  isSeparator c = false /\ isDot c = false
  /\ char_eqb c c_star = false /\ char_eqb c c_question = false.
Proof.
  unfold isGlobMeta. intro H.
  apply orb_false_iff in H as [H Hq].
  apply orb_false_iff in H as [H Hstar].
  apply orb_false_iff in H as [Hsep Hdot].
  repeat split; assumption.
Qed.

Lemma foreign_char_path p c :
  In c p -> isSafeChar c = false -> isGlobMeta c = false ->
  offWhitelist (pathTranslate p).
Proof.
  intros Hin Hs Hm. apply isGlobMeta_false in Hm as (Hsep & Hdot & _ & _).
  left. exists c. split; [|exact Hs].
  unfold pathTranslate. now repeat apply replaceClass_keeps.
Qed.

Lemma foreign_char_glob p c :
  In c p -> isSafeChar c = false -> isGlobMeta c = false ->
  offWhitelist (globTranslate p).
Proof.
  intros Hin Hs Hm. apply isGlobMeta_false in Hm as (Hsep & Hdot & Hstar & Hq).
  left. exists c. split; [|exact Hs].
  unfold globTranslate. repeat apply replaceClass_keeps; auto.
  now apply replaceStarStar_keeps with (n := List.length p).
Qed.

Lemma letter_is_safe c : isLetterIgnoreCase c = true -> isSafeChar c = true.
Proof.
  unfold isLetterIgnoreCase, isSafeChar. intro H.
  apply orb_true_iff in H as [-> | ->]; [reflexivity|].
  now rewrite orb_true_r.
Qed.

Lemma matchExtension_shape p ext :
  matchExtension p = Some ext ->
  exists letters,
    p = c_star :: c_dot :: letters /\ ext = c_dot :: letters /\ letters <> []
    /\ forallb isLetterIgnoreCase letters = true.
Proof.
  unfold matchExtension.
  destruct p as [|s [|d [|l letters]]]; try discriminate.
  destruct (char_eqb s c_star) eqn:Es; [|discriminate].
  destruct (char_eqb d c_dot) eqn:Ed; [|discriminate].
  destruct (forallb isLetterIgnoreCase (l :: letters)) eqn:El; [|discriminate].
  apply N.eqb_eq in Es, Ed. intros [= <-]. subst.
  exists (l :: letters).
  split; [reflexivity|]. split; [reflexivity|]. split; [discriminate | exact El].
Qed.

Lemma foreign_char_no_extension p c :
  In c p -> isSafeChar c = false -> isGlobMeta c = false -> matchExtension p = None.
Proof.
  intros Hin Hs Hm. destruct (matchExtension p) as [ext|] eqn:E; [|reflexivity].
  apply matchExtension_shape in E as (letters & -> & _ & _ & Hl).
  apply isGlobMeta_false in Hm as (_ & Hdot & Hstar & _).
  destruct Hin as [<- | [<- | Hin]].
  - discriminate Hstar.
  - discriminate Hdot.
  - rewrite forallb_forall in Hl. apply Hl in Hin.
    apply letter_is_safe in Hin. congruence.
Qed.

End FilterBuilderFacts.

(** C1 (amended).  A path whose form after separator and dot replacement
    leaves the whitelist (a character outside [[A-Za-z0-9_\-%]], or more
    than 500 characters) makes [buildSafeFilter] raise invalid-filter, and
    [validateFilterPattern] refuses the raw string.  A file pattern that is
    not of the shape [*.ext] and whose glob translation leaves the
    whitelist makes [buildSafeFilter] raise invalid-filter.  In particular
    a string holding a character that is neither on the whitelist nor one
    of [/ \ . * ?] (a quote, a space, a semicolon) is refused on all three
    routes. *)
Theorem C1_filter_safety (p : jsstring) :
  (offWhitelist (pathTranslate p) ->
     (forall fp,
         raises (buildSafeFilter (mkFilterOptions (Some p) fp)) InvalidFilterError)
     /\ validateFilterPattern p = false)
  /\ (offWhitelist (globTranslate p) -> matchExtension p = None ->
      forall path,
        raises (buildSafeFilter (mkFilterOptions path (Some p))) InvalidFilterError)
  /\ (forall c, In c p -> isSafeChar c = false -> isGlobMeta c = false ->
        raises (buildSafeFilter (mkFilterOptions (Some p) None)) InvalidFilterError
        /\ raises (buildSafeFilter (mkFilterOptions None (Some p))) InvalidFilterError
        /\ validateFilterPattern p = false).
Proof.
  split; [|split].
  - intro H. split.
    + intro fp. now apply buildSafeFilter_path_raises.
    + apply validate_offWhitelist. now apply pathTranslate_raw.
  - intros H Hext path. now apply buildSafeFilter_filePattern_raises.
  - intros c Hin Hs Hm.
    pose proof (@foreign_char_path p c Hin Hs Hm) as Hp.
    split; [|split].
    + now apply buildSafeFilter_path_raises.
    + apply buildSafeFilter_filePattern_raises.
      * exact (@foreign_char_glob p c Hin Hs Hm).
      * exact (@foreign_char_no_extension p c Hin Hs Hm).
    + apply validate_offWhitelist. now apply pathTranslate_raw.
Qed.

(** The payload [' OR '1'='1]: its quote is a foreign character, both of
    its translations leave the whitelist, and all three routes refuse it. *)
Lemma C1_filter_safety_witness :
  let p := js "' OR '1'='1" in
  offWhitelist (pathTranslate p)
  /\ offWhitelist (globTranslate p)
  /\ matchExtension p = None
  /\ (In c_quote p /\ isSafeChar c_quote = false /\ isGlobMeta c_quote = false)
  /\ raises (buildSafeFilter (mkFilterOptions (Some p) None)) InvalidFilterError
  /\ raises (buildSafeFilter (mkFilterOptions None (Some p))) InvalidFilterError
  /\ validateFilterPattern p = false.
Proof.
  intro p.
  assert (Hq : In c_quote p) by (left; reflexivity).
  assert (Hpath : offWhitelist (pathTranslate p))
    by (left; exists c_quote; split; [left; reflexivity | reflexivity]).
  assert (Hglob : offWhitelist (globTranslate p))
    by (left; exists c_quote; split; [left; reflexivity | reflexivity]).
  destruct (C1_filter_safety p) as (Hp & Hg & Hc).
  destruct (Hp Hpath) as [Hraise Hval].
  pose proof (Hg Hglob eq_refl None) as Hraise'.
  destruct (Hc c_quote Hq eq_refl eq_refl) as (_ & _ & _).
  repeat split; try assumption; try reflexivity.
  apply Hraise.
Defined.

(** C1 as stated fails on globs: after separator and dot replacement
    [*.ts] still holds a star, which is outside the whitelist, yet as a
    file pattern it is accepted and becomes a language condition. *)
Lemma C1_counterexample :
  offWhitelist (pathTranslate (js "*.ts"))
  /\ buildSafeFilter (mkFilterOptions None (Some (js "*.ts")))
     = Ok (Some (js "language = 'typescript'"))
  /\ ~ raises (buildSafeFilter (mkFilterOptions None (Some (js "*.ts"))))
         InvalidFilterError.
Proof.
  split; [|split].
  - left. exists c_star. split; [left; reflexivity | reflexivity].
  - vm_compute. reflexivity.
  - intros [msg H]. vm_compute in H. discriminate H.
Qed.

(** ** Shape of the predicates *)

Section PredicateShape.

Import Sql.

Lemma pathStep_ok o cs cs' :
  pathStep o cs = Ok cs' ->
  cs' = cs \/ exists s, onWhitelist s /\ cs' = cs ++ [render (PathLike s)].
Proof.
  unfold pathStep. destruct (present (FilterBuilder.path o)) as [p|].
  - unfold buildPathLikeCondition, sanitizePathPattern.
    destruct (validateFilterPattern (pathTranslate p)) eqn:V; simpl; [|discriminate].
    intros [= <-]. right. exists (pathTranslate p).
    split; [now apply validate_onWhitelist | reflexivity].
  - intros [= <-]. now left.
Qed.

Lemma buildLanguageCondition_ok lang c :
  buildLanguageCondition lang = Ok c ->
  wellFormed (LanguageEq lang) /\ c = render (LanguageEq lang).
Proof.
  unfold buildLanguageCondition.
  destruct (isLanguageName lang) eqn:L; simpl; [|discriminate].
  intros [= <-]. split; [|reflexivity].
  unfold isLanguageName in L. apply andb_true_iff in L as [Ht Hf].
  split.
  - destruct lang; discriminate.
  - apply Forall_forall. now apply forallb_forall.
Qed.

Lemma filePatternStep_ok o cs cs' :
  filePatternStep o cs = Ok cs' ->
  cs' = cs \/ exists c, wellFormed c /\ cs' = cs ++ [render c].
Proof.
  unfold filePatternStep.
  destruct (present (FilterBuilder.filePattern o)) as [fp|];
    [|intros [= <-]; now left].
  destruct (matchExtension fp) as [ext|].
  - destruct (present (lookup EXTENSION_TO_LANGUAGE (toLowerCaseAscii ext)))
      as [lang|]; [|intros [= <-]; now left].
    destruct (buildLanguageCondition lang) as [c|e] eqn:B; simpl; [|discriminate].
    intros [= <-]. apply buildLanguageCondition_ok in B as [Hw ->].
    right. now exists (LanguageEq lang).
  - unfold buildFilePatternCondition, sanitizeGlobPattern.
    destruct (validateFilterPattern (globTranslate fp)) eqn:V; simpl; [|discriminate].
    intros [= <-]. right. exists (FileLike (globTranslate fp)).
    split; [now apply validate_onWhitelist | reflexivity].
Qed.

(** The conditions [buildSafeFilter] collects, before they are joined. *)
Lemma buildSafeFilter_conditions o predicate :
  buildSafeFilter o = Ok (Some predicate) ->
  exists conds,
    conds <> [] /\ (List.length conds <= 2)%nat
    /\ predicate = renderAll conds /\ Forall wellFormed conds.
Proof.
  unfold buildSafeFilter.
  destruct (pathStep o []) as [c1|e1] eqn:E1; simpl; [|discriminate].
  destruct (filePatternStep o c1) as [c2|e2] eqn:E2; simpl; [|discriminate].
  intro H.
  apply pathStep_ok in E1. apply filePatternStep_ok in E2.
  destruct E1 as [-> | (s & Hs & ->)]; destruct E2 as [-> | (c & Hc & ->)];
    simpl in H.
  - discriminate.
  - injection H as <-. exists [c]. repeat split; auto. discriminate.
  - injection H as <-. exists [PathLike s]. repeat split; auto. discriminate.
  - injection H as <-. exists [PathLike s; c]. repeat split; auto. discriminate.
Qed.

Lemma occurrences_app ch a b :
  occurrences ch (a ++ b) = (occurrences ch a + occurrences ch b)%nat.
Proof. apply count_occ_app. Qed.

Lemma occurrences_safe ch s :
  isSafeChar ch = false -> Forall (fun c => isSafeChar c = true) s ->
  occurrences ch s = 0%nat.
Proof.
  intros Hch Hs. apply count_occ_not_In. intro Hin.
  rewrite Forall_forall in Hs. apply Hs in Hin. congruence.
Qed.

Lemma lower_is_safe c : isLower c = true -> isSafeChar c = true.
Proof. unfold isSafeChar. now intros ->. Qed.

Lemma render_skeleton ch c :
  isSafeChar ch = false -> wellFormed c ->
  occurrences ch (render c) = occurrences ch (render (skeleton c)).
Proof.
  intros Hch Hw. destruct c as [s|s|l]; cbn [wellFormed] in Hw;
    unfold render, skeleton; rewrite !occurrences_app;
    change (occurrences ch []) with 0%nat.
  - destruct Hw as (_ & Hs & _). rewrite (occurrences_safe ch s Hch Hs). reflexivity.
  - destruct Hw as (_ & Hs & _). rewrite (occurrences_safe ch s Hch Hs). reflexivity.
  - destruct Hw as (_ & Hl).
    rewrite (occurrences_safe ch l Hch); [reflexivity|].
    eapply Forall_impl; [|exact Hl]. intros a. apply lower_is_safe.
Qed.

Lemma renderAll_skeleton ch conds :
  isSafeChar ch = false -> Forall wellFormed conds ->
  occurrences ch (renderAll conds)
  = occurrences ch (renderAll (List.map skeleton conds)).
Proof.
  intros Hch. unfold renderAll.
  induction conds as [|c rest IH]; intro Hw; [reflexivity|].
  inversion Hw as [|? ? Hc Hrest]; subst.
  destruct rest as [|c' rest'].
  - simpl. now apply render_skeleton.
  - change (occurrences ch (render c ++ js " AND " ++ join (js " AND ") (List.map render (c' :: rest')))
            = occurrences ch (render (skeleton c) ++ js " AND "
                                ++ join (js " AND ") (List.map render (List.map skeleton (c' :: rest'))))).
    rewrite !occurrences_app, (render_skeleton ch c Hch Hc), (IH Hrest). reflexivity.
Qed.

End PredicateShape.

(** C2.  A predicate returned by [buildSafeFilter] is the ' AND '-join of
    one or two conditions, each written in one of the three forms
    [id LIKE '<s>%'], [id LIKE '%<s>'], [language = '<l>'] with [<s>] on
    the whitelist (not empty, at most 500 characters) and [<l>] in
    [[a-z]+]; every character outside the whitelist occurs in the
    predicate exactly as often as in the builder's own skeleton of these
    conditions, so none of them comes from the caller. *)
Theorem C2_predicate_shape (options : FilterOptions) (predicate : jsstring) :
  buildSafeFilter options = Ok (Some predicate) ->
  exists conds : list Sql.Condition,
    conds <> []
    /\ predicate = Sql.renderAll conds
    /\ Forall wellFormed conds
    /\ (forall ch, isSafeChar ch = false ->
          occurrences ch predicate
          = occurrences ch (Sql.renderAll (List.map skeleton conds))).
Proof.
  intro H. apply buildSafeFilter_conditions in H as (conds & Hne & _ & -> & Hw).
  exists conds. repeat split; auto.
  intros ch Hch. now apply renderAll_skeleton.
Qed.

Lemma C2_predicate_shape_witness :
  let options := mkFilterOptions (Some (js "src/auth")) (Some (js "**/*.test.ts")) in
  let predicate := js "id LIKE 'src_auth%' AND id LIKE '%%_%_test_ts'" in
  buildSafeFilter options = Ok (Some predicate)
  /\ exists conds : list Sql.Condition,
       conds <> []
       /\ predicate = Sql.renderAll conds
       /\ Forall wellFormed conds
       /\ (forall ch, isSafeChar ch = false ->
             occurrences ch predicate
             = occurrences ch (Sql.renderAll (List.map skeleton conds))).
Proof.
  intros options predicate.
  assert (H : buildSafeFilter options = Ok (Some predicate)) by (vm_compute; reflexivity).
  split; [exact H | exact (C2_predicate_shape options predicate H)].
Defined.

(** ** Extension patterns *)

Lemma lookup_in table key v :
  lookup table key = Some v -> In v (List.map snd table).
Proof.
  induction table as [|[k w] rest IH]; simpl; [discriminate|].
  destruct (str_eqb k key).
  - intros [= ->]. now left.
  - intro H. right. now apply IH.
Qed.

Lemma table_languages :
  Forall (fun l => isLanguageName l = true) (List.map snd EXTENSION_TO_LANGUAGE).
Proof. repeat constructor. Qed.

Lemma lookup_language ext lang :
  lookup EXTENSION_TO_LANGUAGE ext = Some lang -> isLanguageName lang = true.
Proof.
  intro H. apply lookup_in in H.
  pose proof table_languages as T. rewrite Forall_forall in T. now apply T.
Qed.

(** C5.  For a file pattern of the shape [*.ext]: when the lower-cased
    extension is in the table, [buildSafeFilter] returns the language
    equality ([language = 'typescript'] for [*.ts]); when it is not, the
    code returns no predicate at all ([*.md] gives none), although the
    generic translation of the same pattern exists
    ([id LIKE '%%_md']). *)
Theorem C5_extension_patterns :
  (forall fp,
      match matchExtension fp with
      | Some ext =>
          match lookup EXTENSION_TO_LANGUAGE (toLowerCaseAscii ext) with
          | Some lang =>
              buildSafeFilter (mkFilterOptions None (Some fp))
              = Ok (Some (Sql.render (Sql.LanguageEq lang)))
          | None => buildSafeFilter (mkFilterOptions None (Some fp)) = Ok None
          end
      | None => True
      end)
  /\ buildSafeFilter (mkFilterOptions None (Some (js "*.ts")))
     = Ok (Some (js "language = 'typescript'"))
  /\ buildSafeFilter (mkFilterOptions None (Some (js "*.md"))) = Ok None
  /\ buildFilePatternCondition (js "*.md") = Ok (js "id LIKE '%%_md'").
Proof.
  split; [|repeat split; vm_compute; reflexivity].
  intro fp. destruct (matchExtension fp) as [ext|] eqn:E; [|exact I].
  pose proof (matchExtension_shape _ _ E) as (letters & -> & _ & _ & _).
  unfold buildSafeFilter, pathStep, filePatternStep, present.
  cbn [FilterBuilder.path FilterBuilder.filePattern truthy bind].
  rewrite E.
  destruct (lookup EXTENSION_TO_LANGUAGE (toLowerCaseAscii ext)) as [lang|] eqn:L;
    [|reflexivity].
  pose proof (lookup_language _ _ L) as Hl.
  assert (Ht : truthy lang = true)
    by (unfold isLanguageName in Hl; now apply andb_true_iff in Hl as [-> _]).
  rewrite Ht. unfold buildLanguageCondition. rewrite Hl. reflexivity.
Qed.

(** ** Paths and chunk ids *)

Section PathFacts.

Lemma translate_char (c : char) :
  (if isDot (if isSeparator c then c_underscore else c) then c_underscore
   else if isSeparator c then c_underscore else c)
  = if isSeparator c || isDot c then c_underscore else c.
Proof.
  destruct (isSeparator c) eqn:S; simpl; [reflexivity|].
  destruct (isDot c); reflexivity.
Qed.

Lemma pathTranslate_pointwise p :
  pathTranslate p
  = List.map (fun c => if isSeparator c || isDot c then c_underscore else c) p.
Proof.
  unfold pathTranslate, replaceClass. rewrite map_map.
  apply map_ext. intro c. apply translate_char.
Qed.

Lemma separator_after_normalize (c : char) :
  isSeparator (if char_eqb c c_backslash then c_slash else c) = isSeparator c
  /\ isDot (if char_eqb c c_backslash then c_slash else c) = isDot c.
Proof.
  destruct (char_eqb c c_backslash) eqn:B; [|split; reflexivity].
  apply N.eqb_eq in B. subst c. split; reflexivity.
Qed.

Lemma pathTranslate_normalize p : pathTranslate (normalizePath p) = pathTranslate p.
Proof.
  rewrite !pathTranslate_pointwise. unfold normalizePath, replaceClass.
  rewrite map_map. apply map_ext. intro c.
  destruct (separator_after_normalize c) as [-> ->].
  destruct (char_eqb c c_backslash) eqn:B; [|reflexivity].
  apply N.eqb_eq in B. subst c. reflexivity.
Qed.

End PathFacts.

(** C7.  [pathToChunkId] reads nothing of the platform; a path and its
    forward-slash spelling get the same id, hence so do two spellings of
    one path that differ only in the separator used; the id is the path
    with every separator and every dot replaced by an underscore, then
    [_L], the start line and the suffix.  The ids of the specification's
    example follow. *)
Theorem C7_chunk_id_deterministic :
  (forall p line suffix,
      pathToChunkId (normalizePath p) line suffix = pathToChunkId p line suffix)
  /\ (forall p q line suffix,
        normalizePath p = normalizePath q ->
        pathToChunkId p line suffix = pathToChunkId q line suffix)
  /\ (forall p line suffix,
        pathToChunkId p line suffix
        = List.map (fun c => if isSeparator c || isDot c then c_underscore else c) p
          ++ js "_L" ++ numberToString line ++ suffix)
  /\ pathToChunkId (js "src/utils/index.ts") 42 [] = js "src_utils_index_ts_L42"
  /\ pathToChunkId (js "src\utils\index.ts") 42 [] = js "src_utils_index_ts_L42"
  /\ pathToChunkId (js "src/utils/index.ts") 42 (js "_p0")
     = js "src_utils_index_ts_L42_p0".
Proof.
  assert (Hn : forall p line suffix,
             pathToChunkId (normalizePath p) line suffix = pathToChunkId p line suffix).
  { intros p line suffix. unfold pathToChunkId.
    fold (pathTranslate (normalizePath p)). fold (pathTranslate p).
    now rewrite pathTranslate_normalize. }
  split; [exact Hn|]. split; [|split; [|repeat split; vm_compute; reflexivity]].
  - intros p q line suffix E.
    rewrite <- (Hn p), <- (Hn q), E. reflexivity.
  - intros p line suffix. unfold pathToChunkId.
    fold (pathTranslate p). now rewrite pathTranslate_pointwise.
Qed.

Lemma C7_chunk_id_deterministic_witness :
  normalizePath (js "src\utils\index.ts") = normalizePath (js "src/utils/index.ts")
  /\ pathToChunkId (js "src\utils\index.ts") 42 []
     = pathToChunkId (js "src/utils/index.ts") 42 [].
Proof.
  assert (E : normalizePath (js "src\utils\index.ts")
              = normalizePath (js "src/utils/index.ts")) by (vm_compute; reflexivity).
  split; [exact E|].
  destruct C7_chunk_id_deterministic as (_ & Hsame & _).
  exact (Hsame _ _ 42%N [] E).
Defined.

(** C3.  On every host, [isWithinRoot test root] is true exactly when the
    resolution of [test] against [root] equals the resolved root or begins
    with the resolved root followed by the separator, both sides
    lower-cased first on Windows and compared as they are elsewhere.  On a
    POSIX host, whatever the working directory, the three examples of the
    specification come out as stated. *)
Theorem C3_isWithinRoot :
  (forall (h : Host) (test root : jsstring),
      isWithinRoot h test root = true <->
      let resolvedPath := resolve h [root; test] in
      let resolvedRoot := resolve h [root] in
      if win32 h then
        toLowerCase h resolvedPath = toLowerCase h resolvedRoot
        \/ exists rest,
             toLowerCase h resolvedPath
             = (toLowerCase h resolvedRoot ++ toLowerCase h (sep h)) ++ rest
      else
        resolvedPath = resolvedRoot
        \/ exists rest, resolvedPath = (resolvedRoot ++ sep h) ++ rest)
  /\ (forall cwd,
        isWithinRoot (posixHost cwd) (js "../../../etc/passwd") (js "/home/user/project")
        = false)
  /\ (forall cwd,
        isWithinRoot (posixHost cwd) (js "/home/user/project/src") (js "/home/user/project")
        = true)
  /\ (forall cwd,
        isWithinRoot (posixHost cwd) (js "/home/user/project2") (js "/home/user/project")
        = false).
Proof.
  split; [|repeat split; intro cwd; vm_compute; reflexivity].
  intros h test root. unfold isWithinRoot. cbv zeta.
  destruct (win32 h); rewrite orb_true_iff, startsWith_prefix, str_eqb_eq; tauto.
Qed.

(** ** The LRU cache *)

Section CacheFacts.

Variable T : Type.

Local Abbreviation JsMap := (Cache.JsMap T).
Local Abbreviation LRUCache := (Cache.LRUCache T).

Lemma map_get_absent (m : JsMap) k : ~ In k (keys m) -> Cache.map_get m k = None.
Proof.
  induction m as [|[k0 e0] m IH]; simpl; intro H; [reflexivity|].
  destruct (str_eqb k0 k) eqn:E.
  - apply str_eqb_eq in E. subst. exfalso. apply H. now left.
  - apply IH. intro Hin. apply H. now right.
Qed.

Lemma map_get_present (m : JsMap) k e : Cache.map_get m k = Some e -> In k (keys m).
Proof.
  induction m as [|[k0 e0] m IH]; simpl; [discriminate|].
  destruct (str_eqb k0 k) eqn:E.
  - apply str_eqb_eq in E. subst. now left.
  - intro H. right. now apply IH.
Qed.

Lemma map_has_iff (m : JsMap) k : Cache.map_has m k = true <-> In k (keys m).
Proof.
  unfold Cache.map_has. split.
  - destruct (Cache.map_get m k) eqn:G; [|discriminate].
    intros _. eapply map_get_present; eauto.
  - intro H. destruct (Cache.map_get m k) eqn:G; [reflexivity|].
    exfalso. revert G. clear -H.
    induction m as [|[k0 e0] m IH]; simpl in *; [destruct H|].
    destruct (str_eqb k0 k) eqn:E; [discriminate|].
    destruct H as [-> | H]; [now rewrite str_eqb_refl in E | now apply IH].
Qed.

Lemma map_delete_absent (m : JsMap) k : ~ In k (keys m) -> Cache.map_delete m k = m.
Proof.
  induction m as [|[k0 e0] m IH]; simpl; intro H; [reflexivity|].
  destruct (str_eqb k0 k) eqn:E.
  - apply str_eqb_eq in E. subst. exfalso. apply H. now left.
  - f_equal. apply IH. intro Hin. apply H. now right.
Qed.

Lemma map_delete_keys (m : JsMap) k k' :
  In k' (keys (Cache.map_delete m k)) <-> In k' (keys m) /\ k' <> k.
Proof.
  induction m as [|[k0 e0] m IH]; simpl; [tauto|].
  destruct (str_eqb k0 k) eqn:E.
  - apply str_eqb_eq in E. subst. rewrite IH. split.
    + intros [H1 H2]. auto.
    + intros [[-> | H1] H2]; [contradiction | auto].
  - apply str_eqb_neq in E. simpl. rewrite IH. split.
    + intros [-> | [H1 H2]]; auto.
    + intros [[-> | H1] H2]; auto.
Qed.

Lemma map_delete_NoDup (m : JsMap) k :
  NoDup (keys m) -> NoDup (keys (Cache.map_delete m k)).
Proof.
  induction m as [|[k0 e0] m IH]; simpl; intro H; [constructor|].
  inversion H as [|? ? Hnotin Hnd]; subst.
  destruct (str_eqb k0 k); [now apply IH|].
  simpl. constructor; [|now apply IH].
  intro Hin. apply map_delete_keys in Hin. tauto.
Qed.

Lemma map_delete_length (m : JsMap) k :
  (List.length (Cache.map_delete m k) <= List.length m)%nat.
Proof.
  induction m as [|[k0 e0] m IH]; simpl; [lia|].
  destruct (str_eqb k0 k); simpl; lia.
Qed.

Lemma map_delete_length_present (m : JsMap) k :
  NoDup (keys m) -> In k (keys m) ->
  S (List.length (Cache.map_delete m k)) = List.length m.
Proof.
  induction m as [|[k0 e0] m IH]; simpl; intros Hnd Hin; [destruct Hin|].
  inversion Hnd as [|? ? Hnotin Hnd']; subst.
  destruct (str_eqb k0 k) eqn:E.
  - apply str_eqb_eq in E. subst. now rewrite map_delete_absent.
  - apply str_eqb_neq in E. simpl. f_equal.
    destruct Hin as [-> | Hin]; [contradiction | now apply IH].
Qed.

Lemma map_set_absent (m : JsMap) k e :
  ~ In k (keys m) -> Cache.map_set m k e = m ++ [(k, e)].
Proof.
  induction m as [|[k0 e0] m IH]; simpl; intro H; [reflexivity|].
  destruct (str_eqb k0 k) eqn:E.
  - apply str_eqb_eq in E. subst. exfalso. apply H. now left.
  - f_equal. apply IH. intro Hin. apply H. now right.
Qed.

Lemma keys_app (a b : JsMap) : keys (a ++ b) = keys a ++ keys b.
Proof. apply map_app. Qed.

Lemma keys_cons (k : jsstring) (e : Cache.CacheEntry T) (m : JsMap) :
  keys ((k, e) :: m) = k :: keys m.
Proof. reflexivity. Qed.

Lemma NoDup_snoc (l : list jsstring) k : NoDup l -> ~ In k l -> NoDup (l ++ [k]).
Proof.
  intros Hnd Hk. induction Hnd as [|x l Hx Hnd IH]; simpl.
  - constructor; [intros [] | constructor].
  - constructor.
    + rewrite in_app_iff. simpl. intros [H | [-> | []]]; [contradiction|].
      apply Hk. now left.
    + apply IH. intro H. apply Hk. now right.
Qed.

Lemma set_room (c : LRUCache) key v now :
  Cache.cache (Cache.set c key v now)
  = Cache.map_set (room c key) key (Cache.mkEntry v now).
Proof. reflexivity. Qed.

Lemma room_spec (c : LRUCache) key :
  wellKept c -> (1 <= Cache.maxSize c)%Z ->
  NoDup (keys (room c key)) /\ ~ In key (keys (room c key))
  /\ (Cache.map_size (room c key) < Cache.maxSize c)%Z
  /\ (forall k, In k (keys (room c key)) -> In k (keys (Cache.cache c))).
Proof.
  intros [Hnd Hsize] Hmax. unfold room, Cache.size, Cache.map_size in *.
  set (m := Cache.cache c) in *.
  set (m1 := if Cache.map_has m key then Cache.map_delete m key else m).
  assert (H1 : NoDup (keys m1) /\ ~ In key (keys m1)
               /\ (List.length m1 <= List.length m)%nat
               /\ (forall k, In k (keys m1) -> In k (keys m))).
  { subst m1. destruct (Cache.map_has m key) eqn:Hh.
    - repeat split.
      + now apply map_delete_NoDup.
      + intro Hin. apply map_delete_keys in Hin. tauto.
      + apply map_delete_length.
      + intros k Hin. apply map_delete_keys in Hin. tauto.
    - repeat split; auto.
      intro Hin. apply map_has_iff in Hin. congruence. }
  destruct H1 as (Hnd1 & Hk1 & Hlen1 & Hsub1).
  destruct (Z.of_nat (List.length m1) >=? Cache.maxSize c)%Z eqn:Hfull.
  - apply Z.geb_le in Hfull.
    destruct m1 as [|[k0 e0] rest] eqn:Em1; [simpl in Hfull; lia|].
    simpl Cache.map_first_key. cbv iota beta.
    assert (Hin0 : In k0 (keys ((k0, e0) :: rest))) by now left.
    pose proof (map_delete_length_present _ _ Hnd1 Hin0) as Hlen.
    repeat split.
    + now apply map_delete_NoDup.
    + intro Hin. apply map_delete_keys in Hin. tauto.
    + lia.
    + intros k Hin. apply map_delete_keys in Hin. apply Hsub1. tauto.
  - destruct (Z.geb_spec (Z.of_nat (List.length m1)) (Cache.maxSize c));
      [discriminate|].
    repeat split; auto.
Qed.

Lemma set_wellKept (c : LRUCache) key v now :
  wellKept c -> (1 <= Cache.maxSize c)%Z -> wellKept (Cache.set c key v now).
Proof.
  intros Hc Hmax. destruct (room_spec c key Hc Hmax) as (Hnd & Hk & Hlen & _).
  unfold wellKept, Cache.size. rewrite set_room.
  rewrite (map_set_absent _ _ _ Hk). split.
  - rewrite keys_app. simpl. now apply NoDup_snoc.
  - unfold Cache.map_size in *. rewrite length_app. simpl Cache.maxSize.
    simpl List.length. lia.
Qed.

Lemma get_wellKept (c : LRUCache) key now :
  wellKept c -> wellKept (snd (Cache.get c key now)).
Proof.
  intros [Hnd Hsize]. unfold Cache.get.
  destruct (Cache.map_get (Cache.cache c) key) as [entry|] eqn:G; [|now split].
  pose proof (map_get_present _ _ _ G) as Hin.
  unfold wellKept, Cache.size, Cache.map_size in *.
  destruct (Cache.expired c entry now); simpl.
  - split; [now apply map_delete_NoDup|].
    pose proof (map_delete_length (Cache.cache c) key). lia.
  - assert (Hk : ~ In key (keys (Cache.map_delete (Cache.cache c) key)))
      by (intro H; apply map_delete_keys in H; tauto).
    rewrite (map_set_absent _ _ _ Hk). split.
    + rewrite keys_app. simpl. apply NoDup_snoc; [now apply map_delete_NoDup | exact Hk].
    + rewrite length_app. simpl.
      pose proof (map_delete_length_present _ _ Hnd Hin). lia.
Qed.

Lemma has_wellKept (c : LRUCache) key now :
  wellKept c -> wellKept (snd (Cache.has c key now)).
Proof.
  intros [Hnd Hsize]. unfold Cache.has.
  destruct (Cache.map_get (Cache.cache c) key) as [entry|]; [|now split].
  destruct (Cache.expired c entry now); [|now split].
  unfold wellKept, Cache.size, Cache.map_size in *. simpl.
  split; [now apply map_delete_NoDup|].
  pose proof (map_delete_length (Cache.cache c) key). lia.
Qed.

Lemma step_wellKept (c : LRUCache) op :
  wellKept c -> (1 <= Cache.maxSize c)%Z ->
  wellKept (Cache.step c op) /\ Cache.maxSize (Cache.step c op) = Cache.maxSize c.
Proof.
  intros Hc Hmax. destruct op as [key now | key v now | key now | key |]; simpl.
  - split; [now apply get_wellKept|].
    unfold Cache.get. destruct (Cache.map_get _ _); [|reflexivity].
    destruct (Cache.expired _ _ _); reflexivity.
  - split; [now apply set_wellKept | reflexivity].
  - split; [now apply has_wellKept|].
    unfold Cache.has. destruct (Cache.map_get _ _); [|reflexivity].
    destruct (Cache.expired _ _ _); reflexivity.
  - split; [|reflexivity]. destruct Hc as [Hnd Hsize].
    unfold wellKept, Cache.size, Cache.map_size in *. simpl.
    split; [now apply map_delete_NoDup|].
    pose proof (map_delete_length (Cache.cache c) key). lia.
  - split; [|reflexivity].
    unfold wellKept, Cache.size, Cache.map_size. simpl.
    split; [constructor | lia].
Qed.

Lemma run_wellKept (ops : list (Cache.Op T)) (c : LRUCache) :
  wellKept c -> (1 <= Cache.maxSize c)%Z ->
  wellKept (Cache.run c ops) /\ Cache.maxSize (Cache.run c ops) = Cache.maxSize c.
Proof.
  revert c. induction ops as [|op ops IH]; intros c Hc Hmax; [now split|].
  unfold Cache.run. simpl. fold (Cache.run (Cache.step c op) ops).
  destruct (step_wellKept c op Hc Hmax) as [Hc' Hm'].
  destruct (IH (Cache.step c op) Hc') as [Hr Hmr]; [lia|].
  split; [exact Hr | congruence].
Qed.

Lemma new_wellKept (options : Cache.LRUCacheOptions) :
  (1 <= Cache.maxSize (Cache.new T options))%Z -> wellKept (Cache.new T options).
Proof.
  intro H. unfold wellKept, Cache.size, Cache.map_size. simpl.
  split; [constructor|]. simpl in H. lia.
Qed.

Lemma bool_eq_iff (a b : bool) : (a = true <-> b = true) -> a = b.
Proof.
  destruct a, b; intros [H1 H2]; try reflexivity.
  - symmetry. now apply H1.
  - now apply H2.
Qed.

Lemma map_get_snoc (m : JsMap) k e :
  ~ In k (keys m) -> Cache.map_get (m ++ [(k, e)]) k = Some e.
Proof.
  induction m as [|[k0 e0] m IH]; simpl; intro H.
  - now rewrite str_eqb_refl.
  - destruct (str_eqb k0 k) eqn:E.
    + apply str_eqb_eq in E. subst. exfalso. apply H. now left.
    + apply IH. intro Hin. apply H. now right.
Qed.

Lemma map_get_app_left (m m' : JsMap) k e :
  Cache.map_get m k = Some e -> Cache.map_get (m ++ m') k = Some e.
Proof.
  induction m as [|[k0 e0] m IH]; simpl; [discriminate|].
  destruct (str_eqb k0 k); auto.
Qed.

(** [set] of a key that is absent while there is room: appended. *)
Lemma set_absent_room (c : LRUCache) key v now :
  ~ In key (keys (Cache.cache c)) -> (Cache.size c < Cache.maxSize c)%Z ->
  Cache.cache (Cache.set c key v now) = Cache.cache c ++ [(key, Cache.mkEntry v now)].
Proof.
  intros Hk Hsize. rewrite set_room. unfold room.
  destruct (Cache.map_has (Cache.cache c) key) eqn:Hh;
    [apply map_has_iff in Hh; contradiction|].
  unfold Cache.size in Hsize.
  destruct (Z.geb_spec (Cache.map_size (Cache.cache c)) (Cache.maxSize c)); [lia|].
  now apply map_set_absent.
Qed.

(** [set] of an absent key at capacity: the oldest entry goes. *)
Lemma set_absent_full (c : LRUCache) key v now k0 e0 rest :
  Cache.cache c = (k0, e0) :: rest -> NoDup (keys (Cache.cache c)) ->
  ~ In key (keys (Cache.cache c)) -> (Cache.size c >= Cache.maxSize c)%Z ->
  Cache.cache (Cache.set c key v now) = rest ++ [(key, Cache.mkEntry v now)].
Proof.
  intros Hm Hnd Hk Hsize. rewrite set_room. unfold room.
  destruct (Cache.map_has (Cache.cache c) key) eqn:Hh;
    [apply map_has_iff in Hh; contradiction|].
  unfold Cache.size in Hsize.
  destruct (Z.geb_spec (Cache.map_size (Cache.cache c)) (Cache.maxSize c)); [|lia].
  rewrite Hm in *. simpl Cache.map_first_key. cbv iota beta.
  simpl in Hnd. inversion Hnd as [|? ? Hnotin Hnd']; subst.
  simpl Cache.map_delete. rewrite str_eqb_refl.
  rewrite (map_delete_absent _ _ Hnotin).
  apply map_set_absent. intro Hin. apply Hk. now right.
Qed.

(** [set] of a present key: the entry moves to the newest end, nothing
    else leaves. *)
Lemma set_present (c : LRUCache) key v now :
  wellKept c -> In key (keys (Cache.cache c)) ->
  Cache.cache (Cache.set c key v now)
  = Cache.map_delete (Cache.cache c) key ++ [(key, Cache.mkEntry v now)].
Proof.
  intros [Hnd Hsize] Hin. rewrite set_room. unfold room.
  pose proof Hin as Hh. apply map_has_iff in Hh. rewrite Hh.
  pose proof (map_delete_length_present _ _ Hnd Hin) as Hlen.
  unfold Cache.size, Cache.map_size in *.
  destruct (Z.geb_spec (Z.of_nat (List.length (Cache.map_delete (Cache.cache c) key)))
                       (Cache.maxSize c)); [lia|].
  apply map_set_absent. intro Hd. apply map_delete_keys in Hd. tauto.
Qed.

Lemma set_present_keeps (c : LRUCache) key v now :
  wellKept c -> Cache.map_has (Cache.cache c) key = true ->
  Cache.size (Cache.set c key v now) = Cache.size c
  /\ Cache.map_get (Cache.cache (Cache.set c key v now)) key = Some (Cache.mkEntry v now)
  /\ forall k, Cache.map_has (Cache.cache (Cache.set c key v now)) k
               = Cache.map_has (Cache.cache c) k.
Proof.
  intros Hc Hh. apply map_has_iff in Hh.
  pose proof (set_present c key v now Hc Hh) as E.
  destruct Hc as [Hnd Hsize].
  assert (Hk : ~ In key (keys (Cache.map_delete (Cache.cache c) key)))
    by (intro H; apply map_delete_keys in H; tauto).
  unfold Cache.size, Cache.map_size. rewrite E. repeat split.
  - rewrite length_app. simpl.
    pose proof (map_delete_length_present _ _ Hnd Hh). lia.
  - now apply map_get_snoc.
  - intro k. apply bool_eq_iff. rewrite !map_has_iff, keys_app, in_app_iff.
    rewrite map_delete_keys. simpl. split.
    + intros [[H _] | [<- | []]]; assumption.
    + intro H. destruct (list_eq_dec N.eq_dec k key) as [-> | Hne]; auto.
Qed.

Lemma set_full_evicts (c : LRUCache) key v now :
  wellKept c -> (1 <= Cache.maxSize c)%Z ->
  Cache.map_has (Cache.cache c) key = false -> Cache.size c = Cache.maxSize c ->
  exists oldest,
    Cache.map_first_key (Cache.cache c) = Some oldest
    /\ Cache.size (Cache.set c key v now) = Cache.size c
    /\ Cache.map_has (Cache.cache (Cache.set c key v now)) oldest = false
    /\ Cache.map_has (Cache.cache (Cache.set c key v now)) key = true
    /\ forall k, k <> oldest -> k <> key ->
                 Cache.map_has (Cache.cache (Cache.set c key v now)) k
                 = Cache.map_has (Cache.cache c) k.
Proof.
  intros [Hnd Hsize] Hmax Hh Hfull.
  assert (Hk : ~ In key (keys (Cache.cache c)))
    by (intro H; apply map_has_iff in H; congruence).
  destruct (Cache.cache c) as [|[k0 e0] rest] eqn:Em.
  { unfold Cache.size, Cache.map_size in Hfull. rewrite Em in Hfull. simpl in Hfull. lia. }
  assert (E : Cache.cache (Cache.set c key v now) = rest ++ [(key, Cache.mkEntry v now)]).
  { apply set_absent_full with (k0 := k0) (e0 := e0); rewrite ?Em; auto.
    unfold Cache.size in *. lia. }
  exists k0. simpl in Hnd. inversion Hnd as [|? ? Hnotin Hnd']; subst.
  unfold Cache.size, Cache.map_size. rewrite E, Em. repeat split.
  - rewrite length_app. simpl. lia.
  - destruct (Cache.map_has (rest ++ [(key, Cache.mkEntry v now)]) k0) eqn:F;
      [|reflexivity].
    apply map_has_iff in F. rewrite keys_app, in_app_iff in F. simpl in F.
    destruct F as [F | [F | []]]; [contradiction|].
    exfalso. apply Hk. left. now symmetry.
  - apply map_has_iff. rewrite keys_app, in_app_iff. right. now left.
  - intros k Hk0 Hkey. apply bool_eq_iff.
    rewrite !map_has_iff, keys_app, in_app_iff. simpl. split.
    + intros [H | [H | []]]; [now right | congruence].
    + intros [H | H]; [congruence | now left].
Qed.

End CacheFacts.

(** C10.  A cache constructed with capacity at least 1 never holds more
    entries than its capacity, whatever sequence of get, set, has, delete
    and clear is run on it.  [set] on a key it holds keeps the size,
    leaves the new value under that key and drops no other key; [set] on
    a new key at capacity removes exactly the oldest entry and then
    inserts, so the size stays at the capacity. *)
Theorem C10_size_bounded (T : Type) (options : Cache.LRUCacheOptions) :
  (1 <= Cache.maxSize (Cache.new T options))%Z ->
  forall ops : list (Cache.Op T),
    let c := Cache.run (Cache.new T options) ops in
    (Cache.size c <= Cache.maxSize (Cache.new T options))%Z
    /\ (forall key v now,
          Cache.map_has (Cache.cache c) key = true ->
          Cache.size (Cache.set c key v now) = Cache.size c
          /\ Cache.map_get (Cache.cache (Cache.set c key v now)) key
             = Some (Cache.mkEntry v now)
          /\ forall k, Cache.map_has (Cache.cache (Cache.set c key v now)) k
                       = Cache.map_has (Cache.cache c) k)
    /\ (forall key v now,
          Cache.map_has (Cache.cache c) key = false ->
          Cache.size c = Cache.maxSize c ->
          exists oldest,
            Cache.map_first_key (Cache.cache c) = Some oldest
            /\ Cache.size (Cache.set c key v now) = Cache.size c
            /\ Cache.map_has (Cache.cache (Cache.set c key v now)) oldest = false
            /\ Cache.map_has (Cache.cache (Cache.set c key v now)) key = true
            /\ forall k, k <> oldest -> k <> key ->
                         Cache.map_has (Cache.cache (Cache.set c key v now)) k
                         = Cache.map_has (Cache.cache c) k).
Proof.
  intros Hmax ops c.
  destruct (run_wellKept T ops (Cache.new T options) (new_wellKept T options Hmax) Hmax)
    as [Hc Hm].
  fold c in Hc, Hm. split; [|split].
  - destruct Hc as [_ Hsize]. lia.
  - intros key v now Hh. now apply set_present_keeps.
  - intros key v now Hh Hfull. apply set_full_evicts; auto. lia.
Qed.

Lemma C10_size_bounded_witness :
  let options := Cache.mkCacheOptions (Some 2%Z) None in
  let ops := [Cache.OpSet (js "a") 1%nat 0%Z; Cache.OpSet (js "b") 2%nat 1%Z;
              Cache.OpGet nat (js "a") 2%Z; Cache.OpSet (js "c") 3%nat 3%Z;
              Cache.OpHas nat (js "b") 4%Z; Cache.OpDelete nat (js "c");
              Cache.OpSet (js "d") 4%nat 5%Z] in
  (1 <= Cache.maxSize (Cache.new nat options))%Z
  /\ (Cache.size (Cache.run (Cache.new nat options) ops) <= 2)%Z
  /\ Cache.size (Cache.set (Cache.run (Cache.new nat options) ops) (js "a") 9%nat 6%Z)
     = Cache.size (Cache.run (Cache.new nat options) ops)
  /\ exists oldest,
       Cache.map_first_key (Cache.cache (Cache.run (Cache.new nat options) ops))
       = Some oldest
       /\ Cache.map_has
            (Cache.cache (Cache.set (Cache.run (Cache.new nat options) ops)
                            (js "e") 5%nat 6%Z)) oldest = false.
Proof.
  intros options ops.
  assert (Hmax : (1 <= Cache.maxSize (Cache.new nat options))%Z) by (simpl; lia).
  destruct (C10_size_bounded nat options Hmax ops) as (Hsize & Hpresent & Hevict).
  split; [exact Hmax|]. split; [exact Hsize|]. split.
  - destruct (Hpresent (js "a") 9%nat 6%Z eq_refl) as [H _]. exact H.
  - destruct (Hevict (js "e") 5%nat 6%Z eq_refl eq_refl) as (oldest & H1 & _ & H3 & _).
    exists oldest. split; assumption.
Defined.

(** ** Eviction order *)

Section LruDiscipline.

Variable T : Type.

Local Abbreviation Insertion := (CacheSpec.Insertion T).

Lemma keys_entries (l : list Insertion) :
  keys (List.map (@entryOf T) l) = List.map (@keyOf T) l.
Proof. unfold keys. rewrite map_map. reflexivity. Qed.

Lemma setAll_cons (c : Cache.LRUCache T) (i : Insertion) (l : list Insertion) :
  Cache.setAll c (i :: l) = Cache.setAll (Cache.set c (keyOf i) (valueOf i) (timeOf i)) l.
Proof. reflexivity. Qed.

Lemma setAll_snoc (c : Cache.LRUCache T) (l : list Insertion) (i : Insertion) :
  Cache.setAll c (l ++ [i])
  = Cache.set (Cache.setAll c l) (keyOf i) (valueOf i) (timeOf i).
Proof. unfold Cache.setAll. rewrite fold_left_app. reflexivity. Qed.

(** Distinct keys set into a cache that has room for all of them sit in
    the map in the order of the calls. *)
Lemma setAll_fills (l : list Insertion) :
  forall (c : Cache.LRUCache T) (done : list Insertion),
    Cache.cache c = List.map (@entryOf T) done ->
    NoDup (List.map (@keyOf T) (done ++ l)) ->
    (Z.of_nat (List.length (done ++ l)) <= Cache.maxSize c)%Z ->
    Cache.cache (Cache.setAll c l) = List.map (@entryOf T) (done ++ l)
    /\ Cache.maxSize (Cache.setAll c l) = Cache.maxSize c
    /\ Cache.ttlMs (Cache.setAll c l) = Cache.ttlMs c.
Proof.
  induction l as [|i l IH]; intros c done Hc Hnd Hlen.
  - rewrite app_nil_r. auto.
  - rewrite setAll_cons.
    assert (Hi : ~ In (keyOf i) (keys (Cache.cache c))).
    { rewrite Hc, keys_entries. rewrite map_app in Hnd.
      apply NoDup_remove_2 in Hnd. intro H. apply Hnd.
      apply in_app_iff. now left. }
    assert (Hroom : (Cache.size c < Cache.maxSize c)%Z).
    { unfold Cache.size, Cache.map_size. rewrite Hc, length_map.
      rewrite length_app in Hlen. simpl in Hlen. lia. }
    pose proof (set_absent_room T c (keyOf i) (valueOf i) (timeOf i) Hi Hroom) as E.
    replace (done ++ i :: l) with ((done ++ [i]) ++ l) in *
      by (rewrite <- app_assoc; reflexivity).
    destruct (IH (Cache.set c (keyOf i) (valueOf i) (timeOf i)) (done ++ [i]))
      as (H1 & H2 & H3); auto.
    rewrite E, Hc, map_app. reflexivity.
Qed.

Lemma new_filled (n : Z) (ttl : option Z) (l : list Insertion) :
  NoDup (List.map (@keyOf T) l) -> (Z.of_nat (List.length l) <= n)%Z ->
  let c := Cache.setAll (Cache.new T (Cache.mkCacheOptions (Some n) ttl)) l in
  Cache.cache c = List.map (@entryOf T) l /\ Cache.maxSize c = n /\ Cache.ttlMs c = ttl.
Proof.
  intros Hnd Hlen.
  apply (setAll_fills l (Cache.new T (Cache.mkCacheOptions (Some n) ttl)) []); auto.
Qed.

Lemma get_absent (c : Cache.LRUCache T) key now :
  ~ In key (keys (Cache.cache c)) -> fst (Cache.get c key now) = None.
Proof. intro H. unfold Cache.get. now rewrite (map_get_absent T _ _ H). Qed.

Lemma expired_fresh (c : Cache.LRUCache T) (e : Cache.CacheEntry T) now :
  fresh (Cache.ttlMs c) (Cache.timestamp e) now = true -> Cache.expired c e now = false.
Proof.
  unfold fresh, Cache.expired. destruct (Cache.ttlMs c) as [ttl|]; [|reflexivity].
  intro H. apply Z.leb_le in H.
  destruct (Z.gtb_spec (now - Cache.timestamp e) ttl); [lia | reflexivity].
Qed.

(** N+1 distinct keys set into an empty cache of capacity N (at least 1):
    the first one is gone. *)
Lemma first_key_evicted (ttl : option Z) (first : Insertion) (others : list Insertion)
      (last : Insertion) (now : Z) :
  NoDup (List.map (@keyOf T) ((first :: others) ++ [last])) ->
  let n := Z.of_nat (List.length (first :: others)) in
  let c := Cache.setAll (Cache.new T (Cache.mkCacheOptions (Some n) ttl))
             ((first :: others) ++ [last]) in
  fst (Cache.get c (keyOf first) now) = None.
Proof.
  intros Hnd n c. subst c. rewrite setAll_snoc.
  assert (Hnd' : NoDup (List.map (@keyOf T) (first :: others))).
  { rewrite map_app in Hnd. now apply NoDup_app_remove_r in Hnd. }
  destruct (new_filled n ttl (first :: others) Hnd' (Z.le_refl _)) as (Hc & Hm & _).
  set (full := Cache.setAll _ (first :: others)) in *.
  assert (Hlast : ~ In (keyOf last) (keys (Cache.cache full))).
  { rewrite Hc, keys_entries. rewrite map_app in Hnd. simpl List.map in Hnd.
    intro H. apply NoDup_remove_2 in Hnd. apply Hnd. rewrite app_nil_r. exact H. }
  assert (E : Cache.cache (Cache.set full (keyOf last) (valueOf last) (timeOf last))
              = List.map (@entryOf T) others
                ++ [(keyOf last, Cache.mkEntry (valueOf last) (timeOf last))]).
  { apply set_absent_full with (k0 := keyOf first)
                               (e0 := Cache.mkEntry (valueOf first) (timeOf first)).
    - rewrite Hc. reflexivity.
    - rewrite Hc, keys_entries. exact Hnd'.
    - exact Hlast.
    - unfold Cache.size, Cache.map_size. rewrite Hc, Hm, length_map. subst n. lia. }
  apply get_absent. rewrite E, keys_app, keys_entries, in_app_iff.
  simpl in Hnd. inversion Hnd as [|? ? Hnotin _]; subst.
  rewrite map_app, in_app_iff in Hnotin. simpl in Hnotin. simpl. tauto.
Qed.

Lemma map_get_middle (a b : Cache.JsMap T) k e :
  ~ In k (keys a) -> Cache.map_get (a ++ (k, e) :: b) k = Some e.
Proof.
  induction a as [|[k0 e0] a IH]; simpl; intro H.
  - now rewrite str_eqb_refl.
  - destruct (str_eqb k0 k) eqn:E.
    + apply str_eqb_eq in E. exfalso. apply H. now left.
    + apply IH. intro Hin. apply H. now right.
Qed.

Lemma map_delete_middle (a b : Cache.JsMap T) k e :
  ~ In k (keys a) -> ~ In k (keys b) ->
  Cache.map_delete (a ++ (k, e) :: b) k = a ++ b.
Proof.
  intros Ha Hb. induction a as [|[k0 e0] a IH]; simpl.
  - rewrite str_eqb_refl. now apply map_delete_absent.
  - destruct (str_eqb k0 k) eqn:E.
    + apply str_eqb_eq in E. exfalso. apply Ha. now left.
    + f_equal. apply IH. intro Hin. apply Ha. now right.
Qed.

(** A key read when the cache is full, and still fresh, outlives the next
    insertion; the oldest of the other keys is evicted in its place. *)
Lemma read_protects (ttl : option Z) (pre post : list Insertion) (kv last : Insertion)
      (tget tlast : Z) :
  NoDup (List.map (@keyOf T) ((pre ++ kv :: post) ++ [last])) ->
  pre ++ post <> [] ->
  fresh ttl (timeOf kv) tget = true ->
  fresh ttl (timeOf kv) tlast = true ->
  let n := Z.of_nat (List.length (pre ++ kv :: post)) in
  let full := Cache.setAll (Cache.new T (Cache.mkCacheOptions (Some n) ttl))
                (pre ++ kv :: post) in
  let read := Cache.get full (keyOf kv) tget in
  let c := Cache.set (snd read) (keyOf last) (valueOf last) (timeOf last) in
  fst read = Some (valueOf kv)
  /\ fst (Cache.get c (keyOf kv) tlast) = Some (valueOf kv)
  /\ Cache.size c = n
  /\ exists victim,
       hd_error (List.map (@keyOf T) (pre ++ post)) = Some victim
       /\ victim <> keyOf kv
       /\ fst (Cache.get c victim tlast) = None.
Proof.
  intros Hnd Hne Hf1 Hf2 n full read c.
  assert (Hnd' : NoDup (List.map (@keyOf T) (pre ++ kv :: post))).
  { rewrite map_app in Hnd. now apply NoDup_app_remove_r in Hnd. }
  destruct (new_filled n ttl (pre ++ kv :: post) Hnd' (Z.le_refl _)) as (Hc & Hm & Httl).
  fold full in Hc, Hm, Httl.
  (* distinctness facts *)
  assert (Hkv : ~ In (keyOf kv) (List.map (@keyOf T) (pre ++ post))).
  { rewrite map_app in Hnd'. simpl in Hnd'. apply NoDup_remove_2 in Hnd'.
    now rewrite map_app. }
  assert (Hrest : NoDup (List.map (@keyOf T) (pre ++ post))).
  { rewrite map_app in Hnd'. simpl in Hnd'. apply NoDup_remove_1 in Hnd'.
    now rewrite map_app. }
  assert (Hlast : ~ In (keyOf last) (List.map (@keyOf T) (pre ++ kv :: post))).
  { rewrite map_app in Hnd. simpl List.map at 2 in Hnd.
    apply NoDup_remove_2 in Hnd. now rewrite app_nil_r in Hnd. }
  assert (HkvPre : ~ In (keyOf kv) (keys (List.map (@entryOf T) pre))).
  { rewrite keys_entries. intro H. apply Hkv. rewrite map_app, in_app_iff. now left. }
  assert (HkvPost : ~ In (keyOf kv) (keys (List.map (@entryOf T) post))).
  { rewrite keys_entries. intro H. apply Hkv. rewrite map_app, in_app_iff. now right. }
  (* the read *)
  assert (Hget : Cache.map_get (Cache.cache full) (keyOf kv)
                 = Some (Cache.mkEntry (valueOf kv) (timeOf kv))).
  { rewrite Hc, map_app. simpl List.map. now apply map_get_middle. }
  assert (Hdel : Cache.map_delete (Cache.cache full) (keyOf kv)
                 = List.map (@entryOf T) (pre ++ post)).
  { rewrite Hc, !map_app. simpl List.map. now apply map_delete_middle. }
  assert (Hread : read = (Some (valueOf kv),
                          Cache.withCache full
                            (List.map (@entryOf T) (pre ++ post)
                             ++ [(keyOf kv, Cache.mkEntry (valueOf kv) (timeOf kv))]))).
  { subst read. unfold Cache.get. rewrite Hget.
    rewrite expired_fresh by (rewrite Httl; exact Hf1).
    simpl Cache.value. rewrite Hdel. f_equal. f_equal.
    apply map_set_absent. now rewrite keys_entries. }
  (* the insertion that follows *)
  destruct (pre ++ post) as [|victim rest] eqn:Erest; [contradiction|].
  simpl in Hrest. apply NoDup_cons_iff in Hrest as [Hvictim Hrest'].
  assert (E : Cache.cache c
              = (List.map (@entryOf T) rest
                 ++ [(keyOf kv, Cache.mkEntry (valueOf kv) (timeOf kv))])
                ++ [(keyOf last, Cache.mkEntry (valueOf last) (timeOf last))]).
  { assert (Hcache : Cache.cache (snd read)
                     = (keyOf victim, Cache.mkEntry (valueOf victim) (timeOf victim))
                       :: (List.map (@entryOf T) rest
                           ++ [(keyOf kv, Cache.mkEntry (valueOf kv) (timeOf kv))]))
      by (rewrite Hread; reflexivity).
    assert (Hmax : Cache.maxSize (snd read) = n) by (rewrite Hread; exact Hm).
    subst c.
    apply set_absent_full with (k0 := keyOf victim)
                               (e0 := Cache.mkEntry (valueOf victim) (timeOf victim)).
    - exact Hcache.
    - rewrite Hcache, keys_cons, keys_app, keys_entries. simpl.
      constructor.
      + rewrite in_app_iff. simpl. intros [H | [H | []]]; [contradiction|].
        apply Hkv. left. now symmetry.
      + apply NoDup_snoc; [exact Hrest'|].
        intro H. apply Hkv. now right.
    - rewrite Hcache, keys_cons, keys_app, keys_entries.
      intro H. apply Hlast. rewrite map_app, in_app_iff. simpl.
      assert (Hin : In (keyOf last) (List.map (@keyOf T) (pre ++ post))
                    \/ keyOf kv = keyOf last).
      { rewrite Erest. simpl in H. rewrite in_app_iff in H. simpl in H. simpl. tauto. }
      rewrite map_app, in_app_iff in Hin. tauto.
    - unfold Cache.size, Cache.map_size. rewrite Hcache, Hmax. subst n.
      simpl List.length. rewrite !length_app, length_map. simpl.
      assert (L : List.length (pre ++ post) = S (List.length rest)) by now rewrite Erest.
      rewrite length_app in L. lia. }
  assert (HkvRest : ~ In (keyOf kv) (keys (List.map (@entryOf T) rest))).
  { rewrite keys_entries. intro H. apply Hkv. now right. }
  split; [now rewrite Hread|]. split; [|split].
  - unfold Cache.get. rewrite E.
    rewrite (map_get_app_left T _ _ _ _ (map_get_snoc T _ _ _ HkvRest)).
    rewrite expired_fresh.
    + reflexivity.
    + subst c. rewrite Hread. simpl. rewrite Httl. exact Hf2.
  - unfold Cache.size, Cache.map_size. rewrite E. subst n.
    rewrite !length_app, length_map. simpl.
    assert (L : List.length (pre ++ post) = S (List.length rest)) by now rewrite Erest.
    rewrite length_app in L. lia.
  - exists (keyOf victim). split; [reflexivity|]. split.
    + intro H. apply Hkv. left. exact H.
    + apply get_absent. rewrite E, !keys_app, keys_entries, !in_app_iff. simpl.
      intros [[H | [H | []]] | [H | []]].
      * contradiction.
      * apply Hkv. left. now symmetry.
      * apply Hlast. rewrite map_app, in_app_iff. simpl.
        assert (Hin : In (keyOf last) (List.map (@keyOf T) (pre ++ post))).
        { rewrite Erest. left. now symmetry. }
        rewrite map_app, in_app_iff in Hin. tauto.
Qed.

End LruDiscipline.

(** C9 (amended).  Into an empty cache of capacity N, with or without a
    TTL: after N+1 [set] calls with pairwise distinct keys and no read in
    between, [get] on the first key returns undefined, for every N of at
    least 1.  For N of at least 2: a [get], made when the N keys are in
    and before the (N+1)th [set], on a key whose entry has not expired,
    returns its value; the key survives the insertion, its value is
    returned again afterwards (as long as it has not expired), the size
    stays N, and the oldest of the other keys is the one evicted. *)
Theorem C9_lru_discipline (T : Type) (ttl : option Z) :
  (forall (first : Insertion T) (others : list (Insertion T)) (last : Insertion T)
          (now : Z),
      NoDup (List.map (@keyOf T) ((first :: others) ++ [last])) ->
      let n := Z.of_nat (List.length (first :: others)) in
      let c := Cache.setAll (Cache.new T (Cache.mkCacheOptions (Some n) ttl))
                 ((first :: others) ++ [last]) in
      fst (Cache.get c (keyOf first) now) = None)
  /\ (forall (pre post : list (Insertion T)) (kv last : Insertion T) (tget tlast : Z),
        NoDup (List.map (@keyOf T) ((pre ++ kv :: post) ++ [last])) ->
        pre ++ post <> [] ->
        fresh ttl (timeOf kv) tget = true ->
        fresh ttl (timeOf kv) tlast = true ->
        let n := Z.of_nat (List.length (pre ++ kv :: post)) in
        let full := Cache.setAll (Cache.new T (Cache.mkCacheOptions (Some n) ttl))
                      (pre ++ kv :: post) in
        let read := Cache.get full (keyOf kv) tget in
        let c := Cache.set (snd read) (keyOf last) (valueOf last) (timeOf last) in
        fst read = Some (valueOf kv)
        /\ fst (Cache.get c (keyOf kv) tlast) = Some (valueOf kv)
        /\ Cache.size c = n
        /\ exists victim,
             hd_error (List.map (@keyOf T) (pre ++ post)) = Some victim
             /\ victim <> keyOf kv
             /\ fst (Cache.get c victim tlast) = None).
Proof.
  split.
  - intros first others last now Hnd. now apply first_key_evicted.
  - intros pre post kv last tget tlast Hnd Hne Hf1 Hf2. now apply read_protects.
Qed.

(** Capacity 3 with a TTL of 100: key1, key2, key3 are set, key1 is read,
    key4 is set; key1 is still there and key2 is gone.  Without the read,
    key1 is gone. *)
Lemma C9_lru_discipline_witness :
  let k1 : Insertion nat := (js "key1", 1%nat, 0%Z) in
  let k2 : Insertion nat := (js "key2", 2%nat, 1%Z) in
  let k3 : Insertion nat := (js "key3", 3%nat, 2%Z) in
  let k4 : Insertion nat := (js "key4", 4%nat, 4%Z) in
  let fresh3 := Cache.new nat (Cache.mkCacheOptions (Some 3%Z) (Some 100%Z)) in
  fst (Cache.get (Cache.setAll fresh3 [k1; k2; k3; k4]) (js "key1") 5%Z) = None
  /\ (let read := Cache.get (Cache.setAll fresh3 [k1; k2; k3]) (js "key1") 3%Z in
      let c := Cache.set (snd read) (js "key4") 4%nat 4%Z in
      fst read = Some 1%nat
      /\ fst (Cache.get c (js "key1") 5%Z) = Some 1%nat
      /\ Cache.size c = 3%Z
      /\ fst (Cache.get c (js "key2") 5%Z) = None).
Proof.
  intros k1 k2 k3 k4 fresh3.
  assert (Hnd : NoDup (List.map (@keyOf nat) [k1; k2; k3; k4])).
  { repeat constructor; simpl; intro H;
      repeat (destruct H as [H | H]; [discriminate H|]); exact H. }
  destruct (C9_lru_discipline nat (Some 100%Z)) as [Hfirst Hread].
  split.
  - exact (Hfirst k1 [k2; k3] k4 5%Z Hnd).
  - destruct (Hread [] [k2; k3] k1 k4 3%Z 5%Z Hnd ltac:(discriminate) eq_refl eq_refl)
      as (H1 & H2 & H3 & victim & Hv & _ & Hgone).
    injection Hv as <-.
    repeat split; assumption.
Defined.

(** C9 as stated fails at capacity 1: the only key is read, the next
    [set] still evicts it, since no other key is there to go instead. *)
Lemma C9_counterexample :
  let c0 := Cache.new nat (Cache.mkCacheOptions (Some 1%Z) None) in
  let c1 := Cache.set c0 (js "key1") 1%nat 0%Z in
  let read := Cache.get c1 (js "key1") 1%Z in
  let c2 := Cache.set (snd read) (js "key2") 2%nat 2%Z in
  fst read = Some 1%nat
  /\ fst (Cache.get c2 (js "key1") 3%Z) = None
  /\ fst (Cache.get c2 (js "key1") 3%Z) <> Some 1%nat.
Proof.
  cbv zeta. split; [|split]; try (vm_compute; reflexivity).
  vm_compute. discriminate.
Qed.

(** ** The keyword fallback *)

Section FallbackFacts.

Variable Score : Type.

Lemma safe_not_syntax (c : char) :
  isSafeChar c = true -> RegExp.isSyntaxCharacter c = false.
Proof.
  intro Hs. destruct (RegExp.isSyntaxCharacter c) eqn:E; [|reflexivity].
  unfold RegExp.isSyntaxCharacter in E. apply existsb_exists in E as [x [Hin Hx]].
  apply N.eqb_eq in Hx. subst x. exfalso. revert Hs.
  vm_compute in Hin.
  repeat (destruct Hin as [<- | Hin]; [vm_compute; discriminate|]).
  destruct Hin.
Qed.

Lemma safe_string_no_syntax (s : jsstring) :
  Forall (fun c => isSafeChar c = true) s ->
  Forall (fun ch => RegExp.isSyntaxCharacter ch = false) s.
Proof. apply Forall_impl. intros a. apply safe_not_syntax. Qed.

Lemma render_no_syntax (c : Sql.Condition) :
  wellFormed c -> Forall (fun ch => RegExp.isSyntaxCharacter ch = false) (Sql.render c).
Proof.
  destruct c as [s|s|l]; intro Hw; simpl in Hw; unfold Sql.render.
  - destruct Hw as (_ & Hs & _).
    apply Forall_app; split; [repeat constructor|].
    apply Forall_app; split; [now apply safe_string_no_syntax | repeat constructor].
  - destruct Hw as (_ & Hs & _).
    apply Forall_app; split; [repeat constructor|].
    apply Forall_app; split; [now apply safe_string_no_syntax | repeat constructor].
  - destruct Hw as (_ & Hl).
    apply Forall_app; split; [repeat constructor|].
    apply Forall_app; split; [|repeat constructor].
    apply safe_string_no_syntax. eapply Forall_impl; [|exact Hl].
    intros a. apply lower_is_safe.
Qed.

Lemma renderAll_no_syntax (conds : list Sql.Condition) :
  Forall wellFormed conds ->
  Forall (fun ch => RegExp.isSyntaxCharacter ch = false) (Sql.renderAll conds).
Proof.
  unfold Sql.renderAll. induction conds as [|c rest IH]; intro Hw; [constructor|].
  apply Forall_cons_iff in Hw as [Hc Hrest].
  destruct rest as [|c' rest'].
  - simpl. now apply render_no_syntax.
  - change (Forall (fun ch => RegExp.isSyntaxCharacter ch = false)
              (Sql.render c ++ js " AND "
                 ++ join (js " AND ") (List.map Sql.render (c' :: rest')))).
    apply Forall_app; split; [now apply render_no_syntax|].
    apply Forall_app; split; [repeat constructor | now apply IH].
Qed.

Lemma dropWhile_incl (p : char -> bool) (s : jsstring) : incl (RegExp.dropWhile p s) s.
Proof.
  induction s as [|c t IH]; simpl; [apply incl_refl|].
  destruct (p c); [now apply incl_tl | apply incl_refl].
Qed.

Lemma takeWhile_incl (p : char -> bool) (s : jsstring) : incl (RegExp.takeWhile p s) s.
Proof.
  induction s as [|c t IH]; simpl; [apply incl_refl|].
  destruct (p c); [|intros x []].
  intros x [-> | H]; [now left | right; now apply IH].
Qed.

Lemma literal_incl (lit s r : jsstring) : RegExp.literal lit s = Some r -> incl r s.
Proof.
  revert s. induction lit as [|y lit IH]; intros s; simpl.
  - destruct s; intros [= <-]; apply incl_refl.
  - destruct s as [|x s]; [discriminate|].
    destruct (char_eqb x y); [|discriminate].
    intro H. apply incl_tl. now apply IH.
Qed.

Lemma spaces1_incl (s r : jsstring) : RegExp.spaces1 s = Some r -> incl r s.
Proof.
  destruct s as [|c t]; simpl; [discriminate|].
  destruct (isWhiteSpace c); [|discriminate].
  intros [= <-]. apply incl_tl. apply dropWhile_incl.
Qed.

Lemma quoted_incl (s cap : jsstring) : RegExp.quoted s = Some cap -> incl cap s.
Proof.
  destruct s as [|q rest]; simpl; [discriminate|].
  destruct (char_eqb q c_quote); [|discriminate].
  destruct (RegExp.takeWhile _ rest) as [|a cap'] eqn:Et; [discriminate|].
  destruct (RegExp.dropWhile _ rest); [discriminate|].
  intros [= <-]. apply incl_tl. rewrite <- Et. apply takeWhile_incl.
Qed.

Lemma idLikeAt_incl (s cap : jsstring) : RegExp.idLikeAt s = Some cap -> incl cap s.
Proof.
  unfold RegExp.idLikeAt, RegExp.option_bind.
  destruct (RegExp.literal (js "id") s) as [r1|] eqn:E1; [|discriminate].
  destruct (RegExp.spaces1 r1) as [r2|] eqn:E2; [|discriminate].
  destruct (RegExp.literal (js "LIKE") r2) as [r3|] eqn:E3; [|discriminate].
  destruct (RegExp.spaces1 r3) as [r4|] eqn:E4; [|discriminate].
  intro H.
  apply quoted_incl in H. apply spaces1_incl in E4. apply literal_incl in E3.
  apply spaces1_incl in E2. apply literal_incl in E1.
  repeat (eapply incl_tran; [eassumption|]). apply incl_refl.
Qed.

Lemma firstMatch_incl (matchAt : jsstring -> option jsstring) :
  (forall s cap, matchAt s = Some cap -> incl cap s) ->
  forall s cap, RegExp.firstMatch matchAt s = Some cap -> incl cap s.
Proof.
  intros Hat. induction s as [|c t IH]; intros cap; simpl.
  - destruct (matchAt []) eqn:E; [|discriminate]. intros [= <-]. now apply Hat.
  - destruct (matchAt (c :: t)) eqn:E.
    + intros [= <-]. now apply Hat.
    + intro H. apply incl_tl. now apply IH.
Qed.

Lemma compileLike_total (cap : jsstring) :
  Forall (fun ch => RegExp.isSyntaxCharacter ch = false) cap ->
  exists regex, compileLike cap = Some regex.
Proof.
  induction 1 as [|c t Hc Ht [regex IH]]; simpl; [now eexists|].
  rewrite IH, Hc.
  destruct (char_eqb c c_percent); [now eexists|].
  destruct (char_eqb c c_underscore); now eexists.
Qed.

Lemma filterResults_total (keep : SearchResult Score -> option bool)
      (results : list (SearchResult Score)) :
  (forall r, exists b, keep r = Some b) ->
  exists kept, filterResults keep results = Some kept /\ incl kept results.
Proof.
  intro Hk. induction results as [|r rest (kept & IH & Hincl)]; simpl.
  - exists []. split; [reflexivity | apply incl_refl].
  - destruct (Hk r) as [b ->]. rewrite IH. destruct b.
    + exists (r :: kept). split; [reflexivity|].
      intros x [-> | H]; [now left | right; now apply Hincl].
    + exists kept. split; [reflexivity | now apply incl_tl].
Qed.

(** On a predicate of the builder, [applyFilter] stays inside the
    modelled regular expressions and returns some of the results it was
    given. *)
Lemma applyFilter_total (o : FilterOptions) (f : jsstring)
      (results : list (SearchResult Score)) :
  buildSafeFilter o = Ok (Some f) ->
  exists kept, applyFilter results f = Some kept /\ incl kept results.
Proof.
  intro Hf. apply buildSafeFilter_conditions in Hf as (conds & _ & _ & -> & Hw).
  pose proof (renderAll_no_syntax conds Hw) as Hsyn.
  unfold applyFilter. apply filterResults_total. intro r. unfold keeps.
  destruct (match RegExp.firstMatch RegExp.languageAt (Sql.renderAll conds) with
            | Some l => negb (str_eqb (language (record r)) l)
            | None => false
            end); [now eexists|].
  destruct (RegExp.firstMatch RegExp.idLikeAt (Sql.renderAll conds)) as [cap|] eqn:E;
    [|now eexists].
  apply (firstMatch_incl RegExp.idLikeAt idLikeAt_incl) in E.
  destruct (compileLike_total cap) as [regex ->]; [|now eexists].
  rewrite Forall_forall in *. intros ch Hin. apply Hsyn. now apply E.
Qed.

End FallbackFacts.

Section PipelineFacts.

Variable Score : Type.
Variable Vector : Type.
Variable score_zero : Score.
Variable score_sub : Score -> Score -> Score.
Variable score_leb : Score -> Score -> bool.
Variable embedQuery : jsstring -> Result Vector.
Variable boostKeywordMatches :
  jsstring -> list (SearchResult Score) -> list (SearchResult Score).
Variable crossEncoder : jsstring -> list (SearchResult Score) -> Result (list Score).

Local Abbreviation search :=
  (hybridSearch score_zero score_sub score_leb embedQuery boostKeywordMatches
     crossEncoder).

Lemma keywordOnlySearch_ok (query : jsstring) (store : VectorStore Score Vector)
      (options : SearchOptions) (filter : option jsstring)
      (found : list (SearchResult Score)) :
  let limit := orDefault (limit options) DEFAULT_LIMIT in
  isEmpty store = Ok false ->
  buildSafeFilter (filterOptions options) = Ok filter ->
  fullTextSearch store query (limit * 2)%Z = Ok found ->
  exists kept,
    incl kept found
    /\ keywordOnlySearch query store options
       = Ok (List.map (fun r => mkKeywordResult r true) (slice0 kept limit)).
Proof.
  intros limit He Hf Hs. unfold keywordOnlySearch. fold limit.
  rewrite He. simpl. rewrite Hf. simpl. rewrite Hs. simpl.
  destruct (present filter) as [f|] eqn:Ep.
  - assert (Hfilter : filter = Some f).
    { destruct filter as [f'|]; simpl in Ep; [|discriminate].
      destruct (truthy f'); [congruence | discriminate]. }
    subst filter.
    destruct (applyFilter_total Score _ f found Hf) as (kept & -> & Hincl).
    exists kept. split; [exact Hincl | reflexivity].
  - exists found. split; [apply incl_refl | reflexivity].
Qed.

Lemma keywordOnlySearch_length (query : jsstring) (store : VectorStore Score Vector)
      (options : SearchOptions) (results : list (KeywordSearchResult Score)) :
  let limit := orDefault (limit options) DEFAULT_LIMIT in
  (0 <= limit)%Z ->
  keywordOnlySearch query store options = Ok results ->
  (Z.of_nat (List.length results) <= limit)%Z.
Proof.
  intros limit Hl. unfold keywordOnlySearch. fold limit.
  destruct (isEmpty store) as [[|]|e]; simpl; try discriminate.
  - intros [= <-]. simpl. exact Hl.
  - destruct (buildSafeFilter (filterOptions options)) as [filter|e]; simpl;
      [|discriminate].
    destruct (fullTextSearch store query (limit * 2)%Z) as [found|e]; simpl;
      [|discriminate].
    destruct (present filter) as [f|].
    + destruct (applyFilter found f) as [kept|]; simpl; [|discriminate].
      intros [= <-]. rewrite length_map. now apply slice0_length.
    + simpl. intros [= <-]. rewrite length_map. now apply slice0_length.
Qed.

Lemma buildSafeFilter_throws (o : FilterOptions) (e : Thrown) :
  buildSafeFilter o = Throw e -> name e = InvalidFilterError.
Proof.
  unfold buildSafeFilter.
  destruct (pathStep o []) as [c1|e1] eqn:E1; simpl.
  - destruct (filePatternStep o c1) as [c2|e2] eqn:E2; simpl; [discriminate|].
    intros [= <-]. revert E2. unfold filePatternStep.
    destruct (present (FilterBuilder.filePattern o)) as [fp|]; [|discriminate].
    destruct (matchExtension fp) as [ext|].
    + destruct (present (lookup EXTENSION_TO_LANGUAGE (toLowerCaseAscii ext)))
        as [lang|]; [|discriminate].
      unfold buildLanguageCondition. destruct (negb (isLanguageName lang)); simpl.
      * intros [= <-]. reflexivity.
      * discriminate.
    + unfold buildFilePatternCondition, sanitizeGlobPattern.
      destruct (negb (validateFilterPattern (globTranslate fp))); simpl.
      * intros [= <-]. reflexivity.
      * discriminate.
  - intros [= <-]. now apply pathStep_throws in E1.
Qed.

Lemma rerank_length (query : jsstring) (candidates reranked : list (SearchResult Score))
      (k : Z) :
  (0 <= k)%Z ->
  rerank score_leb crossEncoder query candidates k = Ok reranked ->
  (Z.of_nat (List.length reranked) <= k)%Z.
Proof.
  intros Hk. unfold rerank.
  destruct (crossEncoder query candidates) as [scores|e]; simpl; [|discriminate].
  intros [= <-]. rewrite length_firstn. lia.
Qed.

Lemma fallback_enabled (query : jsstring) (store : VectorStore Score Vector)
      (options : SearchOptions) (error : Thrown) (filter : option jsstring)
      (found : list (SearchResult Score)) :
  let limit := orDefault (limit options) DEFAULT_LIMIT in
  isEmpty store = Ok false ->
  embedQuery query = Throw error ->
  isEmbeddingError error = true ->
  orDefault (fallbackToKeywordSearch options) true = true ->
  buildSafeFilter (filterOptions options) = Ok filter ->
  fullTextSearch store query (limit * 2)%Z = Ok found ->
  (0 <= limit)%Z ->
  exists results,
    search query store options = Ok results
    /\ (Z.of_nat (List.length results) <= limit)%Z
    /\ Forall (fun r => fromFallback r = Some true /\ In (h_result r) found) results.
Proof.
  intros limit He Hq Herr Hfb Hf Hs Hl.
  destruct (keywordOnlySearch_ok query store options filter found He Hf Hs)
    as (kept & Hincl & Hk).
  fold limit in Hk.
  unfold hybridSearch. rewrite He. simpl. rewrite Hq, Hfb, Herr. simpl.
  rewrite Hk. simpl. eexists. split; [reflexivity|]. split.
  - rewrite !length_map. now apply slice0_length.
  - rewrite map_map. apply Forall_forall. intros r Hin.
    apply in_map_iff in Hin as (x & <- & Hx). simpl. split; [reflexivity|].
    apply Hincl. eapply slice0_incl. exact Hx.
Qed.

Lemma fallback_invalid_filter (query : jsstring) (store : VectorStore Score Vector)
      (options : SearchOptions) (error : Thrown) :
  isEmpty store = Ok false ->
  embedQuery query = Throw error ->
  isEmbeddingError error = true ->
  orDefault (fallbackToKeywordSearch options) true = true ->
  raises (buildSafeFilter (filterOptions options)) InvalidFilterError ->
  raises (search query store options) InvalidFilterError.
Proof.
  intros He Hq Herr Hfb [msg Hf].
  unfold hybridSearch. rewrite He. simpl. rewrite Hq, Hfb, Herr. simpl.
  unfold keywordOnlySearch. rewrite He. simpl. rewrite Hf. simpl.
  exists msg. reflexivity.
Qed.

Lemma fallback_disabled (query : jsstring) (store : VectorStore Score Vector)
      (options : SearchOptions) (error : Thrown) :
  isEmpty store = Ok false ->
  embedQuery query = Throw error ->
  orDefault (fallbackToKeywordSearch options) true = false ->
  raises (search query store options) EmbeddingGenerationError.
Proof.
  intros He Hq Hfb.
  unfold hybridSearch. rewrite He. simpl. rewrite Hq, Hfb. simpl.
  eexists. reflexivity.
Qed.

Lemma search_length (query : jsstring) (store : VectorStore Score Vector)
      (options : SearchOptions) (results : list (HybridSearchResult Score)) :
  let limit := orDefault (limit options) DEFAULT_LIMIT in
  (0 <= limit)%Z ->
  search query store options = Ok results ->
  (Z.of_nat (List.length results) <= limit)%Z.
Proof.
  intros limit Hl. unfold hybridSearch. fold limit.
  destruct (isEmpty store) as [[|]|e]; simpl; try discriminate.
  { intros [= <-]. exact Hl. }
  destruct (embedQuery query) as [queryVector|error].
  - destruct (buildSafeFilter (filterOptions options)) as [filter|e]; simpl;
      [|discriminate].
    destruct (vectorSearch store queryVector _ filter) as [[|v vs]|e]; simpl;
      try discriminate.
    { intros [= <-]. exact Hl. }
    intros [= <-]. rewrite length_map.
    destruct (orDefault (useReranking options) true
              && (Z.of_nat (List.length (boostKeywordMatches query (v :: vs))) >? limit)%Z).
    + destruct (rerank score_leb crossEncoder query
                  (boostKeywordMatches query (v :: vs)) limit) as [reranked|e] eqn:R.
      * now apply rerank_length in R.
      * now apply slice0_length.
    + now apply slice0_length.
  - destruct (orDefault (fallbackToKeywordSearch options) true && isEmbeddingError error);
      [|discriminate].
    destruct (keywordOnlySearch query store options) as [kw|e] eqn:K; simpl;
      [|discriminate].
    intros [= <-]. rewrite length_map.
    now apply (keywordOnlySearch_length query store options kw).
Qed.

End PipelineFacts.

(** C4 (amended).  The query embedding is attempted (the store is not
    empty) and raises an embedder failure.  With [fallbackToKeywordSearch]
    true or absent: when the options' filter is valid and the store's
    full-text search answers, [hybridSearch] returns, for a non-negative
    limit, at most limit results, each flagged [fromFallback = true] and
    taken from the full-text answer for (query, limit*2); when the filter
    is invalid, [hybridSearch] raises invalid-filter.  With
    [fallbackToKeywordSearch] false, [hybridSearch] raises an
    embedding-generation error. *)
Theorem C4_keyword_fallback
        (Score Vector : Type) (score_zero : Score)
        (score_sub : Score -> Score -> Score) (score_leb : Score -> Score -> bool)
        (embedQuery : jsstring -> Result Vector)
        (boostKeywordMatches :
           jsstring -> list (SearchResult Score) -> list (SearchResult Score))
        (crossEncoder : jsstring -> list (SearchResult Score) -> Result (list Score))
        (query : jsstring) (store : VectorStore Score Vector)
        (options : SearchOptions) (error : Thrown) :
  let run := hybridSearch score_zero score_sub score_leb embedQuery
               boostKeywordMatches crossEncoder query store options in
  let limit := orDefault (limit options) DEFAULT_LIMIT in
  isEmpty store = Ok false ->
  embedQuery query = Throw error ->
  isEmbeddingError error = true ->
  (orDefault (fallbackToKeywordSearch options) true = true ->
     (forall filter found,
         buildSafeFilter (filterOptions options) = Ok filter ->
         fullTextSearch store query (limit * 2)%Z = Ok found ->
         (0 <= limit)%Z ->
         exists results,
           run = Ok results
           /\ (Z.of_nat (List.length results) <= limit)%Z
           /\ Forall (fun r => fromFallback r = Some true /\ In (h_result r) found)
                     results)
     /\ (raises (buildSafeFilter (filterOptions options)) InvalidFilterError ->
         raises run InvalidFilterError))
  /\ (orDefault (fallbackToKeywordSearch options) true = false ->
      raises run EmbeddingGenerationError).
Proof.
  intros run limit He Hq Herr. split.
  - intro Hfb. split.
    + intros filter found Hf Hs Hl.
      now apply fallback_enabled with (error := error) (filter := filter).
    + intro Hf. now apply fallback_invalid_filter with (error := error).
  - intro Hfb. now apply fallback_disabled with (error := error).
Qed.

(** The embedder fails to load its model; three chunks are indexed and
    the limit is 2.  By default two fallback results come back; with the
    fallback switched off the call raises. *)
Lemma C4_keyword_fallback_witness :
  let store := Fixtures.storeOf Fixtures.threeHits in
  let on := mkSearchOptions (Some 2%Z) None None None None None in
  let off := mkSearchOptions (Some 2%Z) None None None None (Some false) in
  (exists results,
      Fixtures.searchWith Fixtures.failingEmbedder (js "login") store on = Ok results
      /\ (Z.of_nat (List.length results) <= 2)%Z
      /\ Forall (fun r => fromFallback r = Some true
                          /\ In (h_result r) (slice0 Fixtures.threeHits 4))
                results)
  /\ raises (Fixtures.searchWith Fixtures.failingEmbedder (js "login") store off)
            EmbeddingGenerationError.
Proof.
  intros store on off.
  pose (error := mkThrown ModelLoadError (js "model unavailable")).
  split.
  - destruct (C4_keyword_fallback Z unit 0%Z Z.sub Z.leb Fixtures.failingEmbedder
                Fixtures.noBoost Fixtures.failingCrossEncoder (js "login") store on error
                eq_refl eq_refl eq_refl) as [Hon _].
    destruct (Hon eq_refl) as [Hok _].
    exact (Hok None (slice0 Fixtures.threeHits 4) eq_refl eq_refl ltac:(discriminate)).
  - destruct (C4_keyword_fallback Z unit 0%Z Z.sub Z.leb Fixtures.failingEmbedder
                Fixtures.noBoost Fixtures.failingCrossEncoder (js "login") store off error
                eq_refl eq_refl eq_refl) as [_ Hoff].
    exact (Hoff eq_refl).
Defined.

(** C4 as stated fails when the options carry an invalid filter: the
    embedder fails, the fallback is on by default, and [hybridSearch]
    raises invalid-filter instead of returning. *)
Lemma C4_counterexample :
  let store := Fixtures.storeOf Fixtures.threeHits in
  let options := mkSearchOptions None None (Some (js "'; DROP TABLE--")) None None None in
  isEmbeddingError (mkThrown ModelLoadError (js "model unavailable")) = true
  /\ orDefault (fallbackToKeywordSearch options) true = true
  /\ raises (Fixtures.searchWith Fixtures.failingEmbedder (js "login") store options)
            InvalidFilterError
  /\ ~ returns (Fixtures.searchWith Fixtures.failingEmbedder (js "login") store options).
Proof.
  cbv zeta. split; [reflexivity|]. split; [reflexivity|]. split.
  - eexists. vm_compute. reflexivity.
  - intros [rs H]. vm_compute in H. discriminate H.
Qed.

(** C8 (amended).  For a non-negative limit, [hybridSearch] returns at
    most limit results; without a limit option the limit is 10, so at most
    10 results come back.  No ceiling of 50 is applied by [hybridSearch]. *)
Theorem C8_limit_bound
        (Score Vector : Type) (score_zero : Score)
        (score_sub : Score -> Score -> Score) (score_leb : Score -> Score -> bool)
        (embedQuery : jsstring -> Result Vector)
        (boostKeywordMatches :
           jsstring -> list (SearchResult Score) -> list (SearchResult Score))
        (crossEncoder : jsstring -> list (SearchResult Score) -> Result (list Score))
        (query : jsstring) (store : VectorStore Score Vector)
        (options : SearchOptions) (results : list (HybridSearchResult Score)) :
  hybridSearch score_zero score_sub score_leb embedQuery boostKeywordMatches
    crossEncoder query store options = Ok results ->
  (forall l, limit options = Some l -> (0 <= l)%Z ->
             (Z.of_nat (List.length results) <= l)%Z)
  /\ (limit options = None -> (Z.of_nat (List.length results) <= 10)%Z).
Proof.
  intro H. split.
  - intros l Hl Hpos.
    pose proof (search_length Score Vector score_zero score_sub score_leb embedQuery
                  boostKeywordMatches crossEncoder query store options results) as B.
    simpl in B. rewrite Hl in B. simpl in B. now apply B.
  - intro Hl.
    pose proof (search_length Score Vector score_zero score_sub score_leb embedQuery
                  boostKeywordMatches crossEncoder query store options results) as B.
    simpl in B. rewrite Hl in B. simpl in B. apply B; [unfold DEFAULT_LIMIT; lia | exact H].
Qed.

(** Sixty chunks are indexed.  Without a limit ten results come back;
    with limit 20, twenty. *)
Lemma C8_limit_bound_witness :
  let store := Fixtures.storeOf (List.repeat (Fixtures.hit (js "a.ts") (js "typescript")) 60) in
  let twenty := mkSearchOptions (Some 20%Z) None None (Some false) None None in
  (exists results,
      Fixtures.searchWith Fixtures.workingEmbedder (js "f") store Fixtures.defaults
      = Ok results
      /\ (Z.of_nat (List.length results) <= 10)%Z)
  /\ (exists results,
        Fixtures.searchWith Fixtures.workingEmbedder (js "f") store twenty = Ok results
        /\ (Z.of_nat (List.length results) <= 20)%Z).
Proof.
  intros store twenty. split.
  - destruct (Fixtures.searchWith Fixtures.workingEmbedder (js "f") store Fixtures.defaults)
      as [results|e] eqn:H.
    + exists results. split; [reflexivity|].
      destruct (C8_limit_bound Z unit 0%Z Z.sub Z.leb Fixtures.workingEmbedder Fixtures.noBoost
                  Fixtures.failingCrossEncoder (js "f") store Fixtures.defaults results H)
        as [_ Hdefault].
      exact (Hdefault eq_refl).
    + vm_compute in H. discriminate H.
  - destruct (Fixtures.searchWith Fixtures.workingEmbedder (js "f") store twenty)
      as [results|e] eqn:H.
    + exists results. split; [reflexivity|].
      destruct (C8_limit_bound Z unit 0%Z Z.sub Z.leb Fixtures.workingEmbedder Fixtures.noBoost
                  Fixtures.failingCrossEncoder (js "f") store twenty results H)
        as [Hlimit _].
      exact (Hlimit 20%Z eq_refl ltac:(discriminate)).
    + vm_compute in H. discriminate H.
Defined.

(** C8 as stated fails above 50: with limit 51 and sixty chunks indexed,
    [hybridSearch] returns 51 results. *)
Lemma C8_counterexample :
  let store := Fixtures.storeOf (List.repeat (Fixtures.hit (js "a.ts") (js "typescript")) 60) in
  let options := mkSearchOptions (Some 51%Z) None None (Some false) None None in
  exists results,
    Fixtures.searchWith Fixtures.workingEmbedder (js "f") store options = Ok results
    /\ List.length results = 51%nat
    /\ ~ (Z.of_nat (List.length results) <= 50)%Z.
Proof.
  cbv zeta.
  destruct (Fixtures.searchWith Fixtures.workingEmbedder (js "f")
              (Fixtures.storeOf (List.repeat (Fixtures.hit (js "a.ts") (js "typescript")) 60))
              (mkSearchOptions (Some 51%Z) None None (Some false) None None))
    as [results|e] eqn:H.
  - exists results. split; [reflexivity|].
    vm_compute in H. injection H as <-. split; [reflexivity | simpl; lia].
  - vm_compute in H. discriminate H.
Qed.

(** C6.  The client-side filter of the keyword fallback is not the
    store-side predicate.  For the file pattern [**/*.test.ts] the record
    of src/a.test.ts does not satisfy [id LIKE '%%_%_test_ts'] in SQL (its
    id ends in [_L1]), yet [applyFilter] keeps it: the regular expression
    has no end anchor.  For path [src] with file pattern [**/*.py] the
    same record fails the second condition of the conjunction, under SQL
    and under the code's own regular expression for it, yet [applyFilter]
    keeps it: only the first [id LIKE] condition is read. *)
Theorem C6_fallback_filter_differs :
  let r := Fixtures.hit (js "src/a.test.ts") (js "typescript") in
  let suffix := [Sql.FileLike (js "%_%_test_ts")] in
  let both := [Sql.PathLike (js "src"); Sql.FileLike (js "%_%_py")] in
  (buildSafeFilter (mkFilterOptions None (Some (js "**/*.test.ts")))
   = Ok (Some (Sql.renderAll suffix))
   /\ Sql.satisfiesAll (record r) suffix = false
   /\ applyFilter [r] (Sql.renderAll suffix) = Some [r])
  /\ (buildSafeFilter (mkFilterOptions (Some (js "src")) (Some (js "**/*.py")))
      = Ok (Some (Sql.renderAll both))
      /\ Sql.satisfiesAll (record r) both = false
      /\ option_map (fun regex => RegExp.test regex (id (record r)))
                    (compileLike (js "%%_%_py")) = Some false
      /\ applyFilter [r] (Sql.renderAll both) = Some [r]).
Proof.
  cbv zeta. repeat split; vm_compute; reflexivity.
Qed.

(* ================================================================== *)
(** * Further properties of the same modules *)
(* ================================================================== *)

(** ** The sanitizers *)

Section SanitizerFacts.

Lemma safe_not_meta (c : char) : isSafeChar c = true -> isGlobMeta c = false.
Proof.
  intro Hs. unfold isGlobMeta, isSeparator, isDot, char_eqb.
  destruct (N.eqb_spec c c_backslash) as [-> | _];
    [exfalso; revert Hs; vm_compute; discriminate|].
  destruct (N.eqb_spec c c_slash) as [-> | _];
    [exfalso; revert Hs; vm_compute; discriminate|].
  destruct (N.eqb_spec c c_dot) as [-> | _];
    [exfalso; revert Hs; vm_compute; discriminate|].
  destruct (N.eqb_spec c c_star) as [-> | _];
    [exfalso; revert Hs; vm_compute; discriminate|].
  destruct (N.eqb_spec c c_question) as [-> | _];
    [exfalso; revert Hs; vm_compute; discriminate|].
  reflexivity.
Qed.

Lemma replaceClass_id (cls : char -> bool) (r : char) (s : jsstring) :
  Forall (fun c => cls c = false) s -> replaceClass cls r s = s.
Proof.
  induction 1 as [|c t Hc _ IH]; [reflexivity|].
  unfold replaceClass in *. simpl. now rewrite Hc, IH.
Qed.

Lemma replaceStarStar_id (s : jsstring) :
  Forall (fun c => char_eqb c c_star = false) s -> replaceStarStar s = s.
Proof.
  induction 1 as [|c t Hc _ IH]; [reflexivity|].
  simpl. now rewrite Hc, IH.
Qed.

Lemma replaceStarStar_length (n : nat) :
  forall s, (List.length s <= n)%nat ->
            (List.length (replaceStarStar s) <= List.length s)%nat.
Proof.
  induction n as [|n IH]; intros s Hlen.
  - destruct s; [simpl; lia | simpl in Hlen; lia].
  - destruct s as [|x t]; [simpl; lia|]. simpl in Hlen. simpl.
    destruct (char_eqb x c_star).
    + destruct t as [|y t2]; [simpl; lia|].
      destruct (char_eqb y c_star); simpl.
      * assert (H := IH t2). simpl in Hlen. specialize (H ltac:(lia)). lia.
      * assert (H := IH (y :: t2) ltac:(simpl in *; lia)). simpl in H. lia.
    + simpl. assert (H := IH t ltac:(lia)). lia.
Qed.

Lemma globTranslate_length (p : jsstring) :
  (List.length (globTranslate p) <= List.length p)%nat.
Proof.
  unfold globTranslate. rewrite !replaceClass_length.
  now apply replaceStarStar_length with (n := List.length p).
Qed.

Lemma meta_free (s : jsstring) :
  Forall (fun c => isSafeChar c = true) s ->
  Forall (fun c => isSeparator c = false) s
  /\ Forall (fun c => isDot c = false) s
  /\ Forall (fun c => char_eqb c c_star = false) s
  /\ Forall (fun c => char_eqb c c_question = false) s.
Proof.
  intro H. repeat split; eapply Forall_impl; try exact H; intros c Hc;
    apply safe_not_meta in Hc; apply isGlobMeta_false in Hc; tauto.
Qed.

Lemma pathTranslate_id (s : jsstring) :
  Forall (fun c => isSafeChar c = true) s -> pathTranslate s = s.
Proof.
  intro H. destruct (meta_free s H) as (Hsep & Hdot & _ & _).
  unfold pathTranslate. rewrite (replaceClass_id _ _ _ Hsep).
  now apply replaceClass_id.
Qed.

Lemma globTranslate_id (s : jsstring) :
  Forall (fun c => isSafeChar c = true) s -> globTranslate s = s.
Proof.
  intro H. destruct (meta_free s H) as (Hsep & Hdot & Hstar & Hq).
  unfold globTranslate. rewrite (replaceStarStar_id _ Hstar).
  rewrite (replaceClass_id _ _ _ Hstar), (replaceClass_id _ _ _ Hq).
  rewrite (replaceClass_id _ _ _ Hsep). now apply replaceClass_id.
Qed.

Lemma sanitizePathPattern_inv (p s : jsstring) :
  sanitizePathPattern p = Ok s ->
  s = pathTranslate p /\ validateFilterPattern s = true.
Proof.
  unfold sanitizePathPattern.
  destruct (validateFilterPattern (pathTranslate p)) eqn:V; simpl; [|discriminate].
  intros [= <-]. auto.
Qed.

Lemma sanitizeGlobPattern_inv (p s : jsstring) :
  sanitizeGlobPattern p = Ok s ->
  s = globTranslate p /\ validateFilterPattern s = true.
Proof.
  unfold sanitizeGlobPattern.
  destruct (validateFilterPattern (globTranslate p)) eqn:V; simpl; [|discriminate].
  intros [= <-]. auto.
Qed.

End SanitizerFacts.

(** X1.  A path that [sanitizePathPattern] accepts comes back with the
    same length, free of separators, dots and glob characters, on the
    whitelist, and sanitizing it again returns it unchanged. *)
Theorem X1_sanitizePathPattern_stable (p s : jsstring) :
  sanitizePathPattern p = Ok s ->
  List.length s = List.length p
  /\ onWhitelist s
  /\ Forall (fun c => isGlobMeta c = false) s
  /\ sanitizePathPattern s = Ok s.
Proof.
  intro H. apply sanitizePathPattern_inv in H as [-> V].
  pose proof (validate_onWhitelist _ V) as W. destruct W as (Hne & Hsafe & Hlen).
  split; [apply pathTranslate_length|]. split; [now repeat split|]. split.
  - eapply Forall_impl; [|exact Hsafe]. intros c. apply safe_not_meta.
  - unfold sanitizePathPattern. rewrite (pathTranslate_id _ Hsafe), V. reflexivity.
Qed.

Lemma X1_sanitizePathPattern_stable_witness :
  sanitizePathPattern (js "src\utils/index.ts") = Ok (js "src_utils_index_ts")
  /\ sanitizePathPattern (js "src_utils_index_ts") = Ok (js "src_utils_index_ts").
Proof.
  assert (H : sanitizePathPattern (js "src\utils/index.ts") = Ok (js "src_utils_index_ts"))
    by (vm_compute; reflexivity).
  split; [exact H|].
  destruct (X1_sanitizePathPattern_stable _ _ H) as (_ & _ & _ & Hs). exact Hs.
Defined.

(** X2.  A glob that [sanitizeGlobPattern] accepts comes back no longer
    than it was, on the whitelist, free of [*], [?], separators and dots,
    and sanitizing the result again returns it unchanged. *)
Theorem X2_sanitizeGlobPattern_stable (p s : jsstring) :
  sanitizeGlobPattern p = Ok s ->
  (List.length s <= List.length p)%nat
  /\ onWhitelist s
  /\ Forall (fun c => isGlobMeta c = false) s
  /\ sanitizeGlobPattern s = Ok s.
Proof.
  intro H. apply sanitizeGlobPattern_inv in H as [-> V].
  pose proof (validate_onWhitelist _ V) as W. destruct W as (Hne & Hsafe & Hlen).
  split; [apply globTranslate_length|]. split; [now repeat split|]. split.
  - eapply Forall_impl; [|exact Hsafe]. intros c. apply safe_not_meta.
  - unfold sanitizeGlobPattern. rewrite (globTranslate_id _ Hsafe), V. reflexivity.
Qed.

Lemma X2_sanitizeGlobPattern_stable_witness :
  sanitizeGlobPattern (js "**/*.test.ts") = Ok (js "%_%_test_ts")
  /\ sanitizeGlobPattern (js "%_%_test_ts") = Ok (js "%_%_test_ts").
Proof.
  assert (H : sanitizeGlobPattern (js "**/*.test.ts") = Ok (js "%_%_test_ts"))
    by (vm_compute; reflexivity).
  split; [exact H|].
  destruct (X2_sanitizeGlobPattern_stable _ _ H) as (_ & _ & _ & Hs). exact Hs.
Defined.

(** ** When the builder writes no predicate, and case of extensions *)

Section BuilderFacts.

Lemma lookup_truthy (ext lang : jsstring) :
  lookup EXTENSION_TO_LANGUAGE ext = Some lang -> truthy lang = true.
Proof.
  intro H. apply lookup_language in H. unfold isLanguageName in H.
  now apply andb_true_iff in H as [H _].
Qed.

Lemma asciiToLower_letter (c : char) :
  isLetterIgnoreCase c = true -> isLetterIgnoreCase (asciiToLower c) = true.
Proof.
  unfold isLetterIgnoreCase, asciiToLower, isLower, isUpper, between.
  intro H. destruct (N.leb 65 c && N.leb c 90) eqn:U; [|now rewrite U].
  apply andb_true_iff in U as [U1 U2]. apply N.leb_le in U1, U2.
  apply orb_true_iff. left. apply andb_true_iff. split; apply N.leb_le; lia.
Qed.

Lemma asciiToLower_idempotent (c : char) :
  asciiToLower (asciiToLower c) = asciiToLower c.
Proof.
  unfold asciiToLower, isUpper, between.
  destruct (N.leb 65 c && N.leb c 90) eqn:U; [|now rewrite U].
  apply andb_true_iff in U as [U1 U2]. apply N.leb_le in U1, U2.
  destruct (N.leb 65 (c + 32) && N.leb (c + 32) 90) eqn:V; [|reflexivity].
  apply andb_true_iff in V as [V1 V2]. apply N.leb_le in V2. lia.
Qed.

Lemma toLowerCaseAscii_idempotent (s : jsstring) :
  toLowerCaseAscii (toLowerCaseAscii s) = toLowerCaseAscii s.
Proof.
  unfold toLowerCaseAscii. rewrite map_map. apply map_ext.
  intro c. apply asciiToLower_idempotent.
Qed.

Lemma matchExtension_lower (fp ext : jsstring) :
  matchExtension fp = Some ext ->
  matchExtension (toLowerCaseAscii fp) = Some (toLowerCaseAscii ext).
Proof.
  intro H. apply matchExtension_shape in H as (letters & -> & -> & Hne & Hl).
  destruct letters as [|l letters]; [contradiction|].
  unfold matchExtension. cbn [toLowerCaseAscii List.map].
  change (asciiToLower c_star) with c_star.
  change (asciiToLower c_dot) with c_dot.
  change (char_eqb c_star c_star) with true.
  change (char_eqb c_dot c_dot) with true.
  cbn [andb].
  assert (F : forallb isLetterIgnoreCase (asciiToLower l :: List.map asciiToLower letters)
              = true).
  { change (forallb isLetterIgnoreCase (List.map asciiToLower (l :: letters)) = true).
    rewrite forallb_forall in *. intros c Hin.
    apply in_map_iff in Hin as (x & <- & Hx). apply asciiToLower_letter. now apply Hl. }
  rewrite F. reflexivity.
Qed.

Lemma filePatternStep_extension (o : FilterOptions) (fp ext : jsstring)
      (conds : list jsstring) :
  FilterBuilder.filePattern o = Some fp -> matchExtension fp = Some ext ->
  filePatternStep o conds
  = match lookup EXTENSION_TO_LANGUAGE (toLowerCaseAscii ext) with
    | Some lang => Ok (conds ++ [Sql.render (Sql.LanguageEq lang)])
    | None => Ok conds
    end.
Proof.
  intros Hfp Hext. unfold filePatternStep. rewrite Hfp.
  pose proof (matchExtension_shape _ _ Hext) as (letters & -> & _ & _ & _).
  cbn [present truthy]. rewrite Hext.
  destruct (lookup EXTENSION_TO_LANGUAGE (toLowerCaseAscii ext)) as [lang|] eqn:L;
    [|reflexivity].
  cbn [present]. rewrite (lookup_truthy _ _ L).
  unfold buildLanguageCondition. rewrite (lookup_language _ _ L). reflexivity.
Qed.

End BuilderFacts.

(** X3.  [buildSafeFilter] returns no predicate exactly when the path is
    absent or empty and the file pattern is absent, empty, or of the shape
    [*.ext] with an extension that is not in the language table. *)
Theorem X3_no_predicate (o : FilterOptions) :
  buildSafeFilter o = Ok None <->
  present (FilterBuilder.path o) = None
  /\ (present (FilterBuilder.filePattern o) = None
      \/ exists fp ext,
           present (FilterBuilder.filePattern o) = Some fp
           /\ matchExtension fp = Some ext
           /\ lookup EXTENSION_TO_LANGUAGE (toLowerCaseAscii ext) = None).
Proof.
  unfold buildSafeFilter.
  destruct (pathStep o []) as [c1|e1] eqn:E1; cbn [bind].
  - destruct (filePatternStep o c1) as [c2|e2] eqn:E2; cbn [bind].
    + pose proof (pathStep_ok _ _ _ E1) as P. pose proof (filePatternStep_ok _ _ _ E2) as F.
      unfold pathStep in E1. unfold filePatternStep in E2.
      destruct (present (FilterBuilder.path o)) as [p|] eqn:Pp.
      * split; [|intros [H _]; discriminate H].
        destruct (buildPathLikeCondition p); simpl in E1; [|discriminate].
        injection E1 as <-.
        destruct F as [-> | (c & _ & ->)]; simpl; discriminate.
      * injection E1 as <-.
        destruct (present (FilterBuilder.filePattern o)) as [fp|] eqn:Pf.
        -- destruct (matchExtension fp) as [ext|] eqn:M.
           ++ destruct (lookup EXTENSION_TO_LANGUAGE (toLowerCaseAscii ext))
                as [lang|] eqn:L.
              ** cbn [present] in E2. rewrite (lookup_truthy _ _ L) in E2.
                 destruct (buildLanguageCondition lang); simpl in E2; [|discriminate].
                 injection E2 as <-. split; [intro H; simpl in H; discriminate H|].
                 intros [_ [H | (fp' & ext' & H1 & H2 & H3)]]; [discriminate|].
                 injection H1 as <-. rewrite M in H2. injection H2 as <-.
                 rewrite L in H3. discriminate H3.
              ** simpl in E2. injection E2 as <-. split; [|reflexivity].
                 intros _. split; [reflexivity|]. right. now exists fp, ext.
           ++ destruct (buildFilePatternCondition fp); simpl in E2; [|discriminate].
              injection E2 as <-. split; [intro H; simpl in H; discriminate H|].
              intros [_ [H | (fp' & ext' & H1 & H2 & _)]]; [discriminate|].
              injection H1 as <-. rewrite M in H2. discriminate H2.
        -- injection E2 as <-. split; [|reflexivity]. intros _. now split; [|left].
    + split; [discriminate|]. intros [Hp Hf]. exfalso.
      unfold pathStep in E1. rewrite Hp in E1. injection E1 as <-.
      unfold filePatternStep in E2.
      destruct Hf as [Hf | (fp & ext & Hf & M & L)]; rewrite Hf in E2; [discriminate|].
      rewrite M, L in E2. discriminate.
  - split; [discriminate|]. intros [Hp _]. exfalso.
    unfold pathStep in E1. rewrite Hp in E1. discriminate.
Qed.

(** X4.  The extension of a [*.ext] file pattern is read without regard
    to case: the pattern and its lower-case spelling give the same
    result, whatever the path option. *)
Theorem X4_extension_case_insensitive (path : option jsstring) (fp ext : jsstring) :
  matchExtension fp = Some ext ->
  buildSafeFilter (mkFilterOptions path (Some fp))
  = buildSafeFilter (mkFilterOptions path (Some (toLowerCaseAscii fp))).
Proof.
  intro M. pose proof (matchExtension_lower _ _ M) as M'.
  unfold buildSafeFilter.
  change (pathStep (mkFilterOptions path (Some (toLowerCaseAscii fp))) [])
    with (pathStep (mkFilterOptions path (Some fp)) []).
  destruct (pathStep (mkFilterOptions path (Some fp)) []) as [c1|e]; cbn [bind];
    [|reflexivity].
  rewrite (filePatternStep_extension (mkFilterOptions path (Some fp)) fp ext c1
             eq_refl M).
  rewrite (filePatternStep_extension (mkFilterOptions path (Some (toLowerCaseAscii fp)))
             (toLowerCaseAscii fp) (toLowerCaseAscii ext) c1 eq_refl M').
  rewrite toLowerCaseAscii_idempotent. reflexivity.
Qed.

Lemma X4_extension_case_insensitive_witness :
  matchExtension (js "*.TSX") = Some (js ".TSX")
  /\ buildSafeFilter (mkFilterOptions None (Some (js "*.TSX")))
     = buildSafeFilter (mkFilterOptions None (Some (js "*.tsx"))).
Proof.
  split; [reflexivity|].
  exact (X4_extension_case_insensitive None (js "*.TSX") (js ".TSX") eq_refl).
Defined.

(** ** Path predicates against chunk ids *)

Section LikeFacts.

Lemma like_cons (p : char) (pat s : jsstring) :
  Sql.like (p :: pat) s
  = if char_eqb p c_percent then
      Sql.like pat s
      || match s with
         | _ :: s' => Sql.like (p :: pat) s'
         | [] => false
         end
    else if char_eqb p c_underscore then
      match s with
      | _ :: s' => Sql.like pat s'
      | [] => false
      end
    else
      match s with
      | x :: s' => char_eqb x p && Sql.like pat s'
      | [] => false
      end.
Proof.
  destruct s as [|x s']; simpl; destruct (char_eqb p c_percent); reflexivity.
Qed.

Lemma like_any (s : jsstring) : Sql.like [c_percent] s = true.
Proof.
  induction s as [|x s IH]; rewrite like_cons; [reflexivity|].
  change (char_eqb c_percent c_percent) with true. cbv iota.
  rewrite IH. apply orb_true_r.
Qed.

(** A pattern followed by [%] accepts every string that begins with the
    pattern's own text. *)
Lemma like_own_prefix (s t : jsstring) : Sql.like (s ++ [c_percent]) (s ++ t) = true.
Proof.
  induction s as [|c s IH]; [apply like_any|].
  cbn [app]. rewrite like_cons.
  destruct (char_eqb c c_percent) eqn:P.
  - apply orb_true_iff. right. rewrite like_cons, P. rewrite IH. reflexivity.
  - destruct (char_eqb c c_underscore); [exact IH|].
    unfold char_eqb at 1. rewrite N.eqb_refl. exact IH.
Qed.

Lemma pathTranslate_app (a b : jsstring) :
  pathTranslate (a ++ b) = pathTranslate a ++ pathTranslate b.
Proof. unfold pathTranslate, replaceClass. now rewrite !map_app. Qed.

End LikeFacts.

(** X5.  The predicate built for a directory path is
    [id LIKE '<path with separators and dots replaced>%'], and under SQL
    semantics it accepts the chunk id of every file whose path begins
    with that directory path, at every line and with every suffix. *)
Theorem X5_path_predicate_accepts_directory
        (p rest suffix predicate : jsstring) (line : N) :
  buildSafeFilter (mkFilterOptions (Some p) None) = Ok (Some predicate) ->
  predicate = Sql.render (Sql.PathLike (pathTranslate p))
  /\ forall r : VectorRecord,
       id r = pathToChunkId (p ++ rest) line suffix ->
       Sql.satisfies r (Sql.PathLike (pathTranslate p)) = true.
Proof.
  intro H. split.
  - unfold buildSafeFilter, pathStep, filePatternStep in H. cbn [present FilterBuilder.path
      FilterBuilder.filePattern] in H.
    destruct (truthy p); [|discriminate H].
    unfold buildPathLikeCondition, sanitizePathPattern in H.
    destruct (validateFilterPattern (pathTranslate p)); [|discriminate H].
    simpl in H. injection H as <-. reflexivity.
  - intros r Hid. unfold Sql.satisfies. rewrite Hid. unfold pathToChunkId.
    fold (pathTranslate (p ++ rest)). rewrite pathTranslate_app, <- app_assoc.
    apply like_own_prefix.
Qed.

Lemma X5_path_predicate_accepts_directory_witness :
  buildSafeFilter (mkFilterOptions (Some (js "src/auth")) None)
  = Ok (Some (js "id LIKE 'src_auth%'"))
  /\ Sql.satisfies (Fixtures.chunkOf (js "src/auth/login.ts") (js "typescript"))
       (Sql.PathLike (js "src_auth")) = true.
Proof.
  assert (H : buildSafeFilter (mkFilterOptions (Some (js "src/auth")) None)
              = Ok (Some (js "id LIKE 'src_auth%'"))) by (vm_compute; reflexivity).
  split; [exact H|].
  destruct (X5_path_predicate_accepts_directory (js "src/auth") (js "/login.ts") []
              (js "id LIKE 'src_auth%'") 1%N H) as [_ Hsat].
  exact (Hsat (Fixtures.chunkOf (js "src/auth/login.ts") (js "typescript")) eq_refl).
Defined.

(** ** Where the fallback filter and the store agree *)

Section FallbackAgreement.

Variable Score : Type.

Lemma test_star (rest : list RegExp.Token) (s : jsstring) :
  RegExp.test (RegExp.TStar :: rest) s
  = RegExp.test rest s
    || match s with
       | x :: s' => negb (isLineTerminator x) && RegExp.test (RegExp.TStar :: rest) s'
       | [] => false
       end.
Proof. destruct s; reflexivity. Qed.

Lemma safe_not_quote (c : char) : isSafeChar c = true -> char_eqb c c_quote = false.
Proof.
  intro Hs. unfold char_eqb. destruct (N.eqb_spec c c_quote) as [-> | _]; [|reflexivity].
  exfalso. revert Hs. vm_compute. discriminate.
Qed.

Lemma takeWhile_stop (p : char -> bool) (a : jsstring) (x : char) (r : jsstring) :
  Forall (fun c => p c = true) a -> p x = false ->
  RegExp.takeWhile p (a ++ x :: r) = a /\ RegExp.dropWhile p (a ++ x :: r) = x :: r.
Proof.
  intros Ha Hx. induction Ha as [|c a Hc _ [IH1 IH2]]; simpl.
  - now rewrite Hx.
  - rewrite Hc. now rewrite IH1, IH2.
Qed.

Lemma quoted_value (v rest : jsstring) :
  v <> [] -> Forall (fun c => char_eqb c c_quote = false) v ->
  RegExp.quoted (c_quote :: v ++ c_quote :: rest) = Some v.
Proof.
  intros Hne Hv. unfold RegExp.quoted.
  change (char_eqb c_quote c_quote) with true. cbv iota.
  destruct (takeWhile_stop (fun c => negb (char_eqb c c_quote)) v c_quote rest)
    as [-> ->].
  - eapply Forall_impl; [|exact Hv]. intros c Hc. now rewrite Hc.
  - reflexivity.
  - destruct v; [contradiction | reflexivity].
Qed.

Lemma firstMatch_here (matchAt : jsstring -> option jsstring) (s cap : jsstring) :
  matchAt s = Some cap -> RegExp.firstMatch matchAt s = Some cap.
Proof. intro H. destruct s; simpl; now rewrite H. Qed.

Lemma firstMatch_needs (matchAt : jsstring -> option jsstring) (x : char) :
  (forall s cap, matchAt s = Some cap -> In x s) ->
  forall s cap, RegExp.firstMatch matchAt s = Some cap -> In x s.
Proof.
  intros Hat. induction s as [|c t IH]; intros cap; cbn [RegExp.firstMatch].
  - destruct (matchAt []) eqn:E; [|discriminate]. intros _. exact (Hat _ _ E).
  - destruct (matchAt (c :: t)) eqn:E.
    + intros _. exact (Hat _ _ E).
    + intro H. right. exact (IH _ H).
Qed.

Lemma literal_head (y : char) (lit s r : jsstring) :
  RegExp.literal (y :: lit) s = Some r -> In y s.
Proof.
  destruct s as [|x s]; simpl; [discriminate|].
  unfold char_eqb. destruct (N.eqb_spec x y) as [-> | _]; [|discriminate].
  intros _. now left.
Qed.

Lemma languageAt_needs_equals (s cap : jsstring) :
  RegExp.languageAt s = Some cap -> In c_equals s.
Proof.
  unfold RegExp.languageAt, RegExp.option_bind.
  destruct (RegExp.literal (js "language") s) as [r1|] eqn:E1; [|discriminate].
  destruct (RegExp.literal (js "=") (RegExp.dropWhile isWhiteSpace r1)) as [r2|] eqn:E2;
    [|discriminate].
  intros _. apply literal_incl in E1. apply E1.
  apply (dropWhile_incl isWhiteSpace). eapply literal_head. exact E2.
Qed.

Lemma idLikeAt_needs_L (s cap : jsstring) :
  RegExp.idLikeAt s = Some cap -> In 76%N s.
Proof.
  unfold RegExp.idLikeAt, RegExp.option_bind.
  destruct (RegExp.literal (js "id") s) as [r1|] eqn:E1; [|discriminate].
  destruct (RegExp.spaces1 r1) as [r2|] eqn:E2; [|discriminate].
  destruct (RegExp.literal (js "LIKE") r2) as [r3|] eqn:E3; [|discriminate].
  intros _. apply literal_incl in E1. apply E1.
  apply spaces1_incl in E2. apply E2. eapply literal_head. exact E3.
Qed.

Lemma filterResults_some (keep : SearchResult Score -> option bool)
      (g : SearchResult Score -> bool) (results : list (SearchResult Score)) :
  Forall (fun r => keep r = Some (g r)) results ->
  filterResults keep results = Some (List.filter g results).
Proof.
  induction 1 as [|r rest Hr _ IH]; simpl; [reflexivity|].
  rewrite Hr, IH. reflexivity.
Qed.

(** The predicates with one language condition. *)

Lemma languageAt_render (l : jsstring) :
  isLanguageName l = true ->
  RegExp.languageAt (Sql.render (Sql.LanguageEq l)) = Some l.
Proof.
  intro Hl. unfold isLanguageName in Hl. apply andb_true_iff in Hl as [Ht Hf].
  unfold Sql.render, RegExp.languageAt, RegExp.option_bind.
  change (js "language = '" ++ l ++ js "'")
    with (js "language" ++ (c_space :: c_equals :: c_space :: c_quote :: l ++ [c_quote])).
  change (RegExp.literal (js "language")
            (js "language" ++ c_space :: c_equals :: c_space :: c_quote :: l ++ [c_quote]))
    with (Some (c_space :: c_equals :: c_space :: c_quote :: l ++ [c_quote])).
  change (RegExp.dropWhile isWhiteSpace
            (c_space :: c_equals :: c_space :: c_quote :: l ++ [c_quote]))
    with (c_equals :: c_space :: c_quote :: l ++ [c_quote]).
  change (RegExp.literal (js "=") (c_equals :: c_space :: c_quote :: l ++ [c_quote]))
    with (Some (c_space :: c_quote :: l ++ [c_quote])).
  change (RegExp.dropWhile isWhiteSpace (c_space :: c_quote :: l ++ [c_quote]))
    with (c_quote :: l ++ [c_quote]).
  apply quoted_value.
  - destruct l; [discriminate | discriminate].
  - apply Forall_forall. intros c Hin. rewrite forallb_forall in Hf.
    apply safe_not_quote. apply lower_is_safe. now apply Hf.
Qed.

Lemma idLike_absent_language (l : jsstring) :
  isLanguageName l = true ->
  RegExp.firstMatch RegExp.idLikeAt (Sql.render (Sql.LanguageEq l)) = None.
Proof.
  intro Hl. unfold isLanguageName in Hl. apply andb_true_iff in Hl as [_ Hf].
  destruct (RegExp.firstMatch RegExp.idLikeAt (Sql.render (Sql.LanguageEq l))) eqn:E;
    [|reflexivity].
  exfalso. apply (firstMatch_needs RegExp.idLikeAt 76%N idLikeAt_needs_L) in E.
  unfold Sql.render in E. rewrite !in_app_iff in E.
  destruct E as [E | [E | E]].
  - vm_compute in E. repeat (destruct E as [E | E]; [discriminate E|]). exact E.
  - rewrite forallb_forall in Hf. apply Hf in E. vm_compute in E. discriminate E.
  - vm_compute in E. repeat (destruct E as [E | E]; [discriminate E|]). exact E.
Qed.

(** The predicates with one path condition. *)

Lemma idLikeAt_render (v : jsstring) :
  Forall (fun c => isSafeChar c = true) v ->
  RegExp.idLikeAt (Sql.render (Sql.PathLike v)) = Some (v ++ [c_percent]).
Proof.
  intro Hv. unfold Sql.render, RegExp.idLikeAt, RegExp.option_bind.
  change (js "id LIKE '" ++ v ++ js "%'")
    with (js "id" ++ c_space :: js "LIKE" ++ c_space :: c_quote :: v ++ [c_percent; c_quote]).
  change (RegExp.literal (js "id")
            (js "id" ++ c_space :: js "LIKE" ++ c_space :: c_quote
                                :: v ++ [c_percent; c_quote]))
    with (Some (c_space :: js "LIKE" ++ c_space :: c_quote :: v ++ [c_percent; c_quote])).
  change (RegExp.spaces1
            (c_space :: js "LIKE" ++ c_space :: c_quote :: v ++ [c_percent; c_quote]))
    with (Some (js "LIKE" ++ c_space :: c_quote :: v ++ [c_percent; c_quote])).
  change (RegExp.literal (js "LIKE")
            (js "LIKE" ++ c_space :: c_quote :: v ++ [c_percent; c_quote]))
    with (Some (c_space :: c_quote :: v ++ [c_percent; c_quote])).
  change (RegExp.spaces1 (c_space :: c_quote :: v ++ [c_percent; c_quote]))
    with (Some (c_quote :: v ++ [c_percent; c_quote])).
  change (v ++ [c_percent; c_quote]) with (v ++ [c_percent] ++ [c_quote]).
  rewrite app_assoc. apply quoted_value.
  - destruct v; discriminate.
  - apply Forall_app. split; [|repeat constructor].
    eapply Forall_impl; [|exact Hv]. intros c. apply safe_not_quote.
Qed.

Lemma language_absent_path (v : jsstring) :
  Forall (fun c => isSafeChar c = true) v ->
  RegExp.firstMatch RegExp.languageAt (Sql.render (Sql.PathLike v)) = None.
Proof.
  intro Hv.
  destruct (RegExp.firstMatch RegExp.languageAt (Sql.render (Sql.PathLike v))) eqn:E;
    [|reflexivity].
  exfalso. apply (firstMatch_needs RegExp.languageAt c_equals languageAt_needs_equals) in E.
  unfold Sql.render in E. rewrite !in_app_iff in E.
  destruct E as [E | [E | E]].
  - vm_compute in E. repeat (destruct E as [E | E]; [discriminate E|]). exact E.
  - rewrite Forall_forall in Hv. apply Hv in E. vm_compute in E. discriminate E.
  - vm_compute in E. repeat (destruct E as [E | E]; [discriminate E|]). exact E.
Qed.

(** The regular expression built from a pattern ending in [%] accepts
    what SQL's LIKE accepts, on strings without line terminators. *)
Lemma compileLike_agrees (pat : jsstring) :
  Forall (fun ch => RegExp.isSyntaxCharacter ch = false) pat ->
  exists regex,
    compileLike (pat ++ [c_percent]) = Some regex
    /\ forall s, Forall (fun c => isLineTerminator c = false) s ->
                 RegExp.test regex s = Sql.like (pat ++ [c_percent]) s.
Proof.
  induction 1 as [|c pat Hc _ (regex & Hre & IH)].
  - exists [RegExp.TStar]. split; [reflexivity|].
    intros s _. cbn [app]. rewrite like_any, test_star. reflexivity.
  - cbn [app compileLike]. rewrite Hre.
    destruct (char_eqb c c_percent) eqn:P.
    + eexists. split; [reflexivity|].
      intros s Hs. induction Hs as [|x s Hx Hs IHs];
        rewrite test_star, like_cons, P.
      * rewrite IH by constructor. reflexivity.
      * rewrite IH by (constructor; assumption). rewrite Hx, IHs. reflexivity.
    + destruct (char_eqb c c_underscore) eqn:U.
      * eexists. split; [reflexivity|].
        intros s Hs. rewrite like_cons, P, U.
        destruct Hs as [|x s Hx Hs]; [reflexivity|].
        cbn [RegExp.test]. rewrite Hx. now rewrite IH.
      * rewrite Hc. eexists. split; [reflexivity|].
        intros s Hs. rewrite like_cons, P, U.
        destruct Hs as [|x s Hx Hs]; [reflexivity|].
        cbn [RegExp.test]. now rewrite IH.
Qed.

Lemma applyFilter_language (results : list (SearchResult Score)) (l : jsstring) :
  isLanguageName l = true ->
  applyFilter results (Sql.render (Sql.LanguageEq l))
  = Some (List.filter (fun r => Sql.satisfies (record r) (Sql.LanguageEq l)) results).
Proof.
  intro Hl. unfold applyFilter.
  rewrite (firstMatch_here _ _ _ (languageAt_render l Hl)), (idLike_absent_language l Hl).
  apply filterResults_some. apply Forall_forall. intros r _.
  unfold keeps, Sql.satisfies. destruct (str_eqb (language (record r)) l); reflexivity.
Qed.

Lemma applyFilter_path (results : list (SearchResult Score)) (v : jsstring) :
  onWhitelist v ->
  Forall (fun r => Forall (fun c => isLineTerminator c = false) (id (record r))) results ->
  applyFilter results (Sql.render (Sql.PathLike v))
  = Some (List.filter (fun r => Sql.satisfies (record r) (Sql.PathLike v)) results).
Proof.
  intros (_ & Hv & _) Hids. unfold applyFilter.
  rewrite (language_absent_path v Hv), (firstMatch_here _ _ _ (idLikeAt_render v Hv)).
  destruct (compileLike_agrees v (safe_string_no_syntax v Hv)) as (regex & Hre & Hag).
  apply filterResults_some. eapply Forall_impl; [|exact Hids].
  intros r Hr. unfold keeps, Sql.satisfies. rewrite Hre. now rewrite Hag.
Qed.

End FallbackAgreement.

(** X6.  On a predicate with a single language condition the fallback's
    [applyFilter] keeps exactly the results whose record satisfies the
    condition; on a predicate with a single path condition it keeps
    exactly the results whose record satisfies the condition under SQL's
    LIKE, provided no id holds a line terminator (which the regular
    expression's dot refuses). *)
Theorem X6_fallback_filter_single_condition
        (Score : Type) (results : list (SearchResult Score)) :
  (forall l,
      isLanguageName l = true ->
      applyFilter results (Sql.render (Sql.LanguageEq l))
      = Some (List.filter (fun r => Sql.satisfies (record r) (Sql.LanguageEq l)) results))
  /\ (forall v,
        onWhitelist v ->
        Forall (fun r => Forall (fun c => isLineTerminator c = false) (id (record r)))
               results ->
        applyFilter results (Sql.render (Sql.PathLike v))
        = Some (List.filter (fun r => Sql.satisfies (record r) (Sql.PathLike v)) results)).
Proof.
  split.
  - intros l Hl. now apply applyFilter_language.
  - intros v Hv Hids. now apply applyFilter_path.
Qed.

Lemma X6_fallback_filter_single_condition_witness :
  applyFilter Fixtures.threeHits (js "language = 'python'")
  = Some [Fixtures.hit (js "src/api/user.py") (js "python")]
  /\ applyFilter Fixtures.threeHits (js "id LIKE 'src_a%'")
     = Some [Fixtures.hit (js "src/auth/login.ts") (js "typescript");
             Fixtures.hit (js "src/api/user.py") (js "python");
             Fixtures.hit (js "src/a.test.ts") (js "typescript")].
Proof.
  destruct (X6_fallback_filter_single_condition Z Fixtures.threeHits) as [Hl Hp].
  split.
  - exact (Hl (js "python") eq_refl).
  - refine (Hp (js "src_a") _ _).
    + split; [discriminate|]. split; [repeat constructor | vm_compute; discriminate].
    + repeat constructor.
Defined.

(** ** Edges of the retrieval pipeline *)

(** X7.  On an empty store both [hybridSearch] and [keywordOnlySearch]
    return the empty list at once: whatever the options (an invalid
    filter included) and whatever the embedder would do. *)
Theorem X7_empty_store_returns_nothing
        (Score Vector : Type) (score_zero : Score)
        (score_sub : Score -> Score -> Score) (score_leb : Score -> Score -> bool)
        (embedQuery : jsstring -> Result Vector)
        (boostKeywordMatches :
           jsstring -> list (SearchResult Score) -> list (SearchResult Score))
        (crossEncoder : jsstring -> list (SearchResult Score) -> Result (list Score))
        (query : jsstring) (store : VectorStore Score Vector) (options : SearchOptions) :
  isEmpty store = Ok true ->
  hybridSearch score_zero score_sub score_leb embedQuery boostKeywordMatches
    crossEncoder query store options = Ok []
  /\ keywordOnlySearch query store options = Ok [].
Proof.
  intro He. unfold hybridSearch, keywordOnlySearch. rewrite He. split; reflexivity.
Qed.

Lemma X7_empty_store_returns_nothing_witness :
  let options := mkSearchOptions None None (Some (js "'; DROP TABLE--")) None None None in
  raises (buildSafeFilter (filterOptions options)) InvalidFilterError
  /\ Fixtures.searchWith Fixtures.failingEmbedder (js "x") (Fixtures.storeOf []) options
     = Ok []
  /\ keywordOnlySearch (js "x") (Fixtures.storeOf []) options = Ok [].
Proof.
  intro options. split.
  - eexists. vm_compute. reflexivity.
  - exact (X7_empty_store_returns_nothing Z unit 0%Z Z.sub Z.leb Fixtures.failingEmbedder
             Fixtures.noBoost Fixtures.failingCrossEncoder (js "x") (Fixtures.storeOf [])
             options eq_refl).
Defined.

(** X8.  On a store that is not empty, options with an invalid filter
    never yield results: [hybridSearch] raises invalid-filter when the
    embedding succeeds or when an embedder failure sends it to the
    fallback, and an embedding-generation error otherwise. *)
Theorem X8_invalid_filter_never_returns
        (Score Vector : Type) (score_zero : Score)
        (score_sub : Score -> Score -> Score) (score_leb : Score -> Score -> bool)
        (embedQuery : jsstring -> Result Vector)
        (boostKeywordMatches :
           jsstring -> list (SearchResult Score) -> list (SearchResult Score))
        (crossEncoder : jsstring -> list (SearchResult Score) -> Result (list Score))
        (query : jsstring) (store : VectorStore Score Vector) (options : SearchOptions) :
  let run := hybridSearch score_zero score_sub score_leb embedQuery
               boostKeywordMatches crossEncoder query store options in
  isEmpty store = Ok false ->
  raises (buildSafeFilter (filterOptions options)) InvalidFilterError ->
  ~ returns run
  /\ match embedQuery query with
     | Ok _ => raises run InvalidFilterError
     | Throw error =>
         if orDefault (fallbackToKeywordSearch options) true && isEmbeddingError error
         then raises run InvalidFilterError
         else raises run EmbeddingGenerationError
     end.
Proof.
  intros run He [msg Hf].
  assert (R : match embedQuery query with
              | Ok _ => raises run InvalidFilterError
              | Throw error =>
                  if orDefault (fallbackToKeywordSearch options) true
                     && isEmbeddingError error
                  then raises run InvalidFilterError
                  else raises run EmbeddingGenerationError
              end).
  { subst run. unfold hybridSearch. rewrite He. cbn [bind].
    destruct (embedQuery query) as [v|error].
    - rewrite Hf. exists msg. reflexivity.
    - destruct (orDefault (fallbackToKeywordSearch options) true && isEmbeddingError error).
      + unfold keywordOnlySearch. rewrite He. cbn [bind]. rewrite Hf.
        exists msg. reflexivity.
      + eexists. reflexivity. }
  split; [|exact R].
  intros [rs Hrs]. destruct (embedQuery query) as [v|error].
  - destruct R as [m R]. congruence.
  - destruct (orDefault (fallbackToKeywordSearch options) true && isEmbeddingError error);
      destruct R as [m R]; congruence.
Qed.

Lemma X8_invalid_filter_never_returns_witness :
  let options := mkSearchOptions None (Some (js "*.ts'; DROP TABLE--")) None None None None in
  raises (Fixtures.searchWith Fixtures.workingEmbedder (js "x")
            (Fixtures.storeOf Fixtures.threeHits) options) InvalidFilterError.
Proof.
  intro options.
  assert (Hf : raises (buildSafeFilter (filterOptions options)) InvalidFilterError)
    by (eexists; vm_compute; reflexivity).
  destruct (X8_invalid_filter_never_returns Z unit 0%Z Z.sub Z.leb Fixtures.workingEmbedder
              Fixtures.noBoost Fixtures.failingCrossEncoder (js "x")
              (Fixtures.storeOf Fixtures.threeHits) options eq_refl Hf) as [_ H].
  exact H.
Defined.

(** X9.  A failure of the reranker is not a failure of the search: when
    the embedding, the filter and the vector search succeed with at least
    one candidate and the cross-encoder fails, [hybridSearch] returns the
    first limit boosted candidates in their order, each with its boosted
    score as combined score and without the fallback flag. *)
Theorem X9_reranker_failure_is_not_fatal
        (Score Vector : Type) (score_zero : Score)
        (score_sub : Score -> Score -> Score) (score_leb : Score -> Score -> bool)
        (embedQuery : jsstring -> Result Vector)
        (boostKeywordMatches :
           jsstring -> list (SearchResult Score) -> list (SearchResult Score))
        (crossEncoder : jsstring -> list (SearchResult Score) -> Result (list Score))
        (query : jsstring) (store : VectorStore Score Vector) (options : SearchOptions)
        (queryVector : Vector) (filter : option jsstring)
        (first : SearchResult Score) (others : list (SearchResult Score)) :
  let limit := orDefault (limit options) DEFAULT_LIMIT in
  let candidateCount :=
    if orDefault (useReranking options) true
    then (limit * orDefault (candidateMultiplier options) DEFAULT_CANDIDATE_MULTIPLIER)%Z
    else limit in
  let boosted := boostKeywordMatches query (first :: others) in
  isEmpty store = Ok false ->
  embedQuery query = Ok queryVector ->
  buildSafeFilter (filterOptions options) = Ok filter ->
  vectorSearch store queryVector candidateCount filter = Ok (first :: others) ->
  (forall candidates, exists e, crossEncoder query candidates = Throw e) ->
  exists results,
    hybridSearch score_zero score_sub score_leb embedQuery boostKeywordMatches
      crossEncoder query store options = Ok results
    /\ List.map (@h_result Score) results = slice0 boosted limit
    /\ Forall (fun r => combinedScore r = score (h_result r) /\ fromFallback r = None)
              results.
Proof.
  intros limit candidateCount boosted He Hq Hf Hv Hce.
  unfold hybridSearch. fold limit. rewrite He. cbn [bind]. rewrite Hq, Hf. cbn [bind].
  fold candidateCount. rewrite Hv. cbn [bind]. fold boosted.
  assert (Hfinal :
            (if orDefault (useReranking options) true
                && (Z.of_nat (List.length boosted) >? limit)%Z
             then match rerank score_leb crossEncoder query boosted limit with
                  | Ok reranked => reranked
                  | Throw _ => slice0 boosted limit
                  end
             else slice0 boosted limit) = slice0 boosted limit).
  { destruct (orDefault (useReranking options) true
              && (Z.of_nat (List.length boosted) >? limit)%Z); [|reflexivity].
    unfold rerank. destruct (Hce boosted) as [e ->]. reflexivity. }
  rewrite Hfinal. eexists. split; [reflexivity|]. split.
  - rewrite map_map. cbn [h_result]. apply map_id.
  - apply Forall_forall. intros r Hin. apply in_map_iff in Hin as (x & <- & _).
    split; reflexivity.
Qed.

Lemma X9_reranker_failure_is_not_fatal_witness :
  let options := mkSearchOptions (Some 2%Z) None None None None None in
  exists results,
    Fixtures.searchWith Fixtures.workingEmbedder (js "login")
      (Fixtures.storeOf Fixtures.threeHits) options = Ok results
    /\ List.map (@h_result Z) results = slice0 Fixtures.threeHits 2
    /\ Forall (fun r => combinedScore r = score (h_result r) /\ fromFallback r = None)
              results.
Proof.
  intro options.
  refine (X9_reranker_failure_is_not_fatal Z unit 0%Z Z.sub Z.leb Fixtures.workingEmbedder
            Fixtures.noBoost Fixtures.failingCrossEncoder (js "login")
            (Fixtures.storeOf Fixtures.threeHits) options tt None
            (Fixtures.hit (js "src/auth/login.ts") (js "typescript"))
            [Fixtures.hit (js "src/api/user.py") (js "python");
             Fixtures.hit (js "src/a.test.ts") (js "typescript")]
            eq_refl eq_refl eq_refl eq_refl _).
  intro candidates. eexists. reflexivity.
Defined.

(** X10.  When the embedder throws and either the fallback is switched
    off or the error is not one of the three embedder errors, the error
    [hybridSearch] raises is an embedding-generation error whose message
    is the fixed prefix followed by the original message. *)
Theorem X10_embedding_error_is_wrapped
        (Score Vector : Type) (score_zero : Score)
        (score_sub : Score -> Score -> Score) (score_leb : Score -> Score -> bool)
        (embedQuery : jsstring -> Result Vector)
        (boostKeywordMatches :
           jsstring -> list (SearchResult Score) -> list (SearchResult Score))
        (crossEncoder : jsstring -> list (SearchResult Score) -> Result (list Score))
        (query : jsstring) (store : VectorStore Score Vector) (options : SearchOptions)
        (error : Thrown) :
  isEmpty store = Ok false ->
  embedQuery query = Throw error ->
  fallbackToKeywordSearch options = Some false \/ isEmbeddingError error = false ->
  hybridSearch score_zero score_sub score_leb embedQuery boostKeywordMatches
    crossEncoder query store options
  = Throw (mkThrown EmbeddingGenerationError
             (js "Failed to generate query embedding: " ++ message error)).
Proof.
  intros He Hq H. unfold hybridSearch. rewrite He. cbn [bind]. rewrite Hq.
  destruct H as [H | H].
  - rewrite H. reflexivity.
  - rewrite H, andb_false_r. reflexivity.
Qed.

Lemma X10_embedding_error_is_wrapped_witness :
  let timeout := fun _ : jsstring =>
                   @Throw unit (mkThrown OtherError (js "socket hang up")) in
  hybridSearch 0%Z Z.sub Z.leb timeout Fixtures.noBoost Fixtures.failingCrossEncoder
    (js "x") (Fixtures.storeOf Fixtures.threeHits) Fixtures.defaults
  = Throw (mkThrown EmbeddingGenerationError
             (js "Failed to generate query embedding: socket hang up")).
Proof.
  intro timeout.
  exact (X10_embedding_error_is_wrapped Z unit 0%Z Z.sub Z.leb timeout Fixtures.noBoost
           Fixtures.failingCrossEncoder (js "x") (Fixtures.storeOf Fixtures.threeHits)
           Fixtures.defaults (mkThrown OtherError (js "socket hang up"))
           eq_refl eq_refl (or_intror eq_refl)).
Defined.

(** X11.  In the keyword fallback [vectorOnlySearch] and [hybridSearch]
    hand back the same records in the same order, every one flagged as a
    fallback result.  On an empty store they part: [hybridSearch] returns
    the empty list without asking the embedder, [vectorOnlySearch] asks
    it first and raises an embedding-generation error when it fails and
    the fallback is off. *)
Theorem X11_vector_only_against_hybrid
        (Score Vector : Type) (score_zero : Score)
        (score_sub : Score -> Score -> Score) (score_leb : Score -> Score -> bool)
        (embedQuery : jsstring -> Result Vector)
        (boostKeywordMatches :
           jsstring -> list (SearchResult Score) -> list (SearchResult Score))
        (crossEncoder : jsstring -> list (SearchResult Score) -> Result (list Score))
        (query : jsstring) (store : VectorStore Score Vector) (options : SearchOptions)
        (error : Thrown) :
  let hybrid := hybridSearch score_zero score_sub score_leb embedQuery
                  boostKeywordMatches crossEncoder query store options in
  let vectorOnly := vectorOnlySearch embedQuery query store options in
  embedQuery query = Throw error ->
  (orDefault (fallbackToKeywordSearch options) true && isEmbeddingError error = true ->
   forall hs, hybrid = Ok hs ->
     exists vs, vectorOnly = Ok vs
                /\ List.map (@v_result Score) vs = List.map (@h_result Score) hs
                /\ Forall (fun v => v_fromFallback v = Some true) vs)
  /\ (isEmpty store = Ok true ->
      orDefault (fallbackToKeywordSearch options) true = false ->
      hybrid = Ok [] /\ raises vectorOnly EmbeddingGenerationError).
Proof.
  intros hybrid vectorOnly Hq. subst hybrid vectorOnly. split.
  - intros Hfb hs. unfold hybridSearch, vectorOnlySearch. rewrite Hq, Hfb.
    destruct (isEmpty store) as [[|]|e] eqn:He; cbn [bind].
    + intros [= <-]. unfold keywordOnlySearch. rewrite He. cbn [bind].
      exists []. repeat split; constructor.
    + destruct (keywordOnlySearch query store options) as [ks|e] eqn:K; cbn [bind];
        [|discriminate].
      intros [= <-]. eexists. split; [reflexivity|]. split.
      * rewrite !map_map. reflexivity.
      * apply Forall_forall. intros v Hin. apply in_map_iff in Hin as (k & <- & Hk).
        cbn [v_fromFallback]. f_equal.
        revert K Hk. unfold keywordOnlySearch. rewrite He. cbn [bind].
        destruct (buildSafeFilter (filterOptions options)); cbn [bind]; [|discriminate].
        destruct (fullTextSearch store query _); cbn [bind]; [|discriminate].
        destruct (match present a with
                  | Some f => match applyFilter a0 f with
                              | Some rs => Ok rs
                              | None => Throw (regexOutsideModel)
                              end
                  | None => Ok a0
                  end); cbn [bind]; [|discriminate].
        intros [= <-] Hk. apply in_map_iff in Hk as (x & <- & _). reflexivity.
    + discriminate.
  - intros He Hfb. split.
    + unfold hybridSearch. rewrite He. reflexivity.
    + unfold vectorOnlySearch. rewrite Hq, Hfb. eexists. reflexivity.
Qed.

Lemma X11_vector_only_against_hybrid_witness :
  let off := mkSearchOptions None None None None None (Some false) in
  Fixtures.searchWith Fixtures.failingEmbedder (js "x") (Fixtures.storeOf []) off = Ok []
  /\ raises (vectorOnlySearch Fixtures.failingEmbedder (js "x") (Fixtures.storeOf []) off)
            EmbeddingGenerationError.
Proof.
  intro off.
  destruct (X11_vector_only_against_hybrid Z unit 0%Z Z.sub Z.leb Fixtures.failingEmbedder
              Fixtures.noBoost Fixtures.failingCrossEncoder (js "x") (Fixtures.storeOf [])
              off (mkThrown ModelLoadError (js "model unavailable")) eq_refl) as [_ H].
  exact (H eq_refl eq_refl).
Defined.

(** ** More of the cache *)

Section CacheEdges.

Variable T : Type.

Local Abbreviation JsMap := (Cache.JsMap T).
Local Abbreviation LRUCache := (Cache.LRUCache T).

Lemma map_delete_lacks (m : JsMap) (k : jsstring) : ~ In k (keys (Cache.map_delete m k)).
Proof. intro H. apply map_delete_keys in H. tauto. Qed.

Lemma room_lacks_key (c : LRUCache) (k : jsstring) : ~ In k (keys (room c k)).
Proof.
  unfold room.
  set (m1 := if Cache.map_has (Cache.cache c) k
             then Cache.map_delete (Cache.cache c) k else Cache.cache c).
  assert (H1 : ~ In k (keys m1)).
  { subst m1. destruct (Cache.map_has (Cache.cache c) k) eqn:Hh.
    - apply map_delete_lacks.
    - intro H. apply map_has_iff in H. congruence. }
  destruct (Cache.map_size m1 >=? Cache.maxSize c)%Z; [|exact H1].
  destruct (Cache.map_first_key m1) as [oldest|]; [|exact H1].
  intro H. apply map_delete_keys in H. tauto.
Qed.

Lemma fresh_expired (c : LRUCache) (e : Cache.CacheEntry T) (now : Z) :
  Cache.expired c e now = negb (fresh (Cache.ttlMs c) (Cache.timestamp e) now).
Proof.
  unfold fresh, Cache.expired. destruct (Cache.ttlMs c) as [ttl|]; [|reflexivity].
  destruct (Z.gtb_spec (now - Cache.timestamp e) ttl);
    destruct (Z.leb_spec (now - Cache.timestamp e) ttl); try reflexivity; lia.
Qed.

Lemma get_found (c : LRUCache) (k : jsstring) (e : Cache.CacheEntry T) (now : Z) :
  Cache.map_get (Cache.cache c) k = Some e ->
  Cache.get c k now
  = if fresh (Cache.ttlMs c) (Cache.timestamp e) now
    then (Some (Cache.value e),
          Cache.withCache c (Cache.map_delete (Cache.cache c) k ++ [(k, e)]))
    else (None, Cache.withCache c (Cache.map_delete (Cache.cache c) k)).
Proof.
  intro G. unfold Cache.get. rewrite G, fresh_expired.
  destruct (fresh (Cache.ttlMs c) (Cache.timestamp e) now); cbn [negb]; [|reflexivity].
  now rewrite (map_set_absent T _ k e (map_delete_lacks _ k)).
Qed.

Lemma map_get_delete_other (m : JsMap) (k k' : jsstring) :
  k' <> k -> Cache.map_get (Cache.map_delete m k) k' = Cache.map_get m k'.
Proof.
  intro Hne. induction m as [|[k0 e0] m IH]; [reflexivity|].
  cbn [Cache.map_delete Cache.map_get].
  destruct (str_eqb k0 k) eqn:E.
  - apply str_eqb_eq in E. subst k0.
    destruct (str_eqb k k') eqn:E'; [|exact IH].
    apply str_eqb_eq in E'. congruence.
  - cbn [Cache.map_get]. destruct (str_eqb k0 k'); [reflexivity | exact IH].
Qed.

End CacheEdges.

(** X12.  What [set] stores, [get] returns: for every cache, whatever
    its capacity and content, [get] on a key right after [set] on it
    returns the value set if the entry is within the TTL at the time of
    the read (always so without a TTL), and undefined if it has expired. *)
Theorem X12_set_then_get (T : Type) (c : Cache.LRUCache T) (k : jsstring) (v : T)
        (now later : Z) :
  fst (Cache.get (Cache.set c k v now) k later)
  = if fresh (Cache.ttlMs c) now later then Some v else None.
Proof.
  assert (G : Cache.map_get (Cache.cache (Cache.set c k v now)) k
              = Some (Cache.mkEntry v now)).
  { rewrite set_room, (map_set_absent T _ k _ (room_lacks_key T c k)).
    apply map_get_snoc. apply room_lacks_key. }
  rewrite (get_found T _ k _ later G).
  change (Cache.ttlMs (Cache.set c k v now)) with (Cache.ttlMs c).
  change (Cache.timestamp (Cache.mkEntry v now)) with now.
  destruct (fresh (Cache.ttlMs c) now later); reflexivity.
Qed.

(** X13.  A read does not prolong an entry's life: after a hit at [t1],
    a second [get] at [t2] returns the value exactly when [t2] is still
    within the TTL of the time the entry was set; the hit leaves the
    entry's timestamp as it was. *)
Theorem X13_reads_do_not_refresh (T : Type) (c : Cache.LRUCache T) (k : jsstring)
        (e : Cache.CacheEntry T) (t1 t2 : Z) :
  Cache.map_get (Cache.cache c) k = Some e ->
  fresh (Cache.ttlMs c) (Cache.timestamp e) t1 = true ->
  fst (Cache.get c k t1) = Some (Cache.value e)
  /\ Cache.map_get (Cache.cache (snd (Cache.get c k t1))) k = Some e
  /\ fst (Cache.get (snd (Cache.get c k t1)) k t2)
     = if fresh (Cache.ttlMs c) (Cache.timestamp e) t2
       then Some (Cache.value e) else None.
Proof.
  intros G F1. rewrite (get_found T c k e t1 G), F1. cbn [fst snd].
  assert (G' : Cache.map_get
                 (Cache.cache (Cache.withCache c
                                 (Cache.map_delete (Cache.cache c) k ++ [(k, e)]))) k
               = Some e).
  { cbn [Cache.cache Cache.withCache]. apply map_get_snoc. apply map_delete_lacks. }
  split; [reflexivity|]. split; [exact G'|].
  rewrite (get_found T _ k e t2 G').
  change (Cache.ttlMs (Cache.withCache c
                         (Cache.map_delete (Cache.cache c) k ++ [(k, e)])))
    with (Cache.ttlMs c).
  destruct (fresh (Cache.ttlMs c) (Cache.timestamp e) t2); reflexivity.
Qed.

Lemma X13_reads_do_not_refresh_witness :
  let c := Cache.set (Cache.new nat (Cache.mkCacheOptions None (Some 50%Z)))
             (js "key1") 42%nat 0%Z in
  fst (Cache.get c (js "key1") 40%Z) = Some 42%nat
  /\ fst (Cache.get (snd (Cache.get c (js "key1") 40%Z)) (js "key1") 60%Z) = None.
Proof.
  intro c.
  destruct (X13_reads_do_not_refresh nat c (js "key1") (Cache.mkEntry 42%nat 0%Z)
              40%Z 60%Z eq_refl eq_refl) as (H1 & _ & H3).
  split; [exact H1 | exact H3].
Defined.

(** X14.  [has] and [get] agree on whether a key is there, and on what
    they do to a missing or expired key; but a successful [has] leaves
    the cache exactly as it was, while a successful [get] moves the entry
    to the newest end. *)
Theorem X14_has_does_not_touch_recency (T : Type) (c : Cache.LRUCache T) (k : jsstring)
        (now : Z) :
  fst (Cache.has c k now)
  = match fst (Cache.get c k now) with Some _ => true | None => false end
  /\ (fst (Cache.has c k now) = true -> snd (Cache.has c k now) = c)
  /\ (fst (Cache.has c k now) = false ->
      snd (Cache.has c k now) = snd (Cache.get c k now))
  /\ (forall v, fst (Cache.get c k now) = Some v ->
        exists front e,
          Cache.cache (snd (Cache.get c k now)) = front ++ [(k, e)]
          /\ Cache.value e = v
          /\ front = Cache.map_delete (Cache.cache c) k).
Proof.
  unfold Cache.has.
  destruct (Cache.map_get (Cache.cache c) k) as [e|] eqn:G.
  - rewrite (get_found T c k e now G), fresh_expired.
    destruct (fresh (Cache.ttlMs c) (Cache.timestamp e) now); cbn [negb fst snd].
    + repeat split; try discriminate.
      intros v [= <-]. exists (Cache.map_delete (Cache.cache c) k), e.
      repeat split.
    + repeat split; try discriminate.
  - unfold Cache.get. rewrite G. cbn [fst snd]. repeat split; discriminate.
Qed.

(** X15.  [delete] reports whether the key was stored (an expired entry
    counts), and afterwards the key is gone while every other key is
    found as before; in a cache reached from the constructor the size
    drops by one when the key was stored and stays otherwise. *)
Theorem X15_delete (T : Type) (options : Cache.LRUCacheOptions)
        (ops : list (Cache.Op T)) (k : jsstring) (now : Z) :
  (1 <= Cache.maxSize (Cache.new T options))%Z ->
  let c := Cache.run (Cache.new T options) ops in
  let c' := snd (Cache.delete c k) in
  fst (Cache.delete c k) = Cache.map_has (Cache.cache c) k
  /\ fst (Cache.get c' k now) = None
  /\ fst (Cache.has c' k now) = false
  /\ (forall k', k' <> k ->
        Cache.map_get (Cache.cache c') k' = Cache.map_get (Cache.cache c) k')
  /\ Cache.size c'
     = (Cache.size c - if Cache.map_has (Cache.cache c) k then 1 else 0)%Z.
Proof.
  intros Hmax c c'.
  destruct (run_wellKept T ops (Cache.new T options) (new_wellKept T options Hmax) Hmax)
    as [[Hnd _] _].
  fold c in Hnd.
  assert (Hk : ~ In k (keys (Cache.cache c'))) by apply map_delete_lacks.
  split; [reflexivity|]. split; [|split; [|split]].
  - now apply get_absent.
  - unfold Cache.has. now rewrite (map_get_absent T _ k Hk).
  - intros k' Hne. now apply map_get_delete_other.
  - unfold Cache.size, Cache.map_size. cbn [c' snd Cache.delete Cache.cache Cache.withCache].
    destruct (Cache.map_has (Cache.cache c) k) eqn:Hh.
    + apply map_has_iff in Hh.
      pose proof (map_delete_length_present T _ k Hnd Hh). lia.
    + rewrite map_delete_absent; [lia|].
      intro H. apply map_has_iff in H. congruence.
Qed.

Lemma X15_delete_witness :
  let c := Cache.run (Cache.new nat (Cache.mkCacheOptions (Some 3%Z) None))
             [Cache.OpSet (js "a") 1%nat 0%Z; Cache.OpSet (js "b") 2%nat 1%Z] in
  fst (Cache.delete c (js "a")) = true
  /\ fst (Cache.get (snd (Cache.delete c (js "a"))) (js "a") 2%Z) = None
  /\ Cache.size (snd (Cache.delete c (js "a"))) = 1%Z.
Proof.
  intro c.
  destruct (X15_delete nat (Cache.mkCacheOptions (Some 3%Z) None)
              [Cache.OpSet (js "a") 1%nat 0%Z; Cache.OpSet (js "b") 2%nat 1%Z]
              (js "a") 2%Z ltac:(simpl; lia)) as (H1 & H2 & _ & _ & H5).
  split; [exact H1|]. split; [exact H2 | exact H5].
Defined.

Lemma X14_has_does_not_touch_recency_witness :
  let c := Cache.run (Cache.new nat (Cache.mkCacheOptions (Some 3%Z) None))
             [Cache.OpSet (js "a") 1%nat 0%Z; Cache.OpSet (js "b") 2%nat 1%Z] in
  fst (Cache.has c (js "a") 2%Z) = true
  /\ snd (Cache.has c (js "a") 2%Z) = c
  /\ exists front e,
       Cache.cache (snd (Cache.get c (js "a") 2%Z)) = front ++ [(js "a", e)]
       /\ Cache.value e = 1%nat
       /\ front = Cache.map_delete (Cache.cache c) (js "a").
Proof.
  intro c.
  destruct (X14_has_does_not_touch_recency nat c (js "a") 2%Z) as (_ & Hsame & _ & Hmove).
  split; [reflexivity|]. split; [exact (Hsame eq_refl) | exact (Hmove 1%nat eq_refl)].
Defined.

Section ZeroCapacity.

Variable T : Type.

Lemma cramped_set (c : Cache.LRUCache T) (k : jsstring) (v : T) (now : Z) :
  cramped c -> Cache.cache (Cache.set c k v now) = [(k, Cache.mkEntry v now)].
Proof.
  intros [Hlen Hmax]. rewrite set_room. unfold room.
  destruct (Cache.cache c) as [|[k0 e0] [|x rest]] eqn:Em; [| |simpl in Hlen; lia].
  - cbn [Cache.map_has Cache.map_get Cache.map_first_key].
    destruct (Cache.map_size [] >=? Cache.maxSize c)%Z; reflexivity.
  - unfold Cache.map_has. cbn [Cache.map_get].
    destruct (str_eqb k0 k) eqn:E.
    + cbn [Cache.map_delete]. rewrite E. cbn [Cache.map_first_key].
      destruct (Cache.map_size [] >=? Cache.maxSize c)%Z; reflexivity.
    + assert (G : (Cache.map_size [(k0, e0)] >=? Cache.maxSize c)%Z = true).
      { apply Z.geb_le. unfold Cache.map_size. cbn [List.length]. lia. }
      rewrite G. cbn [Cache.map_first_key Cache.map_delete]. rewrite str_eqb_refl.
      reflexivity.
Qed.

Lemma cramped_step (c : Cache.LRUCache T) (op : Cache.Op T) :
  cramped c -> cramped (Cache.step c op).
Proof.
  intros [Hlen Hmax]. pose proof (conj Hlen Hmax : cramped c) as Hc.
  destruct op as [key now | key v now | key now | key |]; cbn [Cache.step].
  - unfold Cache.get.
    destruct (Cache.map_get (Cache.cache c) key) as [entry|] eqn:G; [|exact Hc].
    destruct (Cache.expired c entry now); cbn [snd]; split; cbn [Cache.maxSize
      Cache.withCache Cache.cache]; try exact Hmax.
    + pose proof (map_delete_length T (Cache.cache c) key). lia.
    + rewrite (map_set_absent T _ key entry (map_delete_lacks T _ key)).
      rewrite length_app. cbn [List.length].
      destruct (Cache.cache c) as [|[k0 e0] [|x rest]]; [discriminate G| |simpl in Hlen; lia].
      cbn [Cache.map_get] in G. cbn [Cache.map_delete].
      destruct (str_eqb k0 key); [cbn [Cache.map_delete List.length]; lia | discriminate G].
  - split; [|exact Hmax]. rewrite (cramped_set c key v now Hc). cbn [List.length]. lia.
  - unfold Cache.has.
    destruct (Cache.map_get (Cache.cache c) key) as [entry|]; [|exact Hc].
    destruct (Cache.expired c entry now); cbn [snd]; [|exact Hc].
    split; cbn [Cache.maxSize Cache.withCache Cache.cache]; [|exact Hmax].
    pose proof (map_delete_length T (Cache.cache c) key). lia.
  - split; cbn [snd Cache.delete Cache.maxSize Cache.withCache Cache.cache]; [|exact Hmax].
    pose proof (map_delete_length T (Cache.cache c) key). lia.
  - split; cbn [Cache.clear Cache.maxSize Cache.withCache Cache.cache List.length];
      [lia | exact Hmax].
Qed.

Lemma cramped_run (ops : list (Cache.Op T)) (c : Cache.LRUCache T) :
  cramped c -> cramped (Cache.run c ops).
Proof.
  revert c. induction ops as [|op ops IH]; intros c Hc; [exact Hc|].
  unfold Cache.run. cbn [fold_left]. fold (Cache.run (Cache.step c op) ops).
  apply IH. now apply cramped_step.
Qed.

End ZeroCapacity.

(** X16.  A cache constructed with a capacity of zero or less is not
    empty for ever: it holds at most one entry after every sequence of
    operations, and after every [set] it holds exactly the entry just
    set, one more than its configured capacity. *)
Theorem X16_zero_capacity_holds_one (T : Type) (options : Cache.LRUCacheOptions)
        (ops : list (Cache.Op T)) :
  (Cache.maxSize (Cache.new T options) <= 0)%Z ->
  let c := Cache.run (Cache.new T options) ops in
  (Cache.size c <= 1)%Z
  /\ forall k v now,
       Cache.cache (Cache.set c k v now) = [(k, Cache.mkEntry v now)]
       /\ Cache.size (Cache.set c k v now) = 1%Z.
Proof.
  intros Hmax c.
  assert (Hc : cramped c).
  { apply cramped_run. split; [cbn [Cache.new Cache.cache List.length]; lia | exact Hmax]. }
  split.
  - destruct Hc as [Hlen _]. unfold Cache.size, Cache.map_size. lia.
  - intros k v now. pose proof (cramped_set T c k v now Hc) as E.
    split; [exact E|]. unfold Cache.size, Cache.map_size. rewrite E. reflexivity.
Qed.

Lemma X16_zero_capacity_holds_one_witness :
  let c := Cache.run (Cache.new nat (Cache.mkCacheOptions (Some 0%Z) None))
             [Cache.OpSet (js "a") 1%nat 0%Z; Cache.OpSet (js "b") 2%nat 1%Z] in
  (Cache.size c <= 1)%Z
  /\ Cache.size (Cache.set c (js "c") 3%nat 2%Z) = 1%Z.
Proof.
  intro c.
  destruct (X16_zero_capacity_holds_one nat (Cache.mkCacheOptions (Some 0%Z) None)
              [Cache.OpSet (js "a") 1%nat 0%Z; Cache.OpSet (js "b") 2%nat 1%Z]
              ltac:(simpl; lia)) as [H1 H2].
  split; [exact H1|]. destruct (H2 (js "c") 3%nat 2%Z) as [_ H]. exact H.
Defined.

(** ** The metrics collector *)

Section MetricsFacts.

Lemma skipn_snoc_tl {A} (x : A) (l : list A) :
  forall n, (n < List.length l)%nat ->
            skipn (S n) (l ++ [x]) = tl (skipn n l ++ [x]).
Proof.
  induction l as [|a l IH]; intros n Hn; [simpl in Hn; lia|].
  destruct n as [|n]; [reflexivity|].
  cbn [app]. rewrite !skipn_cons. apply IH. simpl in Hn. lia.
Qed.

Lemma lastN_length {A} (k : nat) (l : list A) :
  (List.length (Metrics.lastN k l) <= k)%nat.
Proof. unfold Metrics.lastN. rewrite length_skipn. lia. Qed.

(** Pushing onto the last [maxSamples] samples, and shifting when the
    buffer overflows, leaves the last [maxSamples] samples. *)
Lemma pushSample_lastN (l : list Z) (x : Z) :
  Metrics.pushSample (Metrics.lastN (Z.to_nat Metrics.maxSamples) l) x
  = Metrics.lastN (Z.to_nat Metrics.maxSamples) (l ++ [x]).
Proof.
  unfold Metrics.pushSample.
  assert (Hk : Z.of_nat (Z.to_nat Metrics.maxSamples) = Metrics.maxSamples)
    by (unfold Metrics.maxSamples; lia).
  assert (Hk1 : (1 <= Z.to_nat Metrics.maxSamples)%nat)
    by (unfold Metrics.maxSamples; lia).
  generalize dependent (Z.to_nat Metrics.maxSamples). intros k Hk Hk1.
  unfold Metrics.lastN. rewrite !length_app, length_skipn. cbn [List.length].
  destruct (Nat.le_gt_cases k (List.length l)) as [Hge | Hlt].
  - destruct (Z.gtb_spec (Z.of_nat (List.length l - (List.length l - k) + 1))
                         Metrics.maxSamples) as [_ | Hno]; [|lia].
    replace (List.length l + 1 - k)%nat with (S (List.length l - k)) by lia.
    symmetry. apply skipn_snoc_tl. lia.
  - destruct (Z.gtb_spec (Z.of_nat (List.length l - (List.length l - k) + 1))
                         Metrics.maxSamples) as [Hyes | _]; [lia|].
    replace (List.length l - k)%nat with 0%nat by lia.
    replace (List.length l + 1 - k)%nat with 0%nat by lia.
    reflexivity.
Qed.

Lemma recordAll_snoc (m : Metrics.MetricsCollector) (l : list Metrics.Sample)
      (s : Metrics.Sample) :
  Metrics.recordAll m (l ++ [s])
  = Metrics.recordSearch (Metrics.recordAll m l) (fst (fst s)) (snd (fst s)) (snd s).
Proof. unfold Metrics.recordAll. rewrite fold_left_app. reflexivity. Qed.

Lemma recordAll_state (samples : list Metrics.Sample) :
  Metrics.recordAll Metrics.initial samples
  = Metrics.mkCollector (Metrics.indexing Metrics.initial)
      (Metrics.mkSearch
         (Z.of_nat (List.length samples))
         (Metrics.lastN (Z.to_nat Metrics.maxSamples)
            (List.map (fun s => fst (fst s)) samples))
         (Metrics.lastN (Z.to_nat Metrics.maxSamples)
            (List.map (fun s => snd (fst s)) samples))
         (Z.of_nat (List.length (List.filter (fun s : Metrics.Sample => snd s) samples)))
         0).
Proof.
  induction samples as [|s samples IH] using rev_ind; [reflexivity|].
  rewrite recordAll_snoc, IH. unfold Metrics.recordSearch.
  cbn [Metrics.search Metrics.indexing Metrics.queriesTotal Metrics.queryLatencyMs
       Metrics.resultsReturned Metrics.fallbacksTriggered Metrics.errorsCount].
  rewrite !pushSample_lastN, !map_app, filter_app, !length_app. cbn [List.map List.filter].
  f_equal. f_equal.
  - cbn [List.length]. lia.
  - destruct (snd s); cbn [List.length]; lia.
Qed.

End MetricsFacts.

(** X17.  After any number of [recordSearch] calls on a fresh (or reset)
    collector, the two sample buffers hold the last 1000 latencies and
    result counts in the order of the calls, never more than 1000 of
    them; [queriesTotal] counts every call and [fallbacksTriggered] the
    calls flagged as fallback, so it never exceeds [queriesTotal]. *)
Theorem X17_metrics_buffers_bounded (samples : list Metrics.Sample) :
  let m := Metrics.recordAll (Metrics.reset Metrics.initial) samples in
  let s := Metrics.search m in
  Metrics.queryLatencyMs s
  = Metrics.lastN 1000 (List.map (fun x => fst (fst x)) samples)
  /\ Metrics.resultsReturned s
     = Metrics.lastN 1000 (List.map (fun x => snd (fst x)) samples)
  /\ (List.length (Metrics.queryLatencyMs s) <= 1000)%nat
  /\ (List.length (Metrics.resultsReturned s) <= 1000)%nat
  /\ Metrics.queriesTotal s = Z.of_nat (List.length samples)
  /\ Metrics.fallbacksTriggered s
     = Z.of_nat (List.length (List.filter (fun x : Metrics.Sample => snd x) samples))
  /\ (0 <= Metrics.fallbacksTriggered s <= Metrics.queriesTotal s)%Z.
Proof.
  intros m s. subst s m. unfold Metrics.reset. rewrite recordAll_state.
  cbn [Metrics.search Metrics.queriesTotal Metrics.queryLatencyMs
       Metrics.resultsReturned Metrics.fallbacksTriggered].
  change (Z.to_nat Metrics.maxSamples) with 1000%nat.
  assert (Hf : (List.length (List.filter (fun x : Metrics.Sample => snd x) samples)
                <= List.length samples)%nat) by apply filter_length_le.
  split; [reflexivity|]. split; [reflexivity|].
  split; [apply lastN_length|]. split; [apply lastN_length|].
  split; [reflexivity|]. split; [reflexivity|]. lia.
Qed.

(** ** More of the path utilities *)

Section PathUtilFacts.

Lemma normalizePath_no_backslash (p : jsstring) : ~ In c_backslash (normalizePath p).
Proof.
  unfold normalizePath, replaceClass. intro H. apply in_map_iff in H as (x & Hx & _).
  revert Hx. unfold char_eqb. destruct (N.eqb x c_backslash) eqn:E; intro Hx.
  - discriminate Hx.
  - apply N.eqb_neq in E. contradiction.
Qed.

Lemma normalizePath_id (s : jsstring) : ~ In c_backslash s -> normalizePath s = s.
Proof.
  intro H. unfold normalizePath. apply replaceClass_id. apply Forall_forall.
  intros c Hc. unfold char_eqb. destruct (N.eqb c c_backslash) eqn:E; [|reflexivity].
  apply N.eqb_eq in E. subst c. contradiction.
Qed.

Lemma endsWithSlash_snoc (s : jsstring) : endsWithSlash (s ++ [c_slash]) = true.
Proof. unfold endsWithSlash. rewrite rev_app_distr. reflexivity. Qed.

Lemma ensureTrailingSeparator_cases (p : jsstring) :
  (endsWithSlash (normalizePath p) = true
   /\ ensureTrailingSeparator p = normalizePath p)
  \/ (endsWithSlash (normalizePath p) = false
      /\ ensureTrailingSeparator p = normalizePath p ++ [c_slash]).
Proof.
  unfold ensureTrailingSeparator.
  destruct (endsWithSlash (normalizePath p)); [left | right]; split; reflexivity.
Qed.

End PathUtilFacts.

(** X18.  [ensureTrailingSeparator] returns the forward-slash spelling of
    its input, with one slash appended unless it already ends in one: the
    result ends in a slash, holds no backslash, and is left unchanged by
    a second call; [normalizePath] too is idempotent. *)
Theorem X18_trailing_separator (p : jsstring) :
  let r := ensureTrailingSeparator p in
  (r = normalizePath p \/ r = normalizePath p ++ [c_slash])
  /\ endsWithSlash r = true
  /\ ~ In c_backslash r
  /\ ensureTrailingSeparator r = r
  /\ normalizePath (normalizePath p) = normalizePath p.
Proof.
  intro r.
  assert (Hnb : ~ In c_backslash r).
  { subst r. destruct (ensureTrailingSeparator_cases p) as [[_ ->] | [_ ->]].
    - apply normalizePath_no_backslash.
    - rewrite in_app_iff. intros [H | [H | []]].
      + exact (normalizePath_no_backslash p H).
      + discriminate H. }
  assert (Hend : endsWithSlash r = true).
  { subst r. destruct (ensureTrailingSeparator_cases p) as [[H ->] | [_ ->]].
    - exact H.
    - apply endsWithSlash_snoc. }
  split; [|split; [exact Hend | split; [exact Hnb | split]]].
  - subst r. destruct (ensureTrailingSeparator_cases p) as [[_ ->] | [_ ->]]; auto.
  - unfold ensureTrailingSeparator. rewrite (normalizePath_id r Hnb), Hend. reflexivity.
  - apply normalizePath_id. apply normalizePath_no_backslash.
Qed.

Section ChunkIdFacts.





End ChunkIdFacts.



(** ** The file-system root as root directory *)

Section RootSlash.

Lemma segments_clean (s : jsstring) :
  forall cur, ~ In c_slash cur ->
              Forall (fun seg => ~ In c_slash seg) (segments s cur).
Proof.
  induction s as [|c t IH]; intros cur Hc; cbn [segments].
  - constructor; [|constructor]. intro H. rewrite <- in_rev in H. contradiction.
  - destruct (char_eqb c c_slash) eqn:E.
    + constructor.
      * intro H. rewrite <- in_rev in H. contradiction.
      * apply IH. intros [].
    + apply IH. intros [H | H]; [|contradiction].
      subst c. unfold char_eqb in E. rewrite N.eqb_refl in E. discriminate E.
Qed.

Lemma pushSegment_clean (allowAboveRoot : bool) (stack : list jsstring) (seg : jsstring) :
  Forall (fun g => g <> [] /\ ~ In c_slash g) stack ->
  ~ In c_slash seg ->
  Forall (fun g => g <> [] /\ ~ In c_slash g) (pushSegment allowAboveRoot stack seg).
Proof.
  intros Hst Hseg. unfold pushSegment.
  destruct (str_eqb seg [] || str_eqb seg (js ".")) eqn:E1; [exact Hst|].
  apply orb_false_iff in E1 as [E1 _]. apply str_eqb_neq in E1.
  assert (Hgood : seg <> [] /\ ~ In c_slash seg) by now split.
  destruct (isDotDot seg).
  - destruct stack as [|top below].
    + destruct allowAboveRoot; [now constructor | constructor].
    + destruct (isDotDot top); [now constructor | now apply Forall_inv_tail in Hst].
  - now constructor.
Qed.

Lemma normalize_stack_clean (allowAboveRoot : bool) (segs : list jsstring) :
  forall stack,
    Forall (fun g => g <> [] /\ ~ In c_slash g) stack ->
    Forall (fun seg => ~ In c_slash seg) segs ->
    Forall (fun g => g <> [] /\ ~ In c_slash g)
           (fold_left (pushSegment allowAboveRoot) segs stack).
Proof.
  induction segs as [|seg segs IH]; intros stack Hst Hsegs; [exact Hst|].
  cbn [fold_left]. apply Forall_cons_iff in Hsegs as [Hseg Hsegs].
  apply IH; [now apply pushSegment_clean | exact Hsegs].
Qed.

Lemma join_no_leading_slash (l : list jsstring) :
  Forall (fun g => g <> [] /\ ~ In c_slash g) l ->
  startsWith (join [c_slash] l) [c_slash] = false.
Proof.
  intros H. destruct H as [|seg rest [Hne Hns] _]; [reflexivity|].
  destruct seg as [|c seg']; [contradiction|].
  assert (Hc : char_eqb c c_slash = false).
  { unfold char_eqb. destruct (N.eqb c c_slash) eqn:E; [|reflexivity].
    apply N.eqb_eq in E. subst c. exfalso. apply Hns. now left. }
  destruct rest; cbn [join app startsWith]; now rewrite Hc.
Qed.

(** The normalized path never begins with a slash. *)
Lemma normalizeString_no_leading_slash (p : jsstring) (allowAboveRoot : bool) :
  startsWith (normalizeString p allowAboveRoot) [c_slash] = false.
Proof.
  unfold normalizeString. apply join_no_leading_slash.
  apply Forall_rev. apply normalize_stack_clean; [constructor|].
  apply segments_clean. intros [].
Qed.

Lemma resolve_under_root_absolute (cwd test : jsstring) :
  exists resolvedPath, resolveLoop cwd (rev [js "/"; test]) [] = (resolvedPath, true).
Proof.
  change (rev [js "/"; test]) with [test; js "/"].
  destruct test as [|c t].
  - eexists. reflexivity.
  - cbn [resolveLoop]. destruct (char_eqb c c_slash); eexists; reflexivity.
Qed.

End RootSlash.

(** X20.  With the file-system root [/] as root directory on a POSIX
    host, [isWithinRoot] accepts a path only when it resolves to [/]
    itself: the resolved root followed by the separator is [//], which no
    resolved path begins with.  So [/etc] is not within [/]. *)
Theorem X20_root_slash_contains_only_itself (cwd test : jsstring) :
  isWithinRoot (posixHost cwd) test (js "/")
  = str_eqb (posixResolve cwd [js "/"; test]) (js "/")
  /\ isWithinRoot (posixHost cwd) (js "/etc") (js "/") = false
  /\ isWithinRoot (posixHost cwd) (js "/") (js "/") = true.
Proof.
  split; [|split; vm_compute; reflexivity].
  unfold isWithinRoot. cbn [win32 sep resolve posixHost].
  change (posixResolve cwd [js "/"]) with (js "/").
  unfold posixResolve.
  destruct (resolve_under_root_absolute cwd test) as [resolvedPath ->].
  cbn [negb]. change (js "/" ++ [c_slash]) with [c_slash; c_slash].
  cbn [startsWith]. change (char_eqb c_slash c_slash) with true. cbn [andb].
  rewrite normalizeString_no_leading_slash. reflexivity.
Qed.
